(** * portfolioAllocator: a shallow embedding of [allocator.py]

    The module computes a risk-balanced allocation: theme volatilities from a
    table of prices ([calculate_theme_volatility]), inverse-volatility theme
    weights split equally over the tickers of each theme ([calculate_weights])
    and a buy list ([calculate_allocation]).

    Numbers.  A pandas cell is a double.  The embedding keeps the IEEE special
    values ([PInf], [NInf], [NaN]) and the way they propagate, and takes a
    finite double to be the rational it stands for.  Every operation rounds its
    exact result to the precision of the runtime, to the nearest number with
    ties to even, as IEEE 754 does: 53 bits for the doubles of the code; a
    runtime without a precision computes without rounding.  The range of the
    exponent is not modelled: no overflow to an infinity, no underflow, no
    signed zero; the statements that would depend on it bound their inputs.
    Finite results are stored in lowest terms, so two finite results are the
    same number exactly when they are equal terms.  A sum adds its terms
    from left to right, the order numpy uses for fewer than eight numbers.
    The cast to integers is the cast to 64 bits of x86-64: a number
    outside their range gives the smallest 64-bit integer.

    Errors.  A Python call either returns or raises; functions that can raise
    return an [outcome], and [s[k]] on a missing key raises [KeyError] as it
    does in Python, so that "never raises" is something to prove.  The cast
    of the share counts raises pandas' [IntCastingNaNError] on a column of
    doubles and Python's [ValueError] on a column of objects.

    Libraries.  What the source asks of pandas and numpy is written out
    operation by operation in the section "pandas".  Four things are left
    open, as the fields of a [Runtime]: the precision of the arithmetic; the
    square root of a finite non-negative number before it is rounded; whether
    [DataFrame.pct_change()] pads missing prices by default (it does up to
    pandas 2.x and does not from pandas 3.0 on); and the order in which the
    default, unstable sort of [sort_values] leaves rows with equal keys.
    Output on the console (the warning for a theme without data) is not
    modelled.

    The driver.  [fetch_historical_data] and [portfolio_allocator] are
    embedded over a [World]: what [yf.download] returns (its columns, and
    the values its first column level lists) and the order in
    which [list(set(...))] lists the tickers are its fields.  The driver is
    the call with [show_plot] left at its default; [plot_theme_allocation]
    (the chart) and [main] (the prompts and the printing) are not modelled. *)


From Stdlib Require Import List String ZArith QArith Qpower Qround Qabs Bool Lia Lqa.
From Stdlib Require Import Permutation Sorted Arith.
From Stdlib Require Qcanon.
Import ListNotations.

Local Open Scope Q_scope.

(** ** Numbers *)

Inductive fl : Type :=
| Fin (q : Q)
| PInf
| NInf
| NaN.

Definition is_nan (x : fl) : bool :=
  match x with NaN => true | _ => false end.

Definition notna (x : fl) : bool := negb (is_nan x).

Definition is_finite (x : fl) : bool :=
  match x with Fin _ => true | _ => false end.

(** Round half to even, the rule of [numpy.rint] and of the arithmetic. *)
Definition round_half_even (q : Q) : Z :=
  let f := Qfloor q in
  match Qcompare (q - inject_Z f) (1 # 2) with
  | Lt => f
  | Gt => (f + 1)%Z
  | Eq => if Z.even f then f else (f + 1)%Z
  end.

(** *** Rounding to a precision

    The exponent of a positive number: [2 ^ binade q <= q < 2 ^ (binade q + 1)]. *)
Definition binade (q : Q) : Z :=
  let c := (Z.log2 (Qnum q) - Z.log2 (Zpos (Qden q)))%Z in
  if Qle_bool (2 ^ c) q then c else (c - 1)%Z.

(** The positive [q] rounded to [bits] significant bits: the nearest
    multiple of the unit in its last place, the even one on a tie. *)
Definition round_pos (bits : positive) (q : Q) : Q :=
  let s := 2 ^ (binade q - (Zpos bits - 1)) in
  inject_Z (round_half_even (q / s)) * s.

Definition round_bits (bits : positive) (q : Q) : Q :=
  match Qcompare q 0 with
  | Eq => 0
  | Gt => round_pos bits q
  | Lt => - round_pos bits (- q)
  end.

Definition round_to (precision : option positive) (q : Q) : Q :=
  match precision with
  | Some bits => round_bits bits q
  | None => q
  end.

(** The largest relative error of a rounding: [2 ^ - bits]. *)
Definition unit_roundoff (precision : option positive) : Q :=
  match precision with
  | Some bits => 1 # (2 ^ bits)
  | None => 0
  end.

(** An infinity ([+inf] when [pos], [-inf] otherwise) times the finite [q]:
    the sign follows [q], and the product with zero is [NaN]. *)
Definition inf_times (pos : bool) (q : Q) : fl :=
  match Qcompare q 0 with
  | Gt => if pos then PInf else NInf
  | Lt => if pos then NInf else PInf
  | Eq => NaN
  end.

Definition fl_of_nat (n : nat) : fl := Fin (inject_Z (Z.of_nat n)).

(** [x < y] on doubles; false as soon as one side is [NaN]. *)
Definition fl_ltb (x y : fl) : bool :=
  match x, y with
  | NaN, _ | _, NaN => false
  | Fin a, Fin b => negb (Qle_bool b a)
  | Fin _, PInf => true
  | Fin _, NInf => false
  | PInf, _ => false
  | NInf, NInf => false
  | NInf, _ => true
  end.

(** [x == y] on doubles. *)
Definition fl_eqb (x y : fl) : bool :=
  match x, y with
  | Fin a, Fin b => Qeq_bool a b
  | PInf, PInf | NInf, NInf => true
  | _, _ => false
  end.

(** [numpy.rint]. *)
Definition rint (x : fl) : fl :=
  match x with
  | Fin q => Fin (inject_Z (round_half_even q))
  | _ => x
  end.

Definition pow10 (decimals : nat) : Q := inject_Z (10 ^ Z.of_nat decimals).

(** The integer part of a rational, towards zero. *)
Definition Qtrunc (q : Q) : Z := Z.quot (Qnum q) (Zpos (Qden q)).

Definition min_int64 : Z := (- 2 ^ 63)%Z.

(** The C cast of a double to [int64].  A number outside the range comes
    out as the least [int64], as it does on x86-64 (the C standard leaves
    the result open). *)
Definition int64_cast (q : Q) : Z :=
  let z := Qtrunc q in
  if ((min_int64 <=? z) && (z <? 2 ^ 63))%Z then z else min_int64.

(** What the development does not fix about the libraries and the machine. *)
Record Runtime : Type := {
  (** the square root of a finite non-negative number, before it is rounded *)
  sqrt_finite : Q -> Q;
  (** [DataFrame.pct_change()] forward-fills missing prices first *)
  pct_change_pads : bool;
  (** the positions [sort_values(ascending=False)] takes the rows in, which
      pandas computes from the key column alone *)
  sort_order : list fl -> list nat;
  (** the bits of a significand, 53 for the doubles of the code; none for
      arithmetic without rounding *)
  precision : option positive
}.

Existing Class Runtime.

Section Arithmetic.

Context {rt : Runtime}.

(** The double of the exact result [q], in lowest terms. *)
Definition fin (q : Q) : fl := Fin (Qred (round_to (precision rt) q)).

Definition fl_opp (x : fl) : fl :=
  match x with
  | Fin q => Fin (Qred (- q))
  | PInf => NInf
  | NInf => PInf
  | NaN => NaN
  end.

Definition fl_add (x y : fl) : fl :=
  match x, y with
  | NaN, _ | _, NaN => NaN
  | Fin a, Fin b => fin (a + b)
  | PInf, NInf | NInf, PInf => NaN
  | PInf, _ | _, PInf => PInf
  | NInf, _ | _, NInf => NInf
  end.

Definition fl_sub (x y : fl) : fl := fl_add x (fl_opp y).

Definition fl_mul (x y : fl) : fl :=
  match x, y with
  | NaN, _ | _, NaN => NaN
  | Fin a, Fin b => fin (a * b)
  | Fin a, PInf | PInf, Fin a => inf_times true a
  | Fin a, NInf | NInf, Fin a => inf_times false a
  | PInf, PInf | NInf, NInf => PInf
  | PInf, NInf | NInf, PInf => NInf
  end.

(** Division as numpy does it on doubles: a finite non-zero number over zero is
    an infinity, zero over zero is [NaN], nothing raises. *)
Definition fl_div (x y : fl) : fl :=
  match x, y with
  | NaN, _ | _, NaN => NaN
  | Fin a, Fin b =>
      if Qeq_bool b 0 then inf_times true a else fin (a / b)
  | Fin _, (PInf | NInf) => Fin 0
  | PInf, Fin b => if Qle_bool 0 b then PInf else NInf
  | NInf, Fin b => if Qle_bool 0 b then NInf else PInf
  | (PInf | NInf), (PInf | NInf) => NaN
  end.

(** [numpy.round(x, decimals)]: [rint(x * 10^decimals) / 10^decimals], the
    product and the quotient being those of doubles; [rint(x)] when there
    are no decimals. *)
Definition fl_round (decimals : nat) (x : fl) : fl :=
  match decimals with
  | O => rint x
  | S _ => fl_div (rint (fl_mul x (Fin (pow10 decimals)))) (Fin (pow10 decimals))
  end.

End Arithmetic.

(** ** Exceptions *)

Inductive exn : Type :=
| KeyError (key : string)
| IndexError
| IntCastingNaNError
| ValueError.

Inductive outcome (A : Type) : Type :=
| Ok (a : A)
| Raise (e : exn).

Arguments Ok {A} a.
Arguments Raise {A} e.

Definition bind {A B} (m : outcome A) (k : A -> outcome B) : outcome B :=
  match m with
  | Ok a => k a
  | Raise e => Raise e
  end.

Notation "x <- m ;; k" := (bind m (fun x => k))
  (at level 61, m at next level, right associativity).

(** A [for] loop whose body may raise, threading the loop's state. *)
Fixpoint for_each {A S} (body : S -> A -> outcome S) (xs : list A) (s : S)
  : outcome S :=
  match xs with
  | [] => Ok s
  | x :: xs' => s' <- body s x ;; for_each body xs' s'
  end.

(** ** pandas *)

Section Pandas.

Context {rt : Runtime}.

(** *** Dictionaries and label-indexed Series

    A Python [dict] with string keys, in insertion order.  Assigning to a
    key that is present replaces the value where it stands; a new key goes to
    the end. *)
Definition dict (V : Type) : Type := list (string * V).

Definition keys {V} (d : dict V) : list string := map fst d.

Definition values {V} (d : dict V) : list V := map snd d.

Fixpoint dict_find {V} (d : dict V) (k : string) : option V :=
  match d with
  | [] => None
  | (k', v) :: d' => if String.eqb k k' then Some v else dict_find d' k
  end.

(** [k in d]. *)
Definition dict_contains {V} (d : dict V) (k : string) : bool :=
  match dict_find d k with Some _ => true | None => false end.

(** [d[k]]. *)
Definition dict_getitem {V} (d : dict V) (k : string) : outcome V :=
  match dict_find d k with
  | Some v => Ok v
  | None => Raise (KeyError k)
  end.

(** [d[k] = v]. *)
Fixpoint dict_setitem {V} (d : dict V) (k : string) (v : V) : dict V :=
  match d with
  | [] => [(k, v)]
  | (k', v') :: d' =>
      if String.eqb k k' then (k, v) :: d' else (k', v') :: dict_setitem d' k v
  end.

(** A Series with string labels; [pd.Series(d)] keeps the order of [d], and
    [s[k]], [k in s] and [s[k] = v] are those of a dictionary. *)
Definition Series : Type := dict fl.

(** [Series.sum()], which skips [NaN] and is 0 on nothing. *)
Definition nansum (xs : list fl) : fl :=
  fold_left fl_add (filter notna xs) (Fin 0).

Definition series_sum (s : Series) : fl := nansum (values s).

Definition series_map (f : fl -> fl) (s : Series) : Series :=
  map (fun kv => (fst kv, f (snd kv))) s.

(** [x / s], [s / x], [s * x] and [s.round(decimals)]. *)
Definition series_rdiv (x : fl) (s : Series) : Series :=
  series_map (fun v => fl_div x v) s.

Definition series_div_scalar (s : Series) (x : fl) : Series :=
  series_map (fun v => fl_div v x) s.

Definition series_mul_scalar (s : Series) (x : fl) : Series :=
  series_map (fun v => fl_mul v x) s.

Definition series_round (decimals : nat) (s : Series) : Series :=
  series_map (fl_round decimals) s.

(** *** Statistics of a column of numbers *)

Definition count (xs : list fl) : nat := List.length (filter notna xs).

(** [mean] with [skipna=True]: the mean of what is present, [NaN] on nothing. *)
Definition nanmean (xs : list fl) : fl :=
  match count xs with
  | O => NaN
  | n => fl_div (nansum xs) (fl_of_nat n)
  end.

(** [var(ddof)] with [skipna=True], as pandas' [nanvar] computes it: [NaN]
    unless more than [ddof] values are present. *)
Definition nanvar (ddof : nat) (xs : list fl) : fl :=
  let n := count xs in
  if (n <=? ddof)%nat then NaN
  else
    let avg := fl_div (nansum xs) (fl_of_nat n) in
    let sqr := map (fun x => let d := fl_sub avg x in fl_mul d d) (filter notna xs) in
    fl_div (fold_left fl_add sqr (Fin 0)) (fl_of_nat (n - ddof)).

(** *** Frames *)

(** A frame of numbers: column labels, and the rows in index order, each
    with its date (a day number) and one cell per column. *)
Record DataFrame : Type := {
  columns : list string;
  rows : list (Z * list fl)
}.

(** Every row has one cell per column. *)
Definition well_formed (df : DataFrame) : Prop :=
  Forall (fun r => List.length (snd r) = List.length (columns df)) (rows df).

Fixpoint zip_with {A B C} (f : A -> B -> C) (xs : list A) (ys : list B) : list C :=
  match xs, ys with
  | x :: xs', y :: ys' => f x y :: zip_with f xs' ys'
  | _, _ => []
  end.

(** The position of a column label. *)
Fixpoint column_pos (cols : list string) (c : string) : option nat :=
  match cols with
  | [] => None
  | c' :: cols' =>
      if String.eqb c c' then Some O
      else match column_pos cols' c with Some i => Some (S i) | None => None end
  end.

(** [c in df.columns]. *)
Definition has_column (df : DataFrame) (c : string) : bool :=
  match column_pos (columns df) c with Some _ => true | None => false end.

(** [df[labels]]: the listed columns in the listed order; a label that is no
    column raises [KeyError]. *)
Fixpoint positions (cols : list string) (labels : list string) : outcome (list nat) :=
  match labels with
  | [] => Ok []
  | c :: labels' =>
      match column_pos cols c with
      | None => Raise (KeyError c)
      | Some i => ps <- positions cols labels' ;; Ok (i :: ps)
      end
  end.

Definition getitem_columns (df : DataFrame) (labels : list string) : outcome DataFrame :=
  ps <- positions (columns df) labels ;;
  Ok {| columns := labels;
        rows := map (fun r => (fst r, map (fun i => nth i (snd r) NaN) ps)) (rows df) |}.

(** [df.ffill()]: a missing cell takes the last value above it, if any. *)
Definition ffill_row (prev cur : list fl) : list fl :=
  zip_with (fun p c => if is_nan c then p else c) prev cur.

Fixpoint ffill_from (prev : list fl) (rs : list (Z * list fl)) : list (Z * list fl) :=
  match rs with
  | [] => []
  | (d, cells) :: rs' =>
      let filled := ffill_row prev cells in
      (d, filled) :: ffill_from filled rs'
  end.

Definition ffill (df : DataFrame) : DataFrame :=
  {| columns := columns df;
     rows := match rows df with
             | [] => []
             | (d, cells) :: rs' => (d, cells) :: ffill_from cells rs'
             end |}.

(** [df.shift(1)]: each row holds the cells of the row before; the first
    row holds [NaN]. *)
Fixpoint shift_from (prev : list fl) (rs : list (Z * list fl)) : list (Z * list fl) :=
  match rs with
  | [] => []
  | (d, cells) :: rs' => (d, prev) :: shift_from cells rs'
  end.

Definition shift (df : DataFrame) : DataFrame :=
  {| columns := columns df;
     rows := match rows df with
             | [] => []
             | (_, cells) :: _ => shift_from (map (fun _ => NaN) cells) (rows df)
             end |}.

(** [a / b] for two frames on the same index and columns, and [a - x]. *)
Definition frame_div (a b : DataFrame) : DataFrame :=
  {| columns := columns a;
     rows := zip_with (fun ra rb => (fst ra, zip_with fl_div (snd ra) (snd rb)))
               (rows a) (rows b) |}.

Definition frame_sub_scalar (a : DataFrame) (x : fl) : DataFrame :=
  {| columns := columns a;
     rows := map (fun r => (fst r, map (fun c => fl_sub c x) (snd r))) (rows a) |}.

(** [df.dropna()], that is [how='any']: a row with a missing cell goes. *)
Definition dropna (df : DataFrame) : DataFrame :=
  {| columns := columns df;
     rows := filter (fun r => forallb notna (snd r)) (rows df) |}.

(** [df.mean(axis=1)]: a date-indexed series of row means. *)
Definition mean_axis1 (df : DataFrame) : list (Z * fl) :=
  map (fun r => (fst r, nanmean (snd r))) (rows df).

(** [df.iloc[-1]]: the last row as a Series over the columns. *)
Definition iloc_last (df : DataFrame) : outcome Series :=
  match rev (rows df) with
  | [] => Raise IndexError
  | r :: _ => Ok (combine (columns df) (snd r))
  end.

(** [s.reindex(labels)], the alignment done by [frame[col] = s]: the value of
    each label, [NaN] for a label [s] does not have. *)
Definition reindex (s : Series) (labels : list string) : Series :=
  map (fun k => (k, match dict_find s k with Some v => v | None => NaN end)) labels.

(** [s.astype(int)] on doubles: a non-finite value raises, a finite one is
    cast. *)
Fixpoint astype_int (xs : list fl) : outcome (list Z) :=
  match xs with
  | [] => Ok []
  | Fin q :: xs' => zs <- astype_int xs' ;; Ok (int64_cast q :: zs)
  | _ :: _ => Raise IntCastingNaNError
  end.

(** [df.take(indexer)]: the rows at the given positions, in that order.  (A
    position outside the frame is passed over; the positions of a sort are
    all inside.) *)
Definition take {A} (l : list A) (indexer : list nat) : list A :=
  flat_map (fun i => match nth_error l i with Some x => [x] | None => [] end)
    indexer.

(** *** The allocation table *)

(** A row of the allocation table; the ticker is the row's index label. *)
Record AllocationRow : Type := {
  ticker : string;
  weight_pct : fl;
  latest_price : fl;
  dollar_allocation : fl;
  shares_to_buy : Z
}.

Fixpoint assemble (index : list string) (weight latest dollar : list fl)
    (shares : list Z) : list AllocationRow :=
  match index, weight, latest, dollar, shares with
  | t :: index', w :: weight', p :: latest', d :: dollar', n :: shares' =>
      {| ticker := t; weight_pct := w; latest_price := p;
         dollar_allocation := d; shares_to_buy := n |}
      :: assemble index' weight' latest' dollar' shares'
  | _, _, _, _, _ => []
  end.

(** The order [sort_values(ascending=False)] has to produce: [x] stands
    before [y] when it is the larger number, or when only [y] is missing
    ([na_position='last']). *)
Definition stands_before (x y : fl) : bool :=
  notna x && (is_nan y || fl_ltb y x).

(** What pandas promises of the positions it sorts by: they are the
    positions of the column, each once, and no key stands after a key it
    has to stand before.  Among equal keys the order is the sort's affair
    (the default, [kind='quicksort'], is not stable in general). *)
Definition sorts_descending (order : list fl -> list nat) : Prop :=
  forall key,
    Permutation (order key) (seq 0 (List.length key)) /\
    StronglySorted
      (fun i j => stands_before (nth j key NaN) (nth i key NaN) = false)
      (order key).

End Pandas.

Section WithRuntime.

Variable rt : Runtime.

(** [numpy.sqrt] on a double. *)
Definition fl_sqrt (x : fl) : fl :=
  match x with
  | Fin q => if Qle_bool 0 q then fin (sqrt_finite rt q) else NaN
  | PInf => PInf
  | NInf | NaN => NaN
  end.

(** [s.std()]: the sample standard deviation ([ddof=1]) of what is present. *)
Definition std (xs : list fl) : fl := fl_sqrt (nanvar 1 xs).

(** [df.pct_change()]: [data / data.shift(1) - 1], on the padded prices when
    the library pads. *)
Definition pct_change (df : DataFrame) : DataFrame :=
  let data := if pct_change_pads rt then ffill df else df in
  frame_sub_scalar (frame_div data (shift data)) (Fin 1).

(** ** The allocator *)

(** [np.sqrt(252)], the annualization factor. *)
Definition annualization : fl := fl_sqrt (Fin 252).

(** The body of the loop of [calculate_theme_volatility] for one theme.  A
    theme none of whose tickers is a column of [returns] is skipped (the
    source prints a warning and goes on to the next theme). *)
Definition theme_volatility_step (returns : DataFrame)
    (theme_volatility : dict fl) (item : string * list string) : outcome (dict fl) :=
  let (theme, tickers) := item in
  let valid_tickers := filter (has_column returns) tickers in
  match valid_tickers with
  | [] => Ok theme_volatility
  | _ :: _ =>
      selected <- getitem_columns returns valid_tickers ;;
      let theme_returns := mean_axis1 selected in
      Ok (dict_setitem theme_volatility theme
            (fl_mul (std (map snd theme_returns)) annualization))
  end.

Definition calculate_theme_volatility (price_data : DataFrame)
    (theme_groups : dict (list string)) : outcome Series :=
  let returns := dropna (pct_change price_data) in
  for_each (theme_volatility_step returns) theme_groups [].

(** [if theme in conviction_multipliers: inverse_vol[theme] *= ...]; the loop
    runs when [if conviction_multipliers:] holds, which [None] and the empty
    dictionary do not. *)
Definition conviction_step (conviction_multipliers : dict fl)
    (inverse_vol : Series) (theme : string) : outcome Series :=
  if dict_contains conviction_multipliers theme then
    v <- dict_getitem inverse_vol theme ;;
    m <- dict_getitem conviction_multipliers theme ;;
    Ok (dict_setitem inverse_vol theme (fl_mul v m))
  else Ok inverse_vol.

Definition apply_conviction (conviction_multipliers : option (dict fl))
    (inverse_vol : Series) : outcome Series :=
  match conviction_multipliers with
  | None | Some [] => Ok inverse_vol
  | Some cm => for_each (conviction_step cm) (keys inverse_vol) inverse_vol
  end.

(** The body of the loop that splits a theme's weight over its tickers. *)
Definition ticker_weights_step (theme_weights : Series)
    (ticker_weights : dict fl) (item : string * list string) : outcome (dict fl) :=
  let (theme, tickers) := item in
  if dict_contains theme_weights theme then
    theme_weight <- dict_getitem theme_weights theme ;;
    let ticker_weight := fl_div theme_weight (fl_of_nat (List.length tickers)) in
    Ok (fold_left (fun d ticker => dict_setitem d ticker ticker_weight)
          tickers ticker_weights)
  else Ok ticker_weights.

(** Returns [(ticker_weights, theme_weights, theme_volatility)]. *)
Definition calculate_weights (theme_groups : dict (list string))
    (price_data : DataFrame) (conviction_multipliers : option (dict fl))
  : outcome (Series * Series * Series) :=
  theme_volatility <- calculate_theme_volatility price_data theme_groups ;;
  let inverse_vol := series_rdiv (Fin 1) theme_volatility in
  inverse_vol <- apply_conviction conviction_multipliers inverse_vol ;;
  let theme_weights := series_div_scalar inverse_vol (series_sum inverse_vol) in
  ticker_weights <- for_each (ticker_weights_step theme_weights) theme_groups [] ;;
  Ok (ticker_weights, theme_weights, theme_volatility).

(** [allocation.sort_values('Weight %', ascending=False)]. *)
Definition sort_values_desc (allocation : list AllocationRow) : list AllocationRow :=
  take allocation (sort_order rt (map weight_pct allocation)).

(** The columns are computed on the index of [ticker_weights], whose labels
    are distinct (it is built from a dictionary).  On an empty index the
    frame takes the index of the first column that is not empty, the latest
    prices; the weights and the dollars are then missing on every row, in
    columns of dtype [object] (that of an empty [pd.Series]), on which
    [astype(int)] is Python's [int] and raises [ValueError]. *)
Definition calculate_allocation (ticker_weights : Series) (price_data : DataFrame)
    (portfolio_value : fl) : outcome (list AllocationRow) :=
  latest_prices <- iloc_last price_data ;;
  match ticker_weights, latest_prices with
  | [], _ :: _ => Raise ValueError
  | _, _ =>
      let index := keys ticker_weights in
      let weight :=
        values (series_round 2 (series_mul_scalar ticker_weights (Fin 100))) in
      let latest := values (reindex (series_round 2 latest_prices) index) in
      let dollar :=
        values (series_round 2 (series_mul_scalar ticker_weights portfolio_value)) in
      (shares <- astype_int (map (fl_round 0) (zip_with fl_div dollar latest)) ;;
       Ok (sort_values_desc (assemble index weight latest dollar shares)))
  end.

End WithRuntime.

(** ** Runtimes to compute with

    [sqrt_fixed] is the square root cut to 32 binary places; it is exact on
    0 and on the squares it can represent.  [sqrt_fine] gives the square
    root itself when it is rational and otherwise a number so close to it,
    beyond its 64th bit, that both round to the same double.
    [stable_order] sorts the positions by insertion and leaves equal keys in
    the order of the column, which is what numpy's default sort does on a
    column of a few rows.  The general theorems below hold for every
    runtime.  [padding_runtime] and [plain_runtime] compute without
    rounding and serve the worked examples; [double_runtime] computes as the
    code does, in binary64. *)
Definition sqrt_fixed (q : Q) : Q :=
  Z.sqrt (Qnum q * 4 ^ 32 / Zpos (Qden q)) # (2 ^ 32).

Definition sqrt_fine (q : Q) : Q :=
  if Qle_bool q 0 then 0
  else
    let k := Z.max 0 (66 - binade q / 2) in
    let scaled := q * inject_Z (4 ^ k) in
    let r := Z.sqrt (Qfloor scaled) in
    if Qeq_bool (inject_Z (r * r)) scaled
    then inject_Z r / inject_Z (2 ^ k)
    else inject_Z (2 * r + 1) / inject_Z (2 ^ (k + 1)).

Fixpoint insert_index (key : list fl) (i : nat) (sorted : list nat) : list nat :=
  match sorted with
  | [] => [i]
  | j :: sorted' =>
      if stands_before (nth j key NaN) (nth i key NaN)
      then j :: insert_index key i sorted'
      else i :: sorted
  end.

Definition stable_order (key : list fl) : list nat :=
  fold_right (insert_index key) [] (seq 0 (List.length key)).

Definition padding_runtime : Runtime :=
  {| sqrt_finite := sqrt_fixed; pct_change_pads := true;
     sort_order := stable_order; precision := None |}.

Definition plain_runtime : Runtime :=
  {| sqrt_finite := sqrt_fixed; pct_change_pads := false;
     sort_order := stable_order; precision := None |}.

Definition double_runtime : Runtime :=
  {| sqrt_finite := sqrt_fine; pct_change_pads := true;
     sort_order := stable_order; precision := Some 53%positive |}.

(** ** Vocabulary of the statements *)

Section Vocabulary.

Context {rt : Runtime}.

(** A finite, strictly positive number. *)
Definition positive (x : fl) : Prop := exists q, x = Fin q /\ 0 < q.

(** A finite number between [2^-200] and [2^200].  The inverse of such a
    double, its product with another one, a sum of such products and their
    quotients are far from the largest and from the smallest double, so
    none of them overflows or loses digits to underflow. *)
Definition moderate (x : fl) : Prop :=
  exists q, x = Fin q /\ 2 ^ (-200) <= q /\ q <= 2 ^ 200.

(** The relative error that rounding can leave in [n] numbers divided by
    their sum: two unit roundoffs for each of them and for the division
    (for doubles, [(n + 1) * 2^-52]). *)
Definition tolerance (n : nat) : Q :=
  2 * (inject_Z (Z.of_nat n) + 1) * unit_roundoff (precision rt).

(** The entry of a theme in the optional multiplier dictionary. *)
Definition entry (conviction_multipliers : option (dict fl)) (theme : string)
  : option fl :=
  match conviction_multipliers with
  | Some cm => dict_find cm theme
  | None => None
  end.

(** The factor a theme's inverse volatility is scaled by: its entry, 1.0
    when it has none. *)
Definition multiplier (conviction_multipliers : option (dict fl)) (theme : string)
  : fl :=
  match entry conviction_multipliers theme with
  | Some m => m
  | None => Fin 1
  end.

(** The inverse volatility of a theme after the multiplier loop. *)
Definition adjusted (conviction_multipliers : option (dict fl)) (theme : string)
    (volatility : fl) : fl :=
  match entry conviction_multipliers theme with
  | Some m => fl_mul (fl_div (Fin 1) volatility) m
  | None => fl_div (Fin 1) volatility
  end.

(** Rounding half up, the rule the specification asks for. *)
Definition round_half_up (q : Q) : Z := Qfloor (q + (1 # 2)).

(** What one theme writes into the ticker weights. *)
Definition spread (ticker_weight : fl) (tickers : list string) (d : dict fl) : dict fl :=
  fold_left (fun d ticker => dict_setitem d ticker ticker_weight) tickers d.

(** What [ticker_weights_step] returns: nothing changes for a theme without
    a weight. *)
Definition split_theme (theme_weights : Series) (d : dict fl)
    (item : string * list string) : dict fl :=
  match dict_find theme_weights (fst item) with
  | Some w => spread (fl_div w (fl_of_nat (List.length (snd item)))) (snd item) d
  | None => d
  end.

(** The value of [theme] after the loop over a dictionary of multipliers. *)
Definition scale (cm : dict fl) (kv : string * fl) : string * fl :=
  (fst kv, match dict_find cm (fst kv) with
           | Some m => fl_mul (snd kv) m
           | None => snd kv
           end).

(** The inverse volatilities after the multiplier loop, theme by theme. *)
Definition adjusted_inverse (conviction_multipliers : option (dict fl))
    (theme_volatility : Series) : Series :=
  map (fun kv => (fst kv, adjusted conviction_multipliers (fst kv) (snd kv)))
    theme_volatility.

(** The weights of the themes, from their volatilities. *)
Definition normalized (conviction_multipliers : option (dict fl))
    (theme_volatility : Series) : Series :=
  series_div_scalar (adjusted_inverse conviction_multipliers theme_volatility)
    (series_sum (adjusted_inverse conviction_multipliers theme_volatility)).

(** The adjusted inverse of a theme is the positive number [a], a number
    of the runtime's precision. *)
Definition adjusted_to (conviction_multipliers : option (dict fl))
    (kv : string * fl) (a : Q) : Prop :=
  adjusted conviction_multipliers (fst kv) (snd kv) = Fin a /\ 0 < a /\
  round_to (precision rt) a == a.

(** The sum of a list of rationals. *)
Definition Qsum (qs : list Q) : Q := fold_right Qplus 0 qs.

(** The tickers of a list that have a column of prices. *)
Definition priced (price_data : DataFrame) (tickers : list string) : list string :=
  filter (has_column price_data) tickers.

(** The rational a finite number stands for. *)
Definition Qval (x : fl) : Q :=
  match x with Fin q => q | _ => 0 end.

(** The infinity of a given sign. *)
Definition infinity (positive_sign : bool) : fl :=
  if positive_sign then PInf else NInf.

(** The cell of row [t] and column [j]; [NaN] outside the frame. *)
Definition cell (df : DataFrame) (t j : nat) : fl :=
  nth j (snd (nth t (rows df) (0%Z, []))) NaN.

(** The returns of the rows [rs] that follow a row with cells [prev]. *)
Fixpoint returns_from (prev : list fl) (rs : list (Z * list fl)) : list (Z * list fl) :=
  match rs with
  | [] => []
  | (d, cells) :: rs' =>
      (d, map (fun c => fl_sub c (Fin 1)) (zip_with fl_div cells prev))
      :: returns_from cells rs'
  end.

(** The price of a ticker in the frame's column [Latest Price]: the rounded
    last price, [NaN] for a ticker the last row does not have. *)
Definition price_of (latest_prices : Series) (t : string) : fl :=
  match dict_find (series_round 2 latest_prices) t with
  | Some v => v
  | None => NaN
  end.

(** The cell of a weight in the column [Dollar Allocation]. *)
Definition dollars_of (portfolio_value : fl) (weight : fl) : fl :=
  fl_round 2 (fl_mul weight portfolio_value).

(** The share count of a ticker before the cast to an integer. *)
Definition share_count (latest_prices : Series) (portfolio_value : fl)
    (kv : string * fl) : fl :=
  fl_round 0 (fl_div (dollars_of portfolio_value (snd kv))
                     (price_of latest_prices (fst kv))).

(** The row of a ticker with weight [snd kv], given its share count. *)
Definition draft_row (latest_prices : Series) (portfolio_value : fl)
    (kv : string * fl) (n : Z) : AllocationRow :=
  {| ticker := fst kv;
     weight_pct := fl_round 2 (fl_mul (snd kv) (Fin 100));
     latest_price := price_of latest_prices (fst kv);
     dollar_allocation := dollars_of portfolio_value (snd kv);
     shares_to_buy := n |}.

(** What the cast makes of a column. *)
Definition cast_of (x : fl) (z : Z) : Prop :=
  exists q, x = Fin q /\ z = int64_cast q.

(** The key at position [j] has no claim to stand before the key at [i]. *)
Definition key_order (key : list fl) (i j : nat) : Prop :=
  stands_before (nth j key NaN) (nth i key NaN) = false.

(** Every value is missing. *)
Definition all_nan (d : dict fl) : Prop := forall k v, In (k, v) d -> v = NaN.

End Vocabulary.

(** The prices [pct_change] divides: padded or as they are. *)
Definition padded (rt : Runtime) (df : DataFrame) : DataFrame :=
  if pct_change_pads rt then ffill df else df.

(** *** Data for the worked examples *)

Local Open Scope string_scope.

(** Three tickers over three days. *)
Definition example_prices : DataFrame :=
  {| columns := ["X"; "Y"; "Z"];
     rows := [(1%Z, [Fin 100; Fin 50; Fin 10]);
              (2%Z, [Fin 110; Fin 50; Fin 11]);
              (3%Z, [Fin 99; Fin 55; Fin 11])] |}.

(** Theme C lists a ticker without prices. *)
Definition example_groups : dict (list string) :=
  [("A", ["X"; "Y"]); ("B", ["Z"]); ("C", ["Q"])].

(** The volatilities of [example_groups], computed. *)
Definition example_volatility : Series :=
  Eval vm_compute in
    match calculate_theme_volatility padding_runtime example_prices example_groups with
    | Ok tv => tv
    | Raise _ => []
    end.

(** The price of X never moves: theme A has volatility 0. *)
Definition flat_prices : DataFrame :=
  {| columns := ["X"; "Z"];
     rows := [(1%Z, [Fin 10; Fin 10]);
              (2%Z, [Fin 10; Fin 11]);
              (3%Z, [Fin 10; Fin 11])] |}.

(** One theme per ticker of [flat_prices]. *)
Definition flat_groups : dict (list string) := [("A", ["X"]); ("B", ["Z"])].

(** The volatilities of [flat_groups], computed: 0 for theme A. *)
Definition flat_volatility : Series :=
  Eval vm_compute in
    match calculate_theme_volatility padding_runtime flat_prices flat_groups with
    | Ok tv => tv
    | Raise _ => []
    end.

(** A single day of prices. *)
Definition single_row : DataFrame :=
  {| columns := ["X"; "Z"]; rows := [(1%Z, [Fin 10; Fin 10])] |}.

(** B is listed from the third day on. *)
Definition late_listing : DataFrame :=
  {| columns := ["A"; "B"];
     rows := [(1%Z, [Fin 100; NaN]);
              (2%Z, [Fin 110; NaN]);
              (3%Z, [Fin 121; Fin 50])] |}.

(** The volatilities of [example_groups] in doubles, computed. *)
Definition double_volatility : Series :=
  Eval vm_compute in
    match calculate_theme_volatility double_runtime example_prices example_groups with
    | Ok tv => tv
    | Raise _ => []
    end.

(** The double that a decimal literal stands for. *)
Definition double (q : Q) : fl := Fin (Qred (round_bits 53 q)).

(** Ticker Y is listed by two themes, theme C lists a ticker without
    prices. *)
Definition overlapping_groups : dict (list string) :=
  [("A", ["X"; "Y"]); ("B", ["Y"; "Z"]); ("C", ["Q"])].

(** Multipliers for the two themes of [example_groups] that survive: 1.0
    for both, 0.0 for both, the next double after 1.0 for theme A, and 2.0
    for theme A. *)
Definition unit_multipliers : option (dict fl) :=
  Some [("A", Fin 1); ("B", Fin 1)].

Definition zero_multipliers : option (dict fl) :=
  Some [("A", Fin 0); ("B", Fin 0)].



(** 25 dollars at a price of 10: 2.5 shares before rounding. *)
Definition half_share_row : AllocationRow :=
  {| ticker := "X"; weight_pct := Fin 25; latest_price := Fin 10;
     dollar_allocation := Fin 25; shares_to_buy := 2 |}.

(** Two rows of equal weight, B entered first. *)
Definition tied_rows : list AllocationRow :=
  [{| ticker := "B"; weight_pct := Fin 50; latest_price := Fin 25;
      dollar_allocation := Fin 50; shares_to_buy := 2 |};
   {| ticker := "A"; weight_pct := Fin 50; latest_price := Fin 10;
      dollar_allocation := Fin 50; shares_to_buy := 5 |}].

Local Close Scope string_scope.

(** ** Vocabulary of the further properties *)

(** A theme survives the volatility estimation when one of its tickers has
    a column of prices. *)
Definition survives (price_data : DataFrame) (item : string * list string) : bool :=
  match priced price_data (snd item) with
  | [] => false
  | _ :: _ => true
  end.

(** The themes with their tickers that have prices. *)
Definition priced_groups (price_data : DataFrame) (theme_groups : dict (list string))
  : dict (list string) :=
  map (fun item => (fst item, priced price_data (snd item))) theme_groups.

(** Not a negative number: missing, plus infinity, or a finite number that
    is zero or more. *)
Definition not_negative (x : fl) : Prop :=
  x = NaN \/ x = PInf \/ exists q, x = Fin q /\ 0 <= q.

(** The square root of the runtime is not negative. *)
Definition nonnegative_root (rt : Runtime) : Prop :=
  forall q, 0 <= q -> 0 <= sqrt_finite rt q.

(** A price a dollar amount can be divided by with a finite result: it is
    present and, rounded to cents, not zero. *)
Definition quotable (price : fl) : bool :=
  match price with
  | Fin q => negb (Qeq_bool q 0)
  | PInf | NInf => true
  | NaN => false
  end.

(** *** The download and the driver

    [yf.download] is the outside world: what it returns is a parameter.  The
    code tells two shapes apart: columns in two levels, (field, ticker), and
    columns in one level, a field each, for a single ticker.  Of a download
    in two levels the code reads [data.columns.levels[0]], the values of the
    first level, which can list a field that no column has, and [data[field]],
    the table of the columns of a field.  The order in which [list(set(...))]
    lists the tickers is a parameter as well. *)
Inductive Download : Type :=
| TwoLevels (first_level : list string) (fields : dict DataFrame)
| OneLevel (fields : dict (list (Z * fl))).

Record World : Type := {
  download : list string -> Download;
  list_of_set : list string -> list string
}.

(** [data['Adj Close']] when [listed] says that the download has that
    field, [data['Close']] otherwise. *)
Definition closing_prices {V} (listed : bool) (fields : dict V) : outcome V :=
  if listed
  then dict_getitem fields "Adj Close"%string
  else dict_getitem fields "Close"%string.

(** The prices of a single ticker, a series over the dates, become a table
    of one column named after the first ticker asked for. *)
Definition fetch_historical_data (w : World) (tickers : list string)
  : outcome DataFrame :=
  match download w tickers with
  | TwoLevels first_level fields =>
      closing_prices (existsb (String.eqb "Adj Close"%string) first_level) fields
  | OneLevel fields =>
      price_data <-
        closing_prices (dict_contains fields "Adj Close"%string) fields ;;
      first <- match tickers with
               | t :: _ => Ok t
               | [] => Raise IndexError
               end ;;
      Ok {| columns := [first];
            rows := map (fun r => (fst r, [snd r])) price_data |}
  end.

(** A row of the theme summary; the theme is the row's index label. *)
Record SummaryRow : Type := {
  summary_theme : string;
  summary_volatility : fl;
  summary_weight_pct : fl
}.

(** [pd.DataFrame({'Volatility': ..., 'Weight %': ...})]: the two series
    have the same index, that of the volatilities, and the frame keeps it. *)
Definition theme_summary {rt : Runtime} (theme_volatility theme_weights : Series)
  : list SummaryRow :=
  map (fun kv =>
         {| summary_theme := fst kv;
            summary_volatility := snd kv;
            summary_weight_pct :=
              match dict_find
                      (series_round 2 (series_mul_scalar theme_weights (Fin 100)))
                      (fst kv) with
              | Some v => v
              | None => NaN
              end |})
    theme_volatility.

(** [portfolio_allocator] with [show_plot] left at its default: the tables
    are computed before the chart is drawn, and the chart is not modelled. *)
Definition all_tickers (w : World) (theme_groups : dict (list string))
  : list string :=
  list_of_set w (List.concat (values theme_groups)).

Definition portfolio_allocator (rt : Runtime) (w : World)
    (theme_groups : dict (list string)) (portfolio_value : fl)
    (conviction_multipliers : option (dict fl))
  : outcome (list AllocationRow * list SummaryRow) :=
  price_data <- fetch_historical_data w (all_tickers w theme_groups) ;;
  weights <- calculate_weights rt theme_groups price_data conviction_multipliers ;;
  let '(ticker_weights, theme_weights, theme_volatility) := weights in
  allocation <- calculate_allocation rt ticker_weights price_data portfolio_value ;;
  Ok (allocation, theme_summary theme_volatility theme_weights).

(** What the test for the field [Adj Close] finds in a download. *)
Definition lists_adjusted (d : Download) : bool :=
  match d with
  | TwoLevels first_level _ => existsb (String.eqb "Adj Close"%string) first_level
  | OneLevel fields => dict_contains fields "Adj Close"%string
  end.

(** Whether a download has columns for a field. *)
Definition has_field (d : Download) (field : string) : bool :=
  match d with
  | TwoLevels _ fields => dict_contains fields field
  | OneLevel fields => dict_contains fields field
  end.

(** *** Data for the further examples *)

Local Open Scope string_scope.

(** A download in two levels with the field [Close] only. *)
Definition example_world : World :=
  {| download := fun _ => TwoLevels ["Close"] [("Close", example_prices)];
     list_of_set := nodup string_dec |}.

(** Theme A lists a ticker with prices and one without. *)
Definition mixed_groups : dict (list string) := [("A", ["X"; "Q"])].

(** The tables of a run on [example_groups], computed. *)
Definition example_run : list AllocationRow * list SummaryRow :=
  Eval vm_compute in
    match portfolio_allocator padding_runtime example_world example_groups
            (Fin 1000) None with
    | Ok tables => tables
    | Raise _ => ([], [])
    end.

(** A price of 0.4 cents. *)
Definition penny_prices : DataFrame :=
  {| columns := ["X"]; rows := [(1%Z, [Fin (1 # 250)])] |}.

Local Close Scope string_scope.

(** *** Two days of prices *)

Definition two_days : DataFrame :=
  {| columns := ["X"%string; "Z"%string];
     rows := [(1%Z, [Fin 10; Fin 10]); (2%Z, [Fin 11; Fin 12])] |}.

(** ** Basic facts *)

(** *** Rounding

    Rounding half to even is monotone, keeps the integers and moves a
    number by half a unit at most; rounding to a precision is monotone,
    keeps the numbers of that precision, and its relative error is at most
    the unit roundoff. *)

Lemma Qfloor_bounds x : inject_Z (Qfloor x) <= x /\ x < inject_Z (Qfloor x) + 1.
Proof.
  split; [apply Qfloor_le|].
  pose proof (Qlt_floor x) as H. rewrite inject_Z_plus in H. exact H.
Qed.

Lemma round_half_even_near x : Qabs (inject_Z (round_half_even x) - x) <= 1 # 2.
Proof.
  destruct (Qfloor_bounds x) as [Hl Hu]. unfold round_half_even. cbv zeta.
  apply Qabs_Qle_condition.
  destruct (Qcompare_spec (x - inject_Z (Qfloor x)) (1 # 2)) as [E|E|E].
  - destruct (Z.even (Qfloor x)); rewrite ?inject_Z_plus;
      change (inject_Z 1) with 1; split; lra.
  - split; lra.
  - rewrite inject_Z_plus. change (inject_Z 1) with 1. split; lra.
Qed.

Lemma round_half_even_integer z : round_half_even (inject_Z z) = z.
Proof.
  unfold round_half_even. cbv zeta. rewrite Qfloor_Z.
  destruct (Qcompare_spec (inject_Z z - inject_Z z) (1 # 2)) as [E|E|E];
    [lra | reflexivity | lra].
Qed.

Lemma round_half_even_compat p q : p == q -> round_half_even p = round_half_even q.
Proof.
  intros E. unfold round_half_even.
  assert (Hf : Qfloor p = Qfloor q) by now apply Qfloor_comp.
  assert (Hc : Qcompare (p - inject_Z (Qfloor p)) (1 # 2)
               = Qcompare (q - inject_Z (Qfloor q)) (1 # 2)).
  { apply Qcompare_comp; [|reflexivity]. rewrite Hf. now rewrite E. }
  cbv zeta. now rewrite Hc, Hf.
Qed.

Lemma round_half_even_monotone x y :
  x <= y -> (round_half_even x <= round_half_even y)%Z.
Proof.
  intros Hxy.
  destruct (Qfloor_bounds x) as [Hxl Hxu]. destruct (Qfloor_bounds y) as [Hyl Hyu].
  assert (Hf : (Qfloor x <= Qfloor y)%Z) by now apply Qfloor_resp_le.
  assert (Hx : (Qfloor x <= round_half_even x <= Qfloor x + 1)%Z).
  { unfold round_half_even. cbv zeta.
    destruct (Qcompare (x - inject_Z (Qfloor x)) (1 # 2)); [destruct (Z.even _)| |]; lia. }
  assert (Hy : (Qfloor y <= round_half_even y <= Qfloor y + 1)%Z).
  { unfold round_half_even. cbv zeta.
    destruct (Qcompare (y - inject_Z (Qfloor y)) (1 # 2)); [destruct (Z.even _)| |]; lia. }
  destruct (Z.eq_dec (Qfloor x) (Qfloor y)) as [E|Hne]; [|lia].
  unfold round_half_even. cbv zeta. rewrite <- E.
  destruct (Qcompare_spec (x - inject_Z (Qfloor x)) (1 # 2)) as [Ex|Ex|Ex];
  destruct (Qcompare_spec (y - inject_Z (Qfloor x)) (1 # 2)) as [Ey|Ey|Ey];
    try destruct (Z.even (Qfloor x)); try lia; lra.
Qed.

Lemma pow2_pos k : 0 < 2 ^ k.
Proof. apply Qpower_0_lt. reflexivity. Qed.

Lemma pow2_succ k : 2 ^ (k + 1) == 2 * 2 ^ k.
Proof. rewrite Qpower_plus by discriminate. change (2 ^ 1) with 2. ring. Qed.

Lemma pow2_Z a : (0 <= a)%Z -> inject_Z (2 ^ a) == 2 ^ a.
Proof. intros H. now rewrite Zpower_Qpower. Qed.

Lemma binade_spec q : 0 < q -> 2 ^ binade q <= q /\ q < 2 ^ (binade q + 1).
Proof.
  intros Hq. destruct q as [n d]. unfold binade. cbn [Qnum Qden].
  assert (Hn : (0 < n)%Z).
  { unfold Qlt in Hq. cbn in Hq. lia. }
  set (a := Z.log2 n). set (b := Z.log2 (Z.pos d)).
  destruct (Z.log2_spec n Hn) as [Hal Hau]. fold a in Hal, Hau.
  destruct (Z.log2_spec (Z.pos d) eq_refl) as [Hbl Hbu]. fold b in Hbl, Hbu.
  assert (Ha0 : (0 <= a)%Z) by apply Z.log2_nonneg.
  assert (Hb0 : (0 <= b)%Z) by apply Z.log2_nonneg.
  assert (HA : 2 ^ a <= inject_Z n /\ inject_Z n < 2 * 2 ^ a).
  { rewrite <- pow2_succ, <- !pow2_Z by lia. rewrite <- Zle_Qle, <- Zlt_Qlt.
    replace (a + 1)%Z with (Z.succ a) by lia. now split. }
  assert (HB : 2 ^ b <= inject_Z (Z.pos d) /\ inject_Z (Z.pos d) < 2 * 2 ^ b).
  { rewrite <- pow2_succ, <- !pow2_Z by lia. rewrite <- Zle_Qle, <- Zlt_Qlt.
    replace (b + 1)%Z with (Z.succ b) by lia. now split. }
  assert (Eq : n # d == inject_Z n / inject_Z (Z.pos d)) by apply Qmake_Qdiv.
  assert (Ec : 2 ^ (a - b) == 2 ^ a / 2 ^ b) by (apply Qpower_minus; discriminate).
  pose proof (pow2_pos a) as Pa. pose proof (pow2_pos b) as Pb.
  assert (PD : 0 < inject_Z (Z.pos d)) by lra.
  destruct (Qle_bool (2 ^ (a - b)) (n # d)) eqn:E.
  - apply Qle_bool_iff in E. split; [exact E|].
    rewrite pow2_succ, Ec, Eq.
    apply Qlt_shift_div_r; [exact PD|].
    setoid_replace (2 * (2 ^ a / 2 ^ b) * inject_Z (Z.pos d))
      with (2 * 2 ^ a * (inject_Z (Z.pos d) / 2 ^ b)) by (field; lra).
    assert (1 <= inject_Z (Z.pos d) / 2 ^ b) by (apply Qle_shift_div_l; lra).
    assert (0 < 2 * 2 ^ a) by lra. nra.
  - assert (Hlt : n # d < 2 ^ (a - b)).
    { apply Qnot_le_lt. intros H. apply Qle_bool_iff in H. congruence. }
    split.
    + replace (a - b - 1)%Z with (a - (b + 1))%Z by lia.
      rewrite Qpower_minus by discriminate. rewrite pow2_succ, Eq.
      apply Qle_shift_div_l; [exact PD|].
      setoid_replace (2 ^ a / (2 * 2 ^ b) * inject_Z (Z.pos d))
        with (2 ^ a * (inject_Z (Z.pos d) / (2 * 2 ^ b))) by (field; lra).
      assert (inject_Z (Z.pos d) / (2 * 2 ^ b) <= 1) by (apply Qle_shift_div_r; lra).
      nra.
    + replace (a - b - 1 + 1)%Z with (a - b)%Z by lia. exact Hlt.
Qed.


Lemma binade_unique q e : 0 < q -> 2 ^ e <= q -> q < 2 ^ (e + 1) -> binade q = e.
Proof.
  intros Hq Hl Hu. destruct (binade_spec q Hq) as [Bl Bu].
  assert (H1 : (binade q < e + 1)%Z).
  { apply (Qpower_lt_compat_l_inv 2); [|reflexivity]. lra. }
  assert (H2 : (e < binade q + 1)%Z).
  { apply (Qpower_lt_compat_l_inv 2); [|reflexivity]. lra. }
  lia.
Qed.

Lemma binade_compat p q : 0 < p -> p == q -> binade p = binade q.
Proof.
  intros Hp E. assert (Hq : 0 < q) by now rewrite <- E.
  destruct (binade_spec q Hq) as [Bl Bu].
  apply binade_unique; [assumption | now rewrite E | now rewrite E].
Qed.

Lemma binade_monotone p q : 0 < p -> p <= q -> (binade p <= binade q)%Z.
Proof.
  intros Hp Hpq. assert (Hq : 0 < q) by lra.
  destruct (binade_spec p Hp) as [Pl Pu]. destruct (binade_spec q Hq) as [Ql Qu].
  assert (H : (binade p < binade q + 1)%Z).
  { apply (Qpower_lt_compat_l_inv 2); [|reflexivity]. lra. }
  lia.
Qed.

Section Precision.

Variable bits : BinNums.positive.

Let low : Z := (2 ^ (Zpos bits - 1))%Z.
Let high : Z := (2 ^ Zpos bits)%Z.

Lemma low_pow : inject_Z low == 2 ^ (Zpos bits - 1).
Proof. apply pow2_Z. lia. Qed.

Lemma high_pow : inject_Z high == 2 ^ Zpos bits.
Proof. apply pow2_Z. lia. Qed.

Lemma low_positive : (0 < low)%Z.
Proof. apply Z.pow_pos_nonneg; lia. Qed.

Lemma high_double : high = (2 * low)%Z.
Proof.
  unfold high, low. rewrite <- Z.pow_succ_r by lia. f_equal. lia.
Qed.

(** The scaled value lies in [2^(bits-1), 2^bits). *)
Lemma scaled_range q :
  0 < q ->
  inject_Z low <= q / 2 ^ (binade q - (Zpos bits - 1)) /\
  q / 2 ^ (binade q - (Zpos bits - 1)) < inject_Z high.
Proof.
  intros Hq. destruct (binade_spec q Hq) as [Bl Bu].
  pose proof (pow2_pos (binade q - (Zpos bits - 1))) as Ps.
  assert (E1 : 2 ^ binade q
               == 2 ^ (Zpos bits - 1) * 2 ^ (binade q - (Zpos bits - 1))).
  { rewrite <- Qpower_plus by discriminate. apply Qpower_comp; [reflexivity | lia]. }
  assert (E2 : 2 ^ (binade q + 1)
               == 2 ^ Zpos bits * 2 ^ (binade q - (Zpos bits - 1))).
  { rewrite <- Qpower_plus by discriminate. apply Qpower_comp; [reflexivity | lia]. }
  rewrite low_pow, high_pow. split.
  - apply Qle_shift_div_l; [exact Ps|]. now rewrite <- E1.
  - apply Qlt_shift_div_r; [exact Ps|]. now rewrite <- E2.
Qed.

Lemma rounded_range q :
  0 < q ->
  (low <= round_half_even (q / 2 ^ (binade q - (Zpos bits - 1))) <= high)%Z.
Proof.
  intros Hq. destruct (scaled_range q Hq) as [Hl Hu].
  rewrite <- (round_half_even_integer low), <- (round_half_even_integer high).
  split; apply round_half_even_monotone; lra.
Qed.

Lemma round_pos_positive q : 0 < q -> 0 < round_pos bits q.
Proof.
  intros Hq. unfold round_pos. cbv zeta.
  pose proof (rounded_range q Hq) as [Hl _].
  pose proof (pow2_pos (binade q - (Zpos bits - 1))) as Ps.
  apply Qmult_lt_0_compat; [|exact Ps].
  change 0 with (inject_Z 0). rewrite <- Zlt_Qlt. pose proof low_positive. lia.
Qed.

Lemma round_pos_compat p q : 0 < p -> p == q -> round_pos bits p == round_pos bits q.
Proof.
  intros Hp E. unfold round_pos. cbv zeta.
  rewrite (binade_compat p q Hp E).
  rewrite (round_half_even_compat (p / 2 ^ (binade q - (Zpos bits - 1)))
             (q / 2 ^ (binade q - (Zpos bits - 1))))
    by now rewrite E.
  reflexivity.
Qed.

Lemma roundoff_pow : (1 # 2 ^ bits) == / (2 * inject_Z low).
Proof.
  rewrite <- inject_Z_mult with (x := 2%Z), <- high_double.
  unfold high. rewrite <- Pos2Z.inj_pow. reflexivity.
Qed.

Lemma round_pos_accurate q :
  0 < q -> Qabs (round_pos bits q - q) <= (1 # 2 ^ bits) * q.
Proof.
  intros Hq. unfold round_pos. cbv zeta.
  set (s := 2 ^ (binade q - (Zpos bits - 1))).
  pose proof (pow2_pos (binade q - (Zpos bits - 1))) as Ps. fold s in Ps.
  destruct (scaled_range q Hq) as [Hl _]. fold s in Hl.
  pose proof (round_half_even_near (q / s)) as Hn.
  set (R := inject_Z (round_half_even (q / s))) in *.
  setoid_replace (R * s - q) with ((R - q / s) * s) by (field; lra).
  rewrite Qabs_Qmult, (Qabs_pos s) by lra.
  assert (HL : 0 < inject_Z low).
  { change 0 with (inject_Z 0). rewrite <- Zlt_Qlt. apply low_positive. }
  assert (H4 : inject_Z low * s <= q).
  { setoid_replace q with (q / s * s) by (field; lra).
    apply Qmult_le_compat_r; [exact Hl | lra]. }
  assert (H5 : Qabs (R - q / s) * s <= (1 # 2) * s).
  { apply Qmult_le_compat_r; [exact Hn | lra]. }
  rewrite roundoff_pow.
  apply Qle_trans with ((1 # 2) * s); [exact H5|].
  apply Qle_trans with (/ (2 * inject_Z low) * (inject_Z low * s)).
  - apply Qle_lteq. right. field. lra.
  - apply Qmult_le_l; [apply Qinv_lt_0_compat; lra | exact H4].
Qed.

Lemma round_pos_monotone p q :
  0 < p -> p <= q -> round_pos bits p <= round_pos bits q.
Proof.
  intros Hp Hpq. assert (Hq : 0 < q) by lra.
  pose proof (binade_monotone p q Hp Hpq) as He.
  unfold round_pos. cbv zeta.
  pose proof (rounded_range p Hp) as [_ Pu].
  pose proof (rounded_range q Hq) as [Ql _].
  pose proof (pow2_pos (binade p - (Zpos bits - 1))) as Psp.
  pose proof (pow2_pos (binade q - (Zpos bits - 1))) as Psq.
  destruct (Z.eq_dec (binade p) (binade q)) as [E|Hne].
  - rewrite E. apply Qmult_le_compat_r; [|lra].
    rewrite <- Zle_Qle. apply round_half_even_monotone.
    apply Qmult_le_compat_r; [exact Hpq|].
    apply Qlt_le_weak, Qinv_lt_0_compat. exact Psq.
  - apply Qle_trans with (inject_Z high * 2 ^ (binade p - (Zpos bits - 1))).
    + apply Qmult_le_compat_r; [|lra]. now rewrite <- Zle_Qle.
    + apply Qle_trans with (inject_Z low * 2 ^ (binade q - (Zpos bits - 1))).
      * rewrite high_pow, low_pow, <- !Qpower_plus by discriminate.
        apply Qpower_le_compat_l; [lia | discriminate].
      * apply Qmult_le_compat_r; [|lra]. now rewrite <- Zle_Qle.
Qed.

(** A number of at most [bits] bits times a power of two is kept. *)
Lemma round_pos_exact m k :
  (0 < m < high)%Z -> round_pos bits (inject_Z m * 2 ^ k) == inject_Z m * 2 ^ k.
Proof.
  intros Hm. set (q := inject_Z m * 2 ^ k).
  pose proof (pow2_pos k) as Pk.
  assert (Hq : 0 < q).
  { apply Qmult_lt_0_compat; [|exact Pk].
    change 0 with (inject_Z 0). rewrite <- Zlt_Qlt. lia. }
  destruct (binade_spec q Hq) as [Bl Bu].
  assert (He : (binade q - (Zpos bits - 1) <= k)%Z).
  { assert (Hlt : 2 ^ binade q < 2 ^ (Zpos bits + k)).
    { apply Qle_lt_trans with q; [exact Bl|]. unfold q.
      rewrite Qpower_plus by discriminate. rewrite <- high_pow.
      apply Qmult_lt_compat_r; [exact Pk|]. rewrite <- Zlt_Qlt. lia. }
    apply Qpower_lt_compat_l_inv in Hlt; [lia | reflexivity]. }
  unfold round_pos. cbv zeta.
  remember (binade q - (Zpos bits - 1))%Z as e eqn:Ee. clear Ee Bl Bu.
  pose proof (pow2_pos e) as Ps.
  assert (Es : 2 ^ k == 2 ^ (k - e) * 2 ^ e).
  { rewrite <- Qpower_plus by discriminate. apply Qpower_comp; [reflexivity | lia]. }
  assert (Ez : q / 2 ^ e == inject_Z (m * 2 ^ (k - e))).
  { rewrite inject_Z_mult, pow2_Z by lia. unfold q. rewrite Es. field. lra. }
  rewrite (round_half_even_compat _ _ Ez), round_half_even_integer.
  rewrite inject_Z_mult, pow2_Z by lia. unfold q. rewrite Es. ring.
Qed.

Lemma round_pos_fixed q : 0 < q -> round_pos bits (round_pos bits q) == round_pos bits q.
Proof.
  intros Hq. pose proof (round_pos_positive q Hq) as Hpos.
  pose proof (rounded_range q Hq) as [Hl Hu].
  unfold round_pos in *. cbv zeta in *.
  remember (round_half_even (q / 2 ^ (binade q - (Zpos bits - 1)))) as R eqn:ER.
  clear ER.
  remember (binade q - (Zpos bits - 1))%Z as e eqn:Ee. clear Ee.
  pose proof low_positive as Lp. pose proof high_double as Hd.
  destruct (Z.eq_dec R high) as [-> | Hne].
  - assert (E : inject_Z high * 2 ^ e == inject_Z 1 * 2 ^ (Zpos bits + e)).
    { rewrite Qpower_plus by discriminate. rewrite high_pow.
      change (inject_Z 1) with 1. ring. }
    fold (round_pos bits (inject_Z high * 2 ^ e)).
    rewrite (round_pos_compat _ _ Hpos E), E.
    apply round_pos_exact. lia.
  - apply round_pos_exact. lia.
Qed.

Lemma round_bits_compat p q : p == q -> round_bits bits p == round_bits bits q.
Proof.
  intros E. unfold round_bits.
  rewrite (Qcompare_comp _ _ E 0 0 (Qeq_refl 0)).
  destruct (Qcompare_spec q 0) as [H|H|H].
  - reflexivity.
  - apply Qopp_comp. apply round_pos_compat; [lra | now rewrite E].
  - apply round_pos_compat; [lra | exact E].
Qed.

Lemma round_bits_sign q :
  (0 < q -> 0 < round_bits bits q) /\ (q < 0 -> round_bits bits q < 0) /\
  (q == 0 -> round_bits bits q == 0).
Proof.
  unfold round_bits. destruct (Qcompare_spec q 0) as [H|H|H].
  - repeat split; intros; lra.
  - assert (0 < round_pos bits (- q)) by (apply round_pos_positive; lra).
    repeat split; intros; lra.
  - pose proof (round_pos_positive q H). repeat split; intros; lra.
Qed.

Lemma round_bits_monotone p q : p <= q -> round_bits bits p <= round_bits bits q.
Proof.
  intros Hpq. unfold round_bits.
  destruct (Qcompare_spec p 0) as [Hp|Hp|Hp];
    destruct (Qcompare_spec q 0) as [Hq|Hq|Hq]; try lra.
  - pose proof (round_pos_positive q Hq). lra.
  - assert (0 < round_pos bits (- p)) by (apply round_pos_positive; lra). lra.
  - assert (round_pos bits (- q) <= round_pos bits (- p))
      by (apply round_pos_monotone; lra).
    lra.
  - assert (0 < round_pos bits (- p)) by (apply round_pos_positive; lra).
    pose proof (round_pos_positive q Hq). lra.
  - now apply round_pos_monotone.
Qed.

Lemma round_bits_accurate q :
  Qabs (round_bits bits q - q) <= (1 # 2 ^ bits) * Qabs q.
Proof.
  unfold round_bits. destruct (Qcompare_spec q 0) as [H|H|H].
  - rewrite H. discriminate.
  - setoid_replace (- round_pos bits (- q) - q)
      with (- (round_pos bits (- q) - - q)) by ring.
    rewrite Qabs_opp, (Qabs_neg q) by lra.
    apply round_pos_accurate. lra.
  - rewrite (Qabs_pos q) by lra. now apply round_pos_accurate.
Qed.

Lemma round_bits_exact m k :
  (Z.abs m < high)%Z ->
  round_bits bits (inject_Z m * 2 ^ k) == inject_Z m * 2 ^ k.
Proof.
  intros Hm. pose proof (pow2_pos k) as Pk. unfold round_bits.
  destruct (Qcompare_spec (inject_Z m * 2 ^ k) 0) as [H|H|H].
  - now rewrite H.
  - assert (Hneg : (m < 0)%Z).
    { destruct (Z_lt_le_dec m 0) as [L|L]; [exact L|]. exfalso.
      assert (0 <= inject_Z m) by (change 0 with (inject_Z 0); now rewrite <- Zle_Qle).
      assert (0 <= inject_Z m * 2 ^ k) by (apply Qmult_le_0_compat; lra). lra. }
    assert (E : - (inject_Z m * 2 ^ k) == inject_Z (- m) * 2 ^ k)
      by (rewrite inject_Z_opp; ring).
    assert (P : 0 < - (inject_Z m * 2 ^ k)) by lra.
    rewrite (round_pos_compat _ _ P E), round_pos_exact by lia.
    rewrite inject_Z_opp. ring.
  - assert (Hpos : (0 < m)%Z).
    { destruct (Z_lt_le_dec 0 m) as [L|L]; [exact L|]. exfalso.
      assert (inject_Z m <= 0) by (change 0 with (inject_Z 0); now rewrite <- Zle_Qle).
      assert (inject_Z m * 2 ^ k <= 0 * 2 ^ k) by (apply Qmult_le_compat_r; lra).
      lra. }
    apply round_pos_exact. lia.
Qed.

Lemma round_bits_idempotent q :
  round_bits bits (round_bits bits q) == round_bits bits q.
Proof.
  destruct (round_bits_sign q) as (Sp & Sn & Sz).
  destruct (Qcompare_spec q 0) as [H|H|H].
  - rewrite (round_bits_compat _ _ (Sz H)), (Sz H). reflexivity.
  - specialize (Sn H). unfold round_bits at 1.
    destruct (Qcompare_spec (round_bits bits q) 0) as [H1|H1|H1]; try lra.
    unfold round_bits. destruct (Qcompare_spec q 0) as [H2|H2|H2]; try lra.
    apply Qopp_comp.
    assert (Hp : 0 < round_pos bits (- q)) by (apply round_pos_positive; lra).
    rewrite (round_pos_compat (- - round_pos bits (- q)) (round_pos bits (- q)));
      [|lra | ring].
    apply round_pos_fixed. lra.
  - specialize (Sp H). unfold round_bits at 1.
    destruct (Qcompare_spec (round_bits bits q) 0) as [H1|H1|H1]; try lra.
    unfold round_bits. destruct (Qcompare_spec q 0) as [H2|H2|H2]; try lra.
    now apply round_pos_fixed.
Qed.

End Precision.

Lemma round_to_compat pr p q : p == q -> round_to pr p == round_to pr q.
Proof.
  destruct pr as [bits|]; cbn [round_to]; [apply round_bits_compat | auto].
Qed.

Lemma round_to_monotone pr p q : p <= q -> round_to pr p <= round_to pr q.
Proof.
  destruct pr as [bits|]; cbn [round_to]; [apply round_bits_monotone | auto].
Qed.

Lemma round_to_idempotent pr q : round_to pr (round_to pr q) == round_to pr q.
Proof.
  destruct pr as [bits|]; cbn [round_to]; [apply round_bits_idempotent | reflexivity].
Qed.

Lemma round_to_accurate pr q :
  Qabs (round_to pr q - q) <= unit_roundoff pr * Qabs q.
Proof.
  destruct pr as [bits|]; cbn [round_to unit_roundoff].
  - apply round_bits_accurate.
  - setoid_replace (q - q) with 0 by ring. rewrite Qmult_0_l. discriminate.
Qed.

(** Zero, the powers of two and their opposites are kept at every
    precision. *)
Lemma round_to_power pr (m : Z) k :
  (Z.abs m <= 1)%Z -> round_to pr (inject_Z m * 2 ^ k) == inject_Z m * 2 ^ k.
Proof.
  intros Hm. destruct pr as [bits|]; cbn [round_to]; [|reflexivity].
  apply round_bits_exact.
  assert (2 ^ 1 <= 2 ^ Z.pos bits)%Z by (apply Z.pow_le_mono_r; lia).
  change (2 ^ 1)%Z with 2%Z in *. lia.
Qed.

Lemma round_to_zero pr q : q == 0 -> round_to pr q == 0.
Proof.
  intros E. rewrite (round_to_compat pr q (inject_Z 0 * 2 ^ 0)) by (rewrite E; reflexivity).
  rewrite round_to_power by discriminate. reflexivity.
Qed.

Lemma round_to_sign pr q : 0 <= q -> 0 <= round_to pr q.
Proof.
  intros H. rewrite <- (round_to_zero pr 0) by reflexivity.
  now apply round_to_monotone.
Qed.

(** *** Finite results *)

Lemma fin_eq {rt : Runtime} (p q : Q) : p == q -> fin p = fin q.
Proof.
  intros H. unfold fin. f_equal. apply Qred_complete. now apply round_to_compat.
Qed.

(** What a finite result stands for. *)
Lemma fin_value {rt : Runtime} p r : fin p = Fin r -> r == round_to (precision rt) p.
Proof.
  unfold fin. intros [= <-]. apply Qred_correct.
Qed.

Lemma bind_ok {A B} (m : outcome A) (k : A -> outcome B) (b : B) :
  bind m k = Ok b -> exists a, m = Ok a /\ k a = Ok b.
Proof.
  destruct m as [a|e]; simpl; intros H; [eauto | discriminate].
Qed.

(** A loop whose body never raises is a fold. *)
Lemma for_each_pure {A S} (body : S -> A -> outcome S) (f : S -> A -> S) :
  (forall s x, body s x = Ok (f s x)) ->
  forall xs s, for_each body xs s = Ok (fold_left f xs s).
Proof.
  intros Hbody xs. induction xs as [|x xs IH]; intros s; simpl.
  - reflexivity.
  - rewrite Hbody. simpl. apply IH.
Qed.

(** A loop whose body keeps an invariant and returns under it. *)
Lemma for_each_invariant {A S} (body : S -> A -> outcome S) (I : S -> Prop) :
  (forall s x, I s -> exists s', body s x = Ok s' /\ I s') ->
  forall xs s, I s -> exists s', for_each body xs s = Ok s' /\ I s'.
Proof.
  intros Hbody xs. induction xs as [|x xs IH]; intros s Hs; simpl.
  - eauto.
  - destruct (Hbody s x Hs) as (s' & -> & Hs'). simpl. now apply IH.
Qed.

(** *** Dictionaries *)

Section Dictionaries.

Context {V : Type}.
Implicit Types (d : dict V) (k : string) (v : V).

Lemma dict_find_setitem_same d k v : dict_find (dict_setitem d k v) k = Some v.
Proof.
  induction d as [|[k' v'] d IH]; simpl.
  - now rewrite String.eqb_refl.
  - destruct (String.eqb k k') eqn:E; simpl.
    + now rewrite String.eqb_refl.
    + now rewrite E.
Qed.

Lemma dict_find_setitem_other d k k' v :
  k' <> k -> dict_find (dict_setitem d k v) k' = dict_find d k'.
Proof.
  intros Hne. induction d as [|[k0 v0] d IH]; simpl.
  - destruct (String.eqb_spec k' k); [contradiction | reflexivity].
  - destruct (String.eqb_spec k k0) as [->|Hk]; simpl.
    + destruct (String.eqb_spec k' k0); [contradiction | reflexivity].
    + now rewrite IH.
Qed.

Lemma dict_find_In d k v : dict_find d k = Some v -> In (k, v) d.
Proof.
  induction d as [|[k' v'] d IH]; simpl; [discriminate|].
  destruct (String.eqb_spec k k') as [->|Hk].
  - intros [= ->]. now left.
  - intros H. right. now apply IH.
Qed.

Lemma dict_find_None d k : dict_find d k = None <-> ~ In k (keys d).
Proof.
  induction d as [|[k' v'] d IH]; simpl.
  - tauto.
  - destruct (String.eqb_spec k k') as [->|Hk].
    + split; [discriminate | tauto].
    + rewrite IH. split; [intros H [E|E]; [congruence | tauto] | tauto].
Qed.

Lemma dict_contains_keys d k : dict_contains d k = true <-> In k (keys d).
Proof.
  unfold dict_contains. destruct (dict_find d k) as [v|] eqn:E.
  - split; [intros _ | reflexivity]. apply dict_find_In in E.
    now apply (in_map fst) in E.
  - apply dict_find_None in E. split; [discriminate | tauto].
Qed.

Lemma dict_find_Some_key d k v : dict_find d k = Some v -> In k (keys d).
Proof.
  intros H. apply dict_find_In in H. now apply (in_map fst) in H.
Qed.

Lemma dict_find_NoDup d k v : NoDup (keys d) -> In (k, v) d -> dict_find d k = Some v.
Proof.
  induction d as [|[k' v'] d IH]; simpl; [tauto|].
  intros Hnd [E|Hin].
  - injection E as -> ->. now rewrite String.eqb_refl.
  - inversion Hnd as [|? ? Hnotin Hnd']; subst.
    destruct (String.eqb_spec k k') as [->|Hk].
    + exfalso. apply Hnotin. now apply (in_map fst) in Hin.
    + now apply IH.
Qed.

Lemma keys_setitem_In d k v k' :
  In k' (keys (dict_setitem d k v)) <-> k' = k \/ In k' (keys d).
Proof.
  induction d as [|[k0 v0] d IH]; simpl.
  - intuition.
  - destruct (String.eqb_spec k k0) as [->|Hk]; simpl.
    + intuition.
    + rewrite IH. intuition.
Qed.

Lemma NoDup_keys_setitem d k v : NoDup (keys d) -> NoDup (keys (dict_setitem d k v)).
Proof.
  induction d as [|[k0 v0] d IH]; simpl; intros Hnd.
  - constructor; [tauto | constructor].
  - inversion Hnd as [|? ? Hnotin Hnd']; subst.
    destruct (String.eqb_spec k k0) as [->|Hk]; simpl.
    + now constructor.
    + constructor; [|now apply IH].
      rewrite keys_setitem_In. intros [E|E]; [congruence | contradiction].
Qed.

End Dictionaries.

(** *** Splitting theme weights over tickers *)

Section Weights.

Context {rt : Runtime}.

Lemma ticker_weights_step_pure theme_weights d item :
  ticker_weights_step rt theme_weights d item = Ok (split_theme theme_weights d item).
Proof.
  destruct item as [theme tickers].
  unfold ticker_weights_step, split_theme, dict_contains, dict_getitem, spread; simpl.
  destruct (dict_find theme_weights theme); reflexivity.
Qed.

Lemma spread_find_other w tickers d t :
  ~ In t tickers -> dict_find (spread w tickers d) t = dict_find d t.
Proof.
  unfold spread. revert d.
  induction tickers as [|t0 tickers IH]; intros d Hnotin; simpl; [reflexivity|].
  rewrite IH by (simpl in Hnotin; tauto).
  apply dict_find_setitem_other. simpl in Hnotin. intros ->. tauto.
Qed.

Lemma spread_find_member w tickers d t :
  In t tickers -> dict_find (spread w tickers d) t = Some w.
Proof.
  unfold spread. revert d.
  induction tickers as [|t0 tickers IH]; intros d Hin; simpl; [contradiction|].
  destruct (in_dec string_dec t tickers) as [Hlater|Hnot].
  - now apply IH.
  - destruct Hin as [->|Hin]; [|contradiction].
    fold (spread w tickers (dict_setitem d t w)).
    rewrite spread_find_other by assumption.
    apply dict_find_setitem_same.
Qed.

(** A theme that has no weight, or does not list [t], leaves [t] alone. *)
Lemma split_theme_find_other theme_weights d item t :
  (dict_contains theme_weights (fst item) = true -> ~ In t (snd item)) ->
  dict_find (split_theme theme_weights d item) t = dict_find d t.
Proof.
  unfold split_theme, dict_contains.
  destruct (dict_find theme_weights (fst item)); intros H; [|reflexivity].
  apply spread_find_other. now apply H.
Qed.

Lemma split_themes_find_other theme_weights later d t :
  (forall item, In item later ->
     dict_contains theme_weights (fst item) = true -> ~ In t (snd item)) ->
  dict_find (fold_left (split_theme theme_weights) later d) t = dict_find d t.
Proof.
  revert d. induction later as [|item later IH]; intros d H; simpl; [reflexivity|].
  rewrite IH by (intros; apply H; simpl; auto).
  apply split_theme_find_other. apply H. now left.
Qed.

(** *** The multiplier loop *)

Lemma dict_find_app {V} (d1 d2 : dict V) k :
  dict_find (d1 ++ d2) k =
  match dict_find d1 k with Some v => Some v | None => dict_find d2 k end.
Proof.
  induction d1 as [|[k' v'] d1 IH]; simpl; [reflexivity|].
  destruct (String.eqb k k'); [reflexivity | apply IH].
Qed.

Lemma dict_setitem_app_fresh {V} (d1 d2 : dict V) k v :
  ~ In k (keys d1) -> dict_setitem (d1 ++ d2) k v = d1 ++ dict_setitem d2 k v.
Proof.
  induction d1 as [|[k' v'] d1 IH]; simpl; intros Hfresh; [reflexivity|].
  destruct (String.eqb_spec k k') as [->|Hk]; [tauto|].
  f_equal. apply IH. tauto.
Qed.

Lemma conviction_loop cm (done rest : Series) :
  NoDup (keys (done ++ rest)) ->
  for_each (conviction_step rt cm) (keys rest) (done ++ rest)
  = Ok (done ++ map (scale cm) rest).
Proof.
  revert done. induction rest as [|[k v] rest IH]; intros done Hnd; simpl.
  - reflexivity.
  - assert (Hfresh : ~ In k (keys done)).
    { unfold keys in *. rewrite map_app in Hnd. simpl in Hnd.
      apply NoDup_remove_2 in Hnd. intros Hin. apply Hnd.
      apply in_or_app. now left. }
    assert (Hfind : dict_find (done ++ (k, v) :: rest) k = Some v).
    { rewrite dict_find_app.
      apply dict_find_None in Hfresh. rewrite Hfresh. simpl.
      now rewrite String.eqb_refl. }
    assert (Hstep : conviction_step rt cm (done ++ (k, v) :: rest) k
                    = Ok ((done ++ [scale cm (k, v)]) ++ rest)).
    { unfold conviction_step, dict_contains, dict_getitem, scale; simpl.
      destruct (dict_find cm k) as [m|]; simpl.
      - rewrite Hfind; simpl.
        rewrite dict_setitem_app_fresh by assumption. simpl.
        rewrite String.eqb_refl, <- app_assoc. reflexivity.
      - now rewrite <- app_assoc. }
    rewrite Hstep. simpl. rewrite IH.
    + now rewrite <- app_assoc.
    + unfold scale at 1. simpl. rewrite <- app_assoc. simpl.
      unfold keys in *. rewrite map_app in *. exact Hnd.
Qed.

Lemma apply_conviction_spec cmo (tv : Series) :
  NoDup (keys tv) ->
  apply_conviction rt cmo (series_rdiv (Fin 1) tv) = Ok (adjusted_inverse cmo tv).
Proof.
  intros Hnd.
  assert (Hplain : series_rdiv (Fin 1) tv = adjusted_inverse None tv).
  { unfold series_rdiv, series_map, adjusted_inverse, adjusted.
    apply map_ext. now intros [k v]. }
  destruct cmo as [[|kv cm]|]; simpl.
  - f_equal; exact Hplain.
  - set (c := kv :: cm).
    assert (Hk : keys (series_rdiv (Fin 1) tv) = keys tv).
    { unfold keys, series_rdiv, series_map. rewrite map_map. reflexivity. }
    pose proof (conviction_loop c [] (series_rdiv (Fin 1) tv)) as H.
    simpl in H. rewrite H by now rewrite Hk.
    apply f_equal. unfold series_rdiv, series_map, adjusted_inverse, adjusted, entry.
    rewrite map_map. apply map_ext. intros [k v]. unfold scale. simpl.
    destruct (dict_find c k); reflexivity.
  - f_equal; exact Hplain.
Qed.

End Weights.

(** *** Volatilities: the loop over the themes never raises *)

Lemma positions_of_columns cols labels :
  Forall (fun c => column_pos cols c <> None) labels ->
  exists ps, positions cols labels = Ok ps.
Proof.
  induction 1 as [|c labels Hc _ [ps IH]]; simpl.
  - eauto.
  - destruct (column_pos cols c); [|congruence]. rewrite IH. simpl. eauto.
Qed.

Lemma getitem_valid_columns df tickers :
  exists ps,
    getitem_columns df (filter (has_column df) tickers)
    = Ok {| columns := filter (has_column df) tickers;
            rows := map (fun r => (fst r, map (fun i => nth i (snd r) NaN) ps))
                      (rows df) |}.
Proof.
  unfold getitem_columns.
  destruct (positions_of_columns (columns df) (filter (has_column df) tickers))
    as [ps Hps].
  - apply Forall_forall. intros c Hc. apply filter_In in Hc as [_ Hc].
    unfold has_column in Hc. destruct (column_pos (columns df) c); congruence.
  - rewrite Hps. simpl. eauto.
Qed.

Section Volatility.

Variable rt : Runtime.

Lemma theme_volatility_step_returns returns d item :
  NoDup (keys d) ->
  exists d', theme_volatility_step rt returns d item = Ok d' /\ NoDup (keys d').
Proof.
  intros Hnd. destruct item as [theme tickers]. unfold theme_volatility_step.
  destruct (getitem_valid_columns returns tickers) as [ps Hsel].
  destruct (filter (has_column returns) tickers) as [|t valid] eqn:E.
  - eauto.
  - rewrite Hsel. simpl. eexists. split; [reflexivity|].
    now apply NoDup_keys_setitem.
Qed.

Lemma calculate_theme_volatility_returns pd tg :
  exists tv, calculate_theme_volatility rt pd tg = Ok tv /\ NoDup (keys tv).
Proof.
  unfold calculate_theme_volatility.
  apply (for_each_invariant _ (fun d => NoDup (keys d))).
  - intros s x Hs. now apply theme_volatility_step_returns.
  - constructor.
Qed.

Lemma calculate_theme_volatility_NoDup pd tg tv :
  calculate_theme_volatility rt pd tg = Ok tv -> NoDup (keys tv).
Proof.
  destruct (calculate_theme_volatility_returns pd tg) as (tv' & E & Hnd).
  rewrite E. now intros [= <-].
Qed.

(** [calculate_weights], step by step. *)
Lemma calculate_weights_spec tg pd cmo tv :
  calculate_theme_volatility rt pd tg = Ok tv ->
  calculate_weights rt tg pd cmo
  = Ok (fold_left (split_theme (normalized cmo tv)) tg [], normalized cmo tv, tv).
Proof.
  intros Htv. unfold calculate_weights. rewrite Htv. simpl.
  rewrite apply_conviction_spec by (eapply calculate_theme_volatility_NoDup; eauto).
  simpl.
  rewrite (for_each_pure _ _ (ticker_weights_step_pure _)). reflexivity.
Qed.

End Volatility.

(** ** Which themes survive *)

Lemma column_pos_In cols c : column_pos cols c <> None <-> In c cols.
Proof.
  induction cols as [|c' cols IH]; simpl; [tauto|].
  destruct (String.eqb_spec c c') as [->|Hc].
  - split; [auto | discriminate].
  - destruct (column_pos cols c).
    + split; [intros _; right; apply IH; discriminate | discriminate].
    + split; [tauto | intros [E|Hin]; [congruence | now apply IH in Hin]].
Qed.

Lemma has_column_In df c : has_column df c = true <-> In c (columns df).
Proof.
  unfold has_column. rewrite <- column_pos_In.
  destruct (column_pos (columns df) c); split; congruence.
Qed.

Lemma columns_pct_change rt df : columns (pct_change rt df) = columns df.
Proof.
  unfold pct_change. destruct (pct_change_pads rt); reflexivity.
Qed.

Lemma priced_returns rt price_data tickers :
  filter (has_column (dropna (pct_change rt price_data))) tickers
  = priced price_data tickers.
Proof.
  unfold priced. apply filter_ext. intros c. unfold has_column.
  change (columns (dropna (pct_change rt price_data)))
    with (columns (pct_change rt price_data)).
  now rewrite columns_pct_change.
Qed.

Lemma theme_volatility_keys rt returns tg :
  forall d tv,
    for_each (theme_volatility_step rt returns) tg d = Ok tv ->
    forall theme,
      In theme (keys tv) <->
      In theme (keys d) \/
      exists tickers, In (theme, tickers) tg /\
                      filter (has_column returns) tickers <> [].
Proof.
  induction tg as [|[th tickers] tg IH]; intros d tv; simpl.
  - intros [= <-] theme. split; [auto | intros [H|(? & [] & _)]; exact H].
  - intros H. apply bind_ok in H as (d' & Hstep & Hrest).
    intros theme. rewrite (IH _ _ Hrest theme). clear IH Hrest.
    unfold theme_volatility_step in Hstep.
    destruct (getitem_valid_columns returns tickers) as [ps Hsel].
    destruct (filter (has_column returns) tickers) as [|t valid] eqn:E.
    + injection Hstep as <-. split.
      * intros [H|(tk & Hin & Hne)]; [auto | right; eauto].
      * intros [H|(tk & [Heq|Hin] & Hne)]; [auto | | right; eauto].
        injection Heq as <- <-. congruence.
    + rewrite Hsel in Hstep. simpl in Hstep. injection Hstep as <-.
      rewrite keys_setitem_In. split.
      * intros [[->|H]|(tk & Hin & Hne)]; [right | auto | right; eauto].
        exists tickers. split; [now left | congruence].
      * intros [H|(tk & [Heq|Hin] & Hne)]; [auto | | right; eauto].
        injection Heq as <- <-. auto.
Qed.

Lemma priced_nonempty price_data tickers :
  priced price_data tickers <> [] <->
  exists t, In t tickers /\ In t (columns price_data).
Proof.
  unfold priced. split.
  - destruct (filter (has_column price_data) tickers) as [|t l] eqn:E; [congruence|].
    intros _. exists t.
    assert (Hin : In t (filter (has_column price_data) tickers)) by (rewrite E; now left).
    apply filter_In in Hin as [Hin Hcol]. now apply has_column_In in Hcol.
  - intros (t & Hin & Hcol) E.
    assert (Hf : In t (filter (has_column price_data) tickers)).
    { apply filter_In. split; [assumption | now apply has_column_In]. }
    now rewrite E in Hf.
Qed.

(** A theme has a volatility exactly when one of its tickers has a column. *)
Lemma surviving_themes rt price_data tg tv :
  calculate_theme_volatility rt price_data tg = Ok tv ->
  forall theme,
    In theme (keys tv) <->
    exists tickers t,
      In (theme, tickers) tg /\ In t tickers /\ In t (columns price_data).
Proof.
  unfold calculate_theme_volatility. intros H theme.
  rewrite (theme_volatility_keys _ _ _ _ _ H theme). simpl.
  split.
  - intros [[]|(tk & Hin & Hne)].
    rewrite priced_returns in Hne. apply priced_nonempty in Hne as (t & Ht & Hcol).
    eauto.
  - intros (tk & t & Hin & Ht & Hcol). right. exists tk. split; [assumption|].
    rewrite priced_returns. apply priced_nonempty. eauto.
Qed.

(** *** The keys of the weights *)

Lemma keys_adjusted_inverse {rt : Runtime} cmo tv : keys (adjusted_inverse cmo tv) = keys tv.
Proof. unfold keys, adjusted_inverse. rewrite map_map. reflexivity. Qed.

Lemma keys_series_map f s : keys (series_map f s) = keys s.
Proof. unfold keys, series_map. rewrite map_map. reflexivity. Qed.

Lemma values_series_map f s : values (series_map f s) = map f (values s).
Proof. unfold values, series_map. rewrite !map_map. reflexivity. Qed.

Lemma dict_find_series_map f (s : Series) k :
  dict_find (series_map f s) k = option_map f (dict_find s k).
Proof.
  induction s as [|[k' v] s IH]; simpl; [reflexivity|].
  destruct (String.eqb k k'); [reflexivity | apply IH].
Qed.

Lemma keys_normalized {rt : Runtime} cmo tv : keys (normalized cmo tv) = keys tv.
Proof.
  unfold normalized, series_div_scalar.
  now rewrite keys_series_map, keys_adjusted_inverse.
Qed.

(** ** Ticker weights (C2) *)

(** C2.  [calculate_weights] returns, whatever its arguments are.  The
    themes that have a weight are exactly those with a ticker among the
    columns of the price table, each once when the theme names are distinct.
    In what is returned every ticker [t] listed by a theme that has a
    weight [w] holds [w / k], where [k] is the length of the theme's whole
    ticker list (tickers without price data included) and the theme is the
    last one, in the order of [theme_groups], that has a weight and lists
    [t]: a later theme overwrites the entry of an earlier one.  A ticker
    listed by no theme with a weight has no entry. *)
Theorem ticker_weight_is_share_of_last_theme
    (rt : Runtime) (theme_groups : dict (list string)) (price_data : DataFrame)
    (conviction_multipliers : option (dict fl)) :
  exists ticker_weights theme_weights theme_volatility,
    calculate_weights rt theme_groups price_data conviction_multipliers
    = Ok (ticker_weights, theme_weights, theme_volatility) /\
    (forall theme,
        dict_contains theme_weights theme = true <->
        exists tickers t,
          In (theme, tickers) theme_groups /\ In t tickers /\
          In t (columns price_data)) /\
    (forall earlier theme tickers later w t,
        theme_groups = earlier ++ (theme, tickers) :: later ->
        dict_find theme_weights theme = Some w ->
        In t tickers ->
        (forall theme' tickers',
            In (theme', tickers') later ->
            dict_contains theme_weights theme' = true -> ~ In t tickers') ->
        dict_find ticker_weights t
        = Some (fl_div w (fl_of_nat (List.length tickers)))) /\
    (forall t,
        (forall theme tickers,
            In (theme, tickers) theme_groups ->
            dict_contains theme_weights theme = true -> ~ In t tickers) ->
        dict_find ticker_weights t = None).
Proof.
  destruct (calculate_theme_volatility_returns rt price_data theme_groups)
    as (tv & Htv & _).
  set (thw := normalized conviction_multipliers tv).
  exists (fold_left (split_theme thw) theme_groups []), thw, tv.
  split; [now apply calculate_weights_spec|]. split; [|split].
  - intros theme. rewrite dict_contains_keys. unfold thw.
    rewrite keys_normalized. now apply surviving_themes with (rt := rt).
  - intros earlier theme tickers later w t -> Hw Hin Hlater.
    rewrite fold_left_app. simpl.
    rewrite split_themes_find_other.
    + unfold split_theme. simpl. rewrite Hw. now apply spread_find_member.
    + intros [theme' tickers'] Hitem. simpl. now apply Hlater.
  - intros t Hnone.
    rewrite split_themes_find_other; [reflexivity|].
    intros [theme tickers] Hitem. simpl. now apply Hnone.
Qed.

(** ** Sums and quotients of rounded numbers *)

Lemma Qsum_nil : Qsum [] = 0.
Proof. reflexivity. Qed.

Lemma Qsum_cons q qs : Qsum (q :: qs) = q + Qsum qs.
Proof. reflexivity. Qed.

Lemma Qsum_nonneg qs : Forall (fun q => 0 < q) qs -> 0 <= Qsum qs.
Proof.
  induction 1 as [|q qs Hq _ IH]; rewrite ?Qsum_nil, ?Qsum_cons; lra.
Qed.

Lemma Qsum_pos qs : qs <> [] -> Forall (fun q => 0 < q) qs -> 0 < Qsum qs.
Proof.
  destruct qs as [|q qs]; [congruence|]. intros _ H.
  inversion H as [|? ? Hq Hqs]; subst. rewrite Qsum_cons.
  pose proof (Qsum_nonneg _ Hqs). lra.
Qed.

Lemma nat_succ_Q k : inject_Z (Z.of_nat (S k)) == inject_Z (Z.of_nat k) + 1.
Proof.
  rewrite Nat2Z.inj_succ. unfold Z.succ. rewrite inject_Z_plus. reflexivity.
Qed.

Lemma nat_nonneg_Q k : 0 <= inject_Z (Z.of_nat k).
Proof.
  change 0 with (inject_Z 0). rewrite <- Zle_Qle. lia.
Qed.

Lemma Qmult_le_weak z x y : 0 <= z -> x <= y -> z * x <= z * y.
Proof.
  intros Hz H. rewrite !(Qmult_comm z). now apply Qmult_le_compat_r.
Qed.

Lemma Qeq_bool_false q : ~ q == 0 -> Qeq_bool q 0 = false.
Proof.
  intros H. destruct (Qeq_bool q 0) eqn:E; [|reflexivity].
  apply Qeq_bool_eq in E. contradiction.
Qed.

Lemma moderate_positive x : moderate x -> positive x.
Proof.
  intros (q & -> & Hlow & _). exists q. split; [reflexivity|].
  pose proof (pow2_pos (-200)). lra.
Qed.

Lemma filter_notna_finite qs : filter notna (map Fin qs) = map Fin qs.
Proof.
  induction qs as [|q qs IH]; simpl; [reflexivity | now rewrite IH].
Qed.

Section Roundoff.

Context {rt : Runtime}.

Local Abbreviation rnd := (round_to (precision rt)).
Local Abbreviation u := (unit_roundoff (precision rt)).
Local Abbreviation K n := (inject_Z (Z.of_nat n)).

Lemma unit_roundoff_range : 0 <= u /\ u <= 1 # 2.
Proof.
  destruct (precision rt) as [bits|]; cbn [unit_roundoff].
  - split; [discriminate|]. unfold Qle. cbn [Qnum Qden].
    rewrite Pos2Z.inj_pow.
    assert (2 ^ 1 <= 2 ^ Z.pos bits)%Z by (apply Z.pow_le_mono_r; lia).
    change (2 ^ 1)%Z with 2%Z in *. lia.
  - split; discriminate.
Qed.

(** The relative error of a rounded number, from both sides. *)
Lemma rnd_bounds q :
  0 <= q -> (1 - u) * q <= rnd q /\ rnd q <= (1 + u) * q /\ (1 - u) * rnd q <= q.
Proof.
  intros Hq. pose proof (round_to_accurate (precision rt) q) as H.
  rewrite (Qabs_pos q Hq) in H. apply Qabs_Qle_condition in H as [Hl Hu].
  destruct unit_roundoff_range as [U0 U1].
  assert (Hup : rnd q <= (1 + u) * q) by lra.
  repeat split; [lra | assumption |].
  assert (0 <= u * u * q).
  { apply Qmult_le_0_compat; [apply Qmult_le_0_compat|]; assumption. }
  assert ((1 - u) * rnd q <= (1 - u) * ((1 + u) * q)).
  { apply Qmult_le_weak; lra. }
  lra.
Qed.

Lemma rnd_positive q : 0 < q -> 0 < rnd q.
Proof.
  intros Hq. destruct (rnd_bounds q) as (Hl & _); [lra|].
  destruct unit_roundoff_range as [U0 U1].
  assert (0 < (1 - u) * q) by (apply Qmult_lt_0_compat; lra).
  lra.
Qed.

(** A finite result is a number of the runtime's precision. *)
Lemma fin_representable q r : fin q = Fin r -> rnd r == r.
Proof.
  intros H. apply fin_value in H.
  rewrite (round_to_compat _ _ _ H), round_to_idempotent. now symmetry.
Qed.

Lemma fin_positive q : 0 < q -> exists r, fin q = Fin r /\ 0 < r /\ rnd r == r.
Proof.
  intros Hq. exists (Qred (rnd q)). split; [reflexivity|]. split.
  - rewrite Qred_correct. now apply rnd_positive.
  - now apply (fin_representable q).
Qed.

Lemma fl_div_finite a b : ~ b == 0 -> fl_div (Fin a) (Fin b) = fin (a / b).
Proof.
  intros H. cbn [fl_div]. now rewrite Qeq_bool_false.
Qed.

(** *** The adjusted inverse volatilities *)

(** The adjusted inverse of a positive volatility under a finite
    multiplier: the inverse is rounded, and so is the product. *)
Lemma adjusted_value cmo theme q m :
  0 < q -> multiplier cmo theme = Fin m ->
  exists a, adjusted cmo theme (Fin q) = Fin a /\ a == rnd (rnd (1 / q) * m).
Proof.
  intros Hq Hm. unfold adjusted, multiplier in *.
  rewrite fl_div_finite by lra.
  destruct (entry cmo theme) as [m'|].
  - subst m'. unfold fin at 1. cbn [fl_mul]. eexists. split; [reflexivity|].
    rewrite Qred_correct. apply round_to_compat. now rewrite Qred_correct.
  - injection Hm as <-. eexists. split; [reflexivity|].
    rewrite Qred_correct.
    rewrite (round_to_compat _ (rnd (1 / q) * 1) (rnd (1 / q))) by ring.
    now rewrite round_to_idempotent.
Qed.

Lemma adjusted_positive cmo theme v :
  positive v -> positive (multiplier cmo theme) ->
  exists a, adjusted cmo theme v = Fin a /\ 0 < a /\ rnd a == a.
Proof.
  intros (q & -> & Hq) (m & Hm & Hmpos).
  destruct (adjusted_value cmo theme q m Hq Hm) as (a & Ha & Ea).
  exists a. split; [assumption|].
  assert (0 < 1 / q) by (apply Qlt_shift_div_l; lra).
  assert (0 < rnd (1 / q)) by now apply rnd_positive.
  assert (0 < rnd (1 / q) * m) by now apply Qmult_lt_0_compat.
  split.
  - rewrite Ea. now apply rnd_positive.
  - rewrite (round_to_compat _ _ _ Ea), round_to_idempotent. now symmetry.
Qed.



(** *** Sums of positive numbers *)

Lemma fold_add_finite qs a :
  exists s, fold_left fl_add (map Fin qs) (Fin a) = Fin s.
Proof.
  revert a. induction qs as [|q qs IH]; intros a; cbn [map fold_left fl_add].
  - eauto.
  - unfold fin. apply IH.
Qed.

(** The sum is a number of the runtime's precision, and no smaller than
    what it started from or than any term of that precision. *)
Lemma fold_add_dominates qs :
  forall a s,
    Forall (fun q => 0 < q) qs -> 0 <= a -> rnd a == a ->
    fold_left fl_add (map Fin qs) (Fin a) = Fin s ->
    a <= s /\ rnd s == s /\ (forall q, In q qs -> rnd q == q -> q <= s).
Proof.
  induction qs as [|q qs IH]; intros a s Hpos Ha Hr; cbn [map fold_left fl_add].
  - intros [= <-]. repeat split; [lra | assumption | intros q []].
  - inversion Hpos as [|? ? Hq Hqs]; subst. unfold fin. intros Hs.
    assert (Ha' : a <= Qred (rnd (a + q))).
    { rewrite Qred_correct, <- Hr at 1. apply round_to_monotone. lra. }
    apply IH in Hs as (Hs1 & Hs2 & Hs3); [| assumption | lra |].
    + repeat split; [lra | assumption |].
      intros x [<-|Hx] Hrx; [|now apply Hs3].
      assert (q <= Qred (rnd (a + q))).
      { rewrite Qred_correct, <- Hrx at 1. apply round_to_monotone. lra. }
      lra.
    + rewrite (round_to_compat _ _ _ (Qred_correct _)), round_to_idempotent.
      now rewrite Qred_correct.
Qed.


(** The sum of [n] positive numbers, [k] others being summed already, is
    within [(k + n)] unit roundoffs of the exact sum. *)
Lemma fold_add_accurate qs :
  forall a T k s,
    Forall (fun q => 0 < q) qs -> 0 <= T -> 0 <= a ->
    K (k + List.length qs) * u <= 1 ->
    (1 - K k * u) * T <= a -> (1 - K k * u) * a <= T ->
    fold_left fl_add (map Fin qs) (Fin a) = Fin s ->
    (1 - K (k + List.length qs) * u) * (T + Qsum qs) <= s /\
    (1 - K (k + List.length qs) * u) * s <= T + Qsum qs.
Proof.
  destruct unit_roundoff_range as [U0 U1].
  induction qs as [|q qs IH]; intros a T k s Hpos HT Ha Hk Hlow Hup;
    cbn [map fold_left fl_add List.length].
  - intros [= <-]. rewrite Nat.add_0_r, Qsum_nil. split; lra.
  - inversion Hpos as [|? ? Hq Hqs]; subst. unfold fin. intros Hs.
    cbn [List.length] in Hk.
    replace (k + S (List.length qs))%nat with (S k + List.length qs)%nat in * by lia.
    destruct (rnd_bounds (a + q)) as (Rl & _ & Rb); [lra|].
    pose proof (nat_nonneg_Q k) as K0.
    pose proof (nat_nonneg_Q (List.length qs)) as N0.
    assert (Hk1 : (K k + 1) * u <= 1).
    { assert (E : K (S k + List.length qs) == K k + 1 + K (List.length qs)).
      { rewrite Nat2Z.inj_add, inject_Z_plus, nat_succ_Q. reflexivity. }
      rewrite E in Hk.
      assert (0 <= K (List.length qs) * u) by now apply Qmult_le_0_compat.
      lra. }
    assert (Ku : 0 <= K k * u) by now apply Qmult_le_0_compat.
    set (a' := Qred (rnd (a + q))) in *.
    assert (Ea' : a' == rnd (a + q)) by apply Qred_correct.
    assert (Ha' : 0 <= a').
    { rewrite Ea'. assert (0 <= (1 - u) * (a + q)) by (apply Qmult_le_0_compat; lra). lra. }
    apply (IH a' (T + q) (S k)) in Hs; try assumption; try lra.
    + rewrite Qsum_cons. setoid_replace (T + (q + Qsum qs)) with (T + q + Qsum qs) by ring.
      exact Hs.
    + rewrite nat_succ_Q, Ea'.
      (* (1 - (k+1)u)(T + q) <= (1 - u)((1 - ku)T + q) <= (1 - u)(a + q) *)
      assert (0 <= K k * u * u * T).
      { repeat apply Qmult_le_0_compat; assumption. }
      assert (0 <= K k * u * q) by (apply Qmult_le_0_compat; lra).
      assert ((1 - u) * ((1 - K k * u) * T + q) <= (1 - u) * (a + q)).
      { apply Qmult_le_weak; lra. }
      lra.
    + rewrite nat_succ_Q.
      (* (1 - (k+1)u) a' <= (1 - ku)(1 - u) a' <= (1 - ku)(a + q) <= T + q *)
      assert (0 <= K k * u * u * a').
      { repeat apply Qmult_le_0_compat; assumption. }
      assert ((1 - K k * u) * ((1 - u) * a') <= (1 - K k * u) * (a + q)).
      { apply Qmult_le_weak; [lra|]. rewrite Ea'. exact Rb. }
      assert (0 <= K k * u * q) by (apply Qmult_le_0_compat; lra).
      lra.
Qed.

(** The sum of a series of positive numbers of the runtime's precision. *)
Lemma nansum_positive qs :
  Forall (fun q => 0 < q) qs ->
  K (List.length qs) * u <= 1 ->
  exists s,
    nansum (map Fin qs) = Fin s /\ rnd s == s /\
    (forall q, In q qs -> rnd q == q -> q <= s) /\
    (1 - K (List.length qs) * u) * Qsum qs <= s /\
    (1 - K (List.length qs) * u) * s <= Qsum qs.
Proof.
  intros Hpos Hn. unfold nansum. rewrite filter_notna_finite.
  destruct (fold_add_finite qs 0) as [s Hs]. exists s. split; [assumption|].
  destruct (fold_add_dominates qs 0 s Hpos) as (_ & Hr & Hd);
    [lra | now apply round_to_zero | assumption |].
  destruct (fold_add_accurate qs 0 0 0%nat s Hpos) as [Hl Hu];
    try assumption; try lra.
  repeat split; try assumption.
  - setoid_replace (Qsum qs) with (0 + Qsum qs) by ring. exact Hl.
  - setoid_replace (Qsum qs) with (0 + Qsum qs) by ring. exact Hu.
Qed.


(** *** Quotients by the sum *)

(** The quotients of positive numbers by one positive number add up to
    the quotient of the sum, within one unit roundoff. *)
Lemma Qsum_quotients S qs :
  0 < S -> Forall (fun q => 0 < q) qs ->
  (1 - u) * (Qsum qs / S) <= Qsum (map (fun q => Qred (rnd (q / S))) qs) /\
  (1 - u) * Qsum (map (fun q => Qred (rnd (q / S))) qs) <= Qsum qs / S.
Proof.
  intros HS. induction 1 as [|q qs Hq _ [IHl IHu]]; cbn [map];
    rewrite ?Qsum_nil, ?Qsum_cons.
  - unfold Qdiv. split; ring_simplify; discriminate.
  - assert (Hd : 0 <= q / S) by (apply Qle_shift_div_l; lra).
    destruct (rnd_bounds (q / S) Hd) as (Rl & _ & Rb).
    rewrite Qred_correct.
    setoid_replace ((q + Qsum qs) / S) with (q / S + Qsum qs / S) by (field; lra).
    split; lra.
Qed.

End Roundoff.
(** *** The weights of the themes *)

Lemma dict_find_adjusted_inverse {rt : Runtime} cmo (tv : Series) k :
  dict_find (adjusted_inverse cmo tv) k = option_map (adjusted cmo k) (dict_find tv k).
Proof.
  induction tv as [|[k' v] tv IH]; simpl; [reflexivity|].
  destruct (String.eqb_spec k k') as [->|Hk]; [reflexivity | apply IH].
Qed.


Lemma Forall2_Forall {A B} (P : A -> B -> Prop) (Q : B -> Prop) l bs :
  Forall2 P l bs -> (forall x b, P x b -> Q b) -> Forall Q bs.
Proof.
  induction 1; intros HQ; constructor; eauto.
Qed.




Section Weights.

Context {rt : Runtime}.

Local Abbreviation rnd := (round_to (precision rt)).
Local Abbreviation u := (unit_roundoff (precision rt)).
Local Abbreviation K n := (inject_Z (Z.of_nat n)).

(** The tolerance covers the unit roundoffs of the sum and of a division. *)
Lemma tolerance_covers n :
  tolerance n <= 1 ->
  0 <= K n * u /\ (K n + 1) * u <= 1 # 2 /\
  1 - tolerance n <= ((1 - u) * (1 - K n * u)) * ((1 - u) * (1 - K n * u)) /\
  1 - (K n + 1) * u <= (1 - u) * (1 - K n * u).
Proof.
  unfold tolerance. intros Ht.
  destruct unit_roundoff_range as [U0 U1]. pose proof (nat_nonneg_Q n) as N0.
  assert (Hn : 0 <= K n * u) by now apply Qmult_le_0_compat.
  assert (Hx : (K n + 1) * u <= 1 # 2) by lra.
  assert (Hd : 1 - (K n + 1) * u <= (1 - u) * (1 - K n * u)).
  { assert (0 <= K n * u * u) by now apply Qmult_le_0_compat. lra. }
  repeat split; try assumption.
  set (x := (K n + 1) * u) in *. set (d := (1 - u) * (1 - K n * u)) in *.
  assert ((1 - x) * (1 - x) <= d * d).
  { assert ((1 - x) * (1 - x) <= (1 - x) * d) by (apply Qmult_le_weak; lra).
    assert ((1 - x) * d <= d * d) by (apply Qmult_le_compat_r; lra).
    lra. }
  assert (0 <= x * x) by (apply Qmult_le_0_compat; unfold x; lra).
  setoid_replace (2 * (K n + 1) * u) with (2 * x) by (unfold x; ring).
  lra.
Qed.

Section Survivors.

Variables (cmo : option (dict fl)) (tv : Series).
Hypothesis volatility_positive : forall theme v, In (theme, v) tv -> positive v.
Hypothesis multiplier_positive :
  forall theme, In theme (keys tv) -> positive (multiplier cmo theme).

Lemma adjusted_list : exists qs, Forall2 (adjusted_to cmo) tv qs.
Proof.
  assert (H : forall kv, In kv tv -> In kv tv) by auto.
  revert H. generalize tv at 1 3. intros l.
  induction l as [|[k v] l IH]; intros Hl.
  - exists []. constructor.
  - destruct IH as [qs Hqs]; [intros kv Hin; apply Hl; now right|].
    destruct (adjusted_positive cmo k v) as (a & Ha).
    + apply (volatility_positive k). apply Hl. now left.
    + apply multiplier_positive. apply (in_map fst tv (k, v)), Hl. now left.
    + exists (a :: qs). constructor; assumption.
Qed.

End Survivors.

Lemma adjusted_list_values cmo (l : Series) qs :
  Forall2 (adjusted_to cmo) l qs ->
  values (adjusted_inverse cmo l) = map Fin qs /\
  Forall (fun q => 0 < q) qs /\ List.length qs = List.length l.
Proof.
  unfold values, adjusted_inverse. rewrite map_map. cbn [snd].
  induction 1 as [|kv a l' qs' (Ha & Hpos & _) _ (IH1 & IH2 & IH3)]; cbn [map List.length].
  - repeat split. constructor.
  - rewrite Ha, IH1, IH3. repeat split. now constructor.
Qed.

(** The sum of the adjusted inverses: positive, no smaller than any of
    them, and within [n] unit roundoffs of their exact sum. *)
Lemma series_sum_adjusted cmo tv qs :
  Forall2 (adjusted_to cmo) tv qs -> tv <> [] ->
  K (List.length tv) * u <= 1 ->
  exists S,
    series_sum (adjusted_inverse cmo tv) = Fin S /\ 0 < S /\
    (forall q, In q qs -> q <= S) /\
    (1 - K (List.length tv) * u) * Qsum qs <= S /\
    (1 - K (List.length tv) * u) * S <= Qsum qs.
Proof.
  intros Hqs Hne Hn.
  destruct (adjusted_list_values cmo tv qs Hqs) as (Hv & Hpos & Hlen).
  unfold series_sum. rewrite Hv, <- Hlen in *.
  destruct (nansum_positive qs Hpos Hn) as (S & HS & _ & Hd & Hl & Hu).
  exists S. split; [assumption|].
  assert (Hrep : forall q, In q qs -> rnd q == q).
  { apply Forall_forall. eapply Forall2_Forall; [exact Hqs|]. now intros x b (_ & _ & Hb). }
  assert (Hle : forall q, In q qs -> q <= S) by (intros q Hq; apply Hd; auto).
  repeat split; try assumption.
  destruct qs as [|q qs']; [destruct tv; [congruence | discriminate]|].
  inversion Hpos; subst. specialize (Hle q (or_introl eq_refl)). lra.
Qed.

(** The weight of a theme: its adjusted inverse over the sum, rounded. *)
Lemma theme_weight_value cmo tv theme v a S :
  NoDup (keys tv) -> In (theme, v) tv ->
  adjusted cmo theme v = Fin a ->
  series_sum (adjusted_inverse cmo tv) = Fin S -> 0 < S ->
  dict_find (normalized cmo tv) theme = Some (Fin (Qred (rnd (a / S)))).
Proof.
  intros Hnd Hin Ha HS Hpos. unfold normalized, series_div_scalar.
  rewrite dict_find_series_map, dict_find_adjusted_inverse.
  rewrite (dict_find_NoDup _ _ _ Hnd Hin). cbn [option_map].
  rewrite Ha, HS, fl_div_finite by lra. reflexivity.
Qed.

(** The weights, one by one. *)
Lemma normalized_values cmo tv qs S :
  Forall2 (adjusted_to cmo) tv qs ->
  series_sum (adjusted_inverse cmo tv) = Fin S -> 0 < S ->
  values (normalized cmo tv) = map (fun q => Fin (Qred (rnd (q / S)))) qs.
Proof.
  intros Hqs HS Hpos. unfold normalized, series_div_scalar.
  rewrite values_series_map, HS.
  destruct (adjusted_list_values cmo tv qs Hqs) as (-> & _ & _).
  rewrite map_map. apply map_ext. intros q. apply fl_div_finite. lra.
Qed.

(** A weight is positive and at most 1. *)
Lemma quotient_in_unit_interval q S : 0 < q -> q <= S -> 0 < rnd (q / S) /\ rnd (q / S) <= 1.
Proof.
  intros Hq Hle. split.
  - apply rnd_positive. apply Qlt_shift_div_l; lra.
  - rewrite <- (round_to_power (precision rt) 1 0) by discriminate.
    apply round_to_monotone.
    change (inject_Z 1 * 2 ^ 0) with (1 * 1). apply Qle_shift_div_r; lra.
Qed.

End Weights.

(** ** Theme weights sum to one (C1) *)

(** C1.  When at least one theme survives the volatility estimation, the
    volatility of every surviving theme and the multiplier applied to it
    (1.0 where none is given) are finite numbers between [2^-200] and
    [2^200], and the survivors are few enough for the tolerance to be at
    most 1, [calculate_weights] returns theme weights over exactly the
    surviving themes, those with a ticker among the columns of the price
    table; each weight is a finite number above 0 and at most 1, and the
    exact sum of the weights is within the tolerance of 1: within
    [(n + 1) * 2^-52] for [n] themes in doubles, and equal to 1 where the
    arithmetic is exact. *)
Theorem theme_weights_sum_to_one
    (rt : Runtime) (theme_groups : dict (list string)) (price_data : DataFrame)
    (conviction_multipliers : option (dict fl)) (theme_volatility : Series) :
  calculate_theme_volatility rt price_data theme_groups = Ok theme_volatility ->
  theme_volatility <> [] ->
  (forall theme v, In (theme, v) theme_volatility -> moderate v) ->
  (forall theme, In theme (keys theme_volatility) ->
                 moderate (multiplier conviction_multipliers theme)) ->
  tolerance (List.length theme_volatility) <= 1 ->
  exists ticker_weights theme_weights,
    calculate_weights rt theme_groups price_data conviction_multipliers
    = Ok (ticker_weights, theme_weights, theme_volatility) /\
    (forall theme,
        In theme (keys theme_weights) <->
        exists tickers t,
          In (theme, tickers) theme_groups /\ In t tickers /\
          In t (columns price_data)) /\
    (forall w, In w (values theme_weights) -> exists q, w = Fin q /\ 0 < q /\ q <= 1) /\
    Qabs (Qsum (map Qval (values theme_weights)) - 1)
    <= tolerance (List.length theme_volatility).
Proof.
  intros Htv Hne Hvol Hmul Htol.
  assert (Hvol' : forall theme v, In (theme, v) theme_volatility -> positive v).
  { intros theme v Hin. eapply moderate_positive, Hvol, Hin. }
  assert (Hmul' : forall theme, In theme (keys theme_volatility) ->
                                positive (multiplier conviction_multipliers theme)).
  { intros theme Hin. now apply moderate_positive, Hmul. }
  destruct (tolerance_covers _ Htol) as (Hn0 & Hx & _ & Hd).
  destruct (unit_roundoff_range (rt := rt)) as [U0 U1].
  destruct (adjusted_list _ _ Hvol' Hmul') as [qs Hqs].
  destruct (series_sum_adjusted _ _ qs Hqs Hne) as (S & HS & Hpos & Hle & Hl & Hu); [lra|].
  destruct (adjusted_list_values conviction_multipliers _ qs Hqs) as (_ & Hqpos & Hlen).
  pose proof (normalized_values _ _ qs S Hqs HS Hpos) as Hvals.
  eexists _, _. split; [now apply calculate_weights_spec|]. split; [|split].
  - intros theme. rewrite keys_normalized. now apply surviving_themes with (rt := rt).
  - intros w Hw. rewrite Hvals in Hw. apply in_map_iff in Hw as (q & <- & Hq).
    eexists. split; [reflexivity|]. rewrite Qred_correct.
    apply quotient_in_unit_interval; [|now apply Hle].
    rewrite Forall_forall in Hqpos. now apply Hqpos.
  - rewrite Hvals, map_map. cbn [Qval].
    destruct (Qsum_quotients (rt := rt) S qs Hpos Hqpos) as [Ql Qu].
    set (F := Qsum (map (fun q => Qred (round_to (precision rt) (q / S))) qs)) in *.
    set (n := inject_Z (Z.of_nat (List.length theme_volatility))) in *.
    set (u := unit_roundoff (precision rt)) in *.
    assert (HT : 0 < Qsum qs).
    { apply Qsum_pos; [|assumption]. intros ->. inversion Hqs. congruence. }
    set (r := Qsum qs / S) in *.
    assert (Er : r * S == Qsum qs) by (unfold r; field; lra).
    assert (Hr : 0 < r) by (unfold r; apply Qlt_shift_div_l; lra).
    set (c := 1 - n * u) in *.
    assert (Hc : 1 # 2 <= c) by (unfold c; lra).
    (* c <= r and c * r <= 1 *)
    assert (Hcr : c <= r).
    { apply Qle_shift_div_l; [assumption|]. lra. }
    assert (Hcr1 : c * r <= 1).
    { setoid_replace (c * r) with (c * Qsum qs / S) by (unfold r; field; lra).
      apply Qle_shift_div_r; lra. }
    assert (HF : 0 <= F).
    { assert (0 <= (1 - u) * r) by (apply Qmult_le_0_compat; lra). lra. }
    unfold tolerance. fold n u.
    set (x := (n + 1) * u) in *.
    setoid_replace (2 * (n + 1) * u) with (2 * x) by (unfold x; ring).
    assert (Hx0 : 0 <= x) by (unfold x, c in *; lra).
    apply Qabs_Qle_condition. split.
    + assert ((1 - u) * c <= (1 - u) * r) by (apply Qmult_le_weak; lra).
      lra.
    + assert (H1 : c * ((1 - u) * F) <= c * r) by (apply Qmult_le_weak; lra).
      assert (H2 : (1 - x) * F <= (1 - u) * c * F) by (apply Qmult_le_compat_r; lra).
      assert (H3 : (1 - x) * F <= 1) by lra.
      destruct (Qlt_le_dec (1 + 2 * x) F) as [Hbig|Hok]; [exfalso | lra].
      assert ((1 - x) * (1 + 2 * x) < (1 - x) * F) by (apply Qmult_lt_l; lra).
      assert (0 <= x * (1 - 2 * x)) by (apply Qmult_le_0_compat; lra).
      lra.
Qed.
(** ** Raising a multiplier (C3) *)


Lemma Qdiv_le_cross a b s t : 0 < s -> 0 < t -> a * t <= b * s -> a / s <= b / t.
Proof.
  intros Hs Ht H. apply Qle_shift_div_l; [assumption|].
  setoid_replace (a / s * t) with (a * t / s) by (field; lra).
  apply Qle_shift_div_r; assumption.
Qed.

(** ** A volatility of exactly zero (C5) *)

Lemma fold_add_stays_infinite {rt : Runtime} b ys acc :
  acc = infinity b \/ acc = NaN ->
  fold_left fl_add ys acc = infinity b \/ fold_left fl_add ys acc = NaN.
Proof.
  revert acc. induction ys as [|y ys IH]; intros acc H; simpl; [assumption|].
  apply IH. destruct H as [-> | ->]; destruct b, y; simpl; auto.
Qed.

Lemma fold_add_meets_infinity {rt : Runtime} b ys acc :
  In (infinity b) ys ->
  fold_left fl_add ys acc = infinity b \/ fold_left fl_add ys acc = NaN.
Proof.
  revert acc. induction ys as [|y ys IH]; intros acc Hin; simpl; [contradiction|].
  destruct Hin as [-> | Hin]; [|now apply IH].
  apply fold_add_stays_infinite. destruct b, acc; simpl; auto.
Qed.

(** An infinite or missing term, divided by a sum it is part of, is [NaN]. *)
Lemma nonfinite_over_sum {rt : Runtime} a xs :
  is_finite a = false -> In a xs -> fl_div a (nansum xs) = NaN.
Proof.
  intros Ha Hin. destruct a as [q| | |]; try discriminate; try reflexivity.
  - destruct (fold_add_meets_infinity true (filter notna xs) (Fin 0)) as [E|E].
    + apply filter_In. split; [assumption | reflexivity].
    + unfold nansum. now rewrite E.
    + unfold nansum. now rewrite E.
  - destruct (fold_add_meets_infinity false (filter notna xs) (Fin 0)) as [E|E].
    + apply filter_In. split; [assumption | reflexivity].
    + unfold nansum. now rewrite E.
    + unfold nansum. now rewrite E.
Qed.

Lemma inverse_of_zero {rt : Runtime} q : q == 0 -> fl_div (Fin 1) (Fin q) = PInf.
Proof.
  intros E. cbn [fl_div].
  destruct (Qeq_bool q 0) eqn:Eb; [reflexivity|].
  apply Qeq_bool_neq in Eb. contradiction.
Qed.

Lemma infinity_times_nonfinite {rt : Runtime} m : is_finite (fl_mul PInf m) = false.
Proof.
  destruct m as [b| | |]; try reflexivity.
  cbn [fl_mul]. unfold inf_times. destruct (Qcompare b 0); reflexivity.
Qed.

(** C5, as the code has it.  When the volatility computed for a theme is
    exactly 0, [calculate_weights] raises nothing: the inverse volatility of
    the theme is [+inf], its adjusted inverse is infinite or [NaN] whatever
    the multipliers are, and the weight returned for the theme is [NaN]. *)
Theorem zero_volatility_gives_nan_weight
    (rt : Runtime) (theme_groups : dict (list string)) (price_data : DataFrame)
    (conviction_multipliers : option (dict fl)) (theme_volatility : Series)
    (theme : string) (q : Q) :
  calculate_theme_volatility rt price_data theme_groups = Ok theme_volatility ->
  In (theme, Fin q) theme_volatility ->
  q == 0 ->
  fl_div (Fin 1) (Fin q) = PInf /\
  is_finite (adjusted conviction_multipliers theme (Fin q)) = false /\
  exists ticker_weights theme_weights,
    calculate_weights rt theme_groups price_data conviction_multipliers
    = Ok (ticker_weights, theme_weights, theme_volatility) /\
    dict_find theme_weights theme = Some NaN.
Proof.
  intros Htv Hin Hq.
  pose proof (calculate_theme_volatility_NoDup _ _ _ _ Htv) as Hnd.
  assert (Hadj : is_finite (adjusted conviction_multipliers theme (Fin q)) = false).
  { unfold adjusted. rewrite inverse_of_zero by assumption.
    destruct (entry conviction_multipliers theme);
      [apply infinity_times_nonfinite | reflexivity]. }
  split; [now apply inverse_of_zero|]. split; [assumption|].
  eexists _, _. split; [now apply calculate_weights_spec|].
  unfold normalized, series_div_scalar.
  rewrite dict_find_series_map, dict_find_adjusted_inverse.
  rewrite (dict_find_NoDup _ _ _ Hnd Hin). simpl. f_equal.
  apply nonfinite_over_sum; [assumption|].
  unfold values, adjusted_inverse. rewrite map_map. simpl.
  apply in_map_iff. exists (theme, Fin q). auto.
Qed.

(** ** The multipliers are not validated (C10) *)

Lemma adjusted_inverse_agree {rt : Runtime} cmo cmo' (tv : Series) :
  (forall theme, In theme (keys tv) -> entry cmo' theme = entry cmo theme) ->
  adjusted_inverse cmo' tv = adjusted_inverse cmo tv.
Proof.
  intros H. unfold adjusted_inverse. apply map_ext_in. intros [k v] Hin.
  unfold adjusted. simpl. rewrite H; [reflexivity|].
  now apply (in_map fst) in Hin.
Qed.

(** C10.  Whatever [conviction_multipliers] is, [calculate_weights] returns.
    The theme weights are the adjusted inverse volatilities over their sum,
    where the adjusted inverse of a surviving theme with an entry [m] is
    [(1 / volatility) * m] for any [m] at all (zero, negative, infinite or
    [NaN] included), and the result is the same for any other multipliers
    that give the surviving themes the same entries: entries of dropped or
    unknown themes play no part. *)
Theorem conviction_multipliers_are_not_validated
    (rt : Runtime) (theme_groups : dict (list string)) (price_data : DataFrame)
    (conviction_multipliers : option (dict fl)) :
  exists ticker_weights theme_weights theme_volatility,
    calculate_weights rt theme_groups price_data conviction_multipliers
    = Ok (ticker_weights, theme_weights, theme_volatility) /\
    calculate_theme_volatility rt price_data theme_groups = Ok theme_volatility /\
    theme_weights
    = series_div_scalar (adjusted_inverse conviction_multipliers theme_volatility)
        (series_sum (adjusted_inverse conviction_multipliers theme_volatility)) /\
    (forall theme v m,
        In (theme, v) theme_volatility ->
        entry conviction_multipliers theme = Some m ->
        dict_find (adjusted_inverse conviction_multipliers theme_volatility) theme
        = Some (fl_mul (fl_div (Fin 1) v) m)) /\
    (forall other_multipliers,
        (forall theme, In theme (keys theme_volatility) ->
                       entry other_multipliers theme
                       = entry conviction_multipliers theme) ->
        calculate_weights rt theme_groups price_data other_multipliers
        = Ok (ticker_weights, theme_weights, theme_volatility)).
Proof.
  destruct (calculate_theme_volatility_returns rt price_data theme_groups)
    as (tv & Htv & Hnd).
  eexists _, _, tv.
  split; [now apply calculate_weights_spec|].
  split; [assumption|]. split; [reflexivity|]. split.
  - intros theme v m Hin Hm.
    rewrite dict_find_adjusted_inverse, (dict_find_NoDup _ _ _ Hnd Hin). simpl.
    unfold adjusted. now rewrite Hm.
  - intros cmo' Hsame.
    rewrite (calculate_weights_spec rt _ _ cmo' _ Htv).
    unfold normalized. now rewrite (adjusted_inverse_agree _ _ _ Hsame).
Qed.

(** ** The table of returns (C6) *)

Lemma pct_rows_from {rt : Runtime} rs prev :
  map (fun r => (fst r, map (fun c => fl_sub c (Fin 1)) (snd r)))
    (zip_with (fun ra rb => (fst ra, zip_with fl_div (snd ra) (snd rb)))
       rs (shift_from prev rs))
  = returns_from prev rs.
Proof.
  revert prev. induction rs as [|[d c] rs IH]; intros prev; simpl.
  - reflexivity.
  - now rewrite IH.
Qed.

Lemma rows_pct_change rt df :
  rows (pct_change rt df)
  = match rows (padded rt df) with
    | [] => []
    | (d, cells) :: rs => returns_from (map (fun _ => NaN) cells) ((d, cells) :: rs)
    end.
Proof.
  unfold pct_change. fold (padded rt df).
  unfold frame_sub_scalar, frame_div, shift. cbn [rows].
  destruct (rows (padded rt df)) as [|[d c] rs]; [reflexivity|].
  apply pct_rows_from.
Qed.

Lemma returns_from_dates {rt : Runtime} prev rs : map fst (returns_from prev rs) = map fst rs.
Proof.
  revert prev. induction rs as [|[d c] rs IH]; intros prev; simpl;
    [reflexivity | now rewrite IH].
Qed.

Lemma ffill_from_dates prev rs : map fst (ffill_from prev rs) = map fst rs.
Proof.
  revert prev. induction rs as [|[d c] rs IH]; intros prev; simpl;
    [reflexivity | now rewrite IH].
Qed.

Lemma padded_dates rt df : map fst (rows (padded rt df)) = map fst (rows df).
Proof.
  unfold padded. destruct (pct_change_pads rt); [|reflexivity].
  unfold ffill. cbn [rows]. destruct (rows df) as [|[d c] rs]; [reflexivity|].
  simpl. now rewrite ffill_from_dates.
Qed.

(** [pct_change] keeps the index. *)
Lemma pct_change_dates rt df : map fst (rows (pct_change rt df)) = map fst (rows df).
Proof.
  rewrite rows_pct_change, <- (padded_dates rt).
  destruct (rows (padded rt df)) as [|[d c] rs]; [reflexivity|].
  apply returns_from_dates.
Qed.

Lemma zip_with_nth_nan (f : fl -> fl -> fl) xs ys j :
  (forall x, f x NaN = NaN) -> (forall y, f NaN y = NaN) ->
  nth j (zip_with f xs ys) NaN = f (nth j xs NaN) (nth j ys NaN).
Proof.
  intros Hr Hl. revert ys j.
  induction xs as [|x xs IH]; intros ys j; simpl.
  - destruct j; now rewrite Hl.
  - destruct ys as [|y ys]; simpl.
    + destruct j; now rewrite Hr.
    + destruct j; [reflexivity | apply IH].
Qed.

Lemma fl_div_nan_r {rt : Runtime} x : fl_div x NaN = NaN.
Proof. now destruct x. Qed.

Lemma return_cell {rt : Runtime} cells prev j :
  nth j (map (fun c => fl_sub c (Fin 1)) (zip_with fl_div cells prev)) NaN
  = fl_sub (fl_div (nth j cells NaN) (nth j prev NaN)) (Fin 1).
Proof.
  change NaN with ((fun c => fl_sub c (Fin 1)) NaN) at 1.
  rewrite map_nth, zip_with_nth_nan; auto using fl_div_nan_r.
Qed.

Lemma returns_from_next {rt : Runtime} rs prev t :
  snd (nth (S t) (returns_from prev rs) (0%Z, []))
  = map (fun c => fl_sub c (Fin 1))
      (zip_with fl_div (snd (nth (S t) rs (0%Z, []))) (snd (nth t rs (0%Z, [])))).
Proof.
  revert prev t. induction rs as [|[d c] rs IH]; intros prev t.
  - reflexivity.
  - cbn [returns_from nth]. destruct t as [|t].
    + destruct rs as [|[d' c'] rs]; reflexivity.
    + rewrite IH. reflexivity.
Qed.

Lemma nth_all_nan (cells : list fl) j : nth j (map (fun _ => NaN) cells) NaN = NaN.
Proof.
  revert j. induction cells as [|c cells IH]; intros [|j]; simpl; auto.
Qed.

(** Padding, cell by cell, in a frame whose rows all have the same length. *)
Lemma ffill_row_cell prev cur j :
  List.length prev = List.length cur ->
  nth j (ffill_row prev cur) NaN
  = if is_nan (nth j cur NaN) then nth j prev NaN else nth j cur NaN.
Proof.
  unfold ffill_row. revert cur j.
  induction prev as [|p prev IH]; intros [|c cur] j Hlen; simpl in Hlen; try discriminate.
  - now destruct j.
  - destruct j; simpl; [reflexivity | apply IH; congruence].
Qed.

Lemma ffill_row_length prev cur :
  List.length prev = List.length cur -> List.length (ffill_row prev cur) = List.length cur.
Proof.
  unfold ffill_row. revert cur.
  induction prev as [|p prev IH]; intros [|c cur] Hlen; simpl in *; try discriminate.
  - reflexivity.
  - f_equal. apply IH. congruence.
Qed.

Lemma ffill_from_cell n rs :
  Forall (fun r => List.length (snd r) = n) rs ->
  forall prev d t,
    List.length prev = n ->
    (S t < S (List.length rs))%nat ->
    forall j,
      nth j (snd (nth (S t) ((d, prev) :: ffill_from prev rs) (0%Z, []))) NaN
      = if is_nan (nth j (snd (nth t rs (0%Z, []))) NaN)
        then nth j (snd (nth t ((d, prev) :: ffill_from prev rs) (0%Z, []))) NaN
        else nth j (snd (nth t rs (0%Z, []))) NaN.
Proof.
  induction 1 as [|[d' c] rs Hc _ IH]; intros prev d t Hprev Ht j; simpl in Ht.
  - lia.
  - simpl in Hc. destruct t as [|t].
    + cbn [nth ffill_from snd]. apply ffill_row_cell. congruence.
    + change (nth (S (S t)) ((d, prev) :: ffill_from prev ((d', c) :: rs)) (0%Z, []))
        with (nth (S t) ((d', ffill_row prev c) :: ffill_from (ffill_row prev c) rs) (0%Z, [])).
      change (nth (S t) ((d, prev) :: ffill_from prev ((d', c) :: rs)) (0%Z, []))
        with (nth t ((d', ffill_row prev c) :: ffill_from (ffill_row prev c) rs) (0%Z, [])).
      change (nth (S t) ((d', c) :: rs) (0%Z, [])) with (nth t rs (0%Z, [])).
      apply IH; [|lia].
      rewrite ffill_row_length; congruence.
Qed.

Lemma padded_cell_first rt df j : cell (padded rt df) 0 j = cell df 0 j.
Proof.
  unfold padded, cell. destruct (pct_change_pads rt); [|reflexivity].
  unfold ffill. cbn [rows]. now destruct (rows df) as [|[d c] rs].
Qed.

Lemma padded_cell_next rt df t j :
  well_formed df ->
  (S t < List.length (rows df))%nat ->
  cell (padded rt df) (S t) j
  = if pct_change_pads rt && is_nan (cell df (S t) j)
    then cell (padded rt df) t j
    else cell df (S t) j.
Proof.
  intros Hwf Ht. unfold padded, cell.
  destruct (pct_change_pads rt); [|reflexivity]. cbn [andb].
  unfold ffill, well_formed in *. cbn [rows].
  destruct (rows df) as [|[d c] rs]; [simpl in Ht; lia|].
  inversion Hwf as [|? ? Hc Hrs]; subst. simpl in Hc.
  change (nth (S t) ((d, c) :: rs) (0%Z, [])) with (nth t rs (0%Z, [])).
  apply (ffill_from_cell (List.length (columns df))); auto.
Qed.

Lemma forallb_notna cells : forallb notna cells = true <-> Forall (fun c => c <> NaN) cells.
Proof.
  rewrite forallb_forall, Forall_forall.
  split; intros H c Hc; specialize (H c Hc); destruct c;
    unfold notna in *; simpl in *; congruence || (exfalso; now apply H).
Qed.

(** C6, as the code has it.  [pct_change] keeps the dates; its first row is
    all [NaN]; in each column independently the cell of a later row is
    [p[t] / p[t-1] - 1], where [p] is the column of prices, padded when the
    library pads: the first price as it is, and a later price as it is
    unless the library pads and the price is missing, in which case [p[t]]
    is [p[t-1]].  [dropna] then keeps exactly the rows without a missing
    cell: a date goes as soon as the return of one ticker is missing. *)
Theorem returns_keep_complete_rows_only (rt : Runtime) (price_data : DataFrame) :
  map fst (rows (pct_change rt price_data)) = map fst (rows price_data) /\
  (forall j, cell (pct_change rt price_data) 0 j = NaN) /\
  (forall t j,
      cell (pct_change rt price_data) (S t) j
      = fl_sub (fl_div (cell (padded rt price_data) (S t) j)
                       (cell (padded rt price_data) t j)) (Fin 1)) /\
  (forall j, cell (padded rt price_data) 0 j = cell price_data 0 j) /\
  (well_formed price_data ->
   forall t j,
     (S t < List.length (rows price_data))%nat ->
     cell (padded rt price_data) (S t) j
     = if pct_change_pads rt && is_nan (cell price_data (S t) j)
       then cell (padded rt price_data) t j
       else cell price_data (S t) j) /\
  (forall r,
      In r (rows (dropna (pct_change rt price_data))) <->
      In r (rows (pct_change rt price_data)) /\ Forall (fun c => c <> NaN) (snd r)).
Proof.
  split; [apply pct_change_dates|]. split; [|split; [|split; [|split]]].
  - intros j. unfold cell. rewrite rows_pct_change.
    destruct (rows (padded rt price_data)) as [|[d c] rs]; [now destruct j|].
    cbn [returns_from nth snd]. rewrite return_cell, nth_all_nan.
    now rewrite fl_div_nan_r.
  - intros t j. unfold cell. rewrite rows_pct_change.
    destruct (rows (padded rt price_data)) as [|[d c] rs].
    + cbn [nth snd]. now destruct j.
    + rewrite returns_from_next. apply return_cell.
  - apply padded_cell_first.
  - intros Hwf t j Ht. now apply padded_cell_next.
  - intros r. unfold dropna. cbn [rows]. rewrite filter_In.
    now rewrite forallb_notna.
Qed.

(** ** The allocation table, row by row *)

Lemma astype_int_Ok xs zs : astype_int xs = Ok zs <-> Forall2 cast_of xs zs.
Proof.
  revert zs. induction xs as [|x xs IH]; intros zs; simpl.
  - split; [intros [= <-]; constructor | intros H; now inversion H].
  - destruct x as [q| | |].
    + destruct (astype_int xs) as [zs'|e]; simpl.
      * split.
        -- intros [= <-]. constructor; [now exists q | now apply IH].
        -- intros H. inversion H as [|? z ? zs0 (q' & Eq & Ez) Hrest]; subst.
           injection Eq as <-. apply IH in Hrest. now injection Hrest as <-.
      * split; [discriminate|].
        intros H. inversion H as [|? z ? zs0 _ Hrest]; subst.
        apply IH in Hrest. discriminate.
    + split; [discriminate | intros H; inversion H as [|? ? ? ? (q & E & _)]; discriminate].
    + split; [discriminate | intros H; inversion H as [|? ? ? ? (q & E & _)]; discriminate].
    + split; [discriminate | intros H; inversion H as [|? ? ? ? (q & E & _)]; discriminate].
Qed.

Lemma astype_int_raises xs :
  Exists (fun x => is_finite x = false) xs -> astype_int xs = Raise IntCastingNaNError.
Proof.
  induction 1 as [x xs Hx | x xs _ IH]; simpl.
  - destruct x; [discriminate | reflexivity..].
  - destruct x; [|reflexivity..]. now rewrite IH.
Qed.

Section Columns.

Variables (ticker_weights latest_prices : Series) (portfolio_value : fl).

Lemma shares_column {rt : Runtime} :
  map (fl_round 0)
    (zip_with fl_div
       (values (series_round 2 (series_mul_scalar ticker_weights portfolio_value)))
       (values (reindex (series_round 2 latest_prices) (keys ticker_weights))))
  = map (share_count latest_prices portfolio_value) ticker_weights.
Proof.
  induction ticker_weights as [|[t w] tw IH]; simpl; [reflexivity|].
  f_equal. exact IH.
Qed.

Lemma assemble_columns {rt : Runtime} zs :
  assemble (keys ticker_weights)
    (values (series_round 2 (series_mul_scalar ticker_weights (Fin 100))))
    (values (reindex (series_round 2 latest_prices) (keys ticker_weights)))
    (values (series_round 2 (series_mul_scalar ticker_weights portfolio_value)))
    zs
  = zip_with (draft_row latest_prices portfolio_value) ticker_weights zs.
Proof.
  revert zs. induction ticker_weights as [|[t w] tw IH]; intros zs; simpl.
  - reflexivity.
  - destruct zs as [|z zs]; [reflexivity|]. f_equal. apply IH.
Qed.

End Columns.

(** [calculate_allocation], step by step. *)
Lemma calculate_allocation_spec rt tw pd pv latest :
  iloc_last pd = Ok latest ->
  tw <> [] \/ latest = [] ->
  calculate_allocation rt tw pd pv
  = (shares <- astype_int (map (share_count latest pv) tw) ;;
     Ok (sort_values_desc rt (zip_with (draft_row latest pv) tw shares))).
Proof.
  intros Hlast Hcase. unfold calculate_allocation. rewrite Hlast. cbn [bind].
  transitivity
    (shares <- astype_int
                 (map (fl_round 0)
                    (zip_with fl_div
                       (values (series_round 2 (series_mul_scalar tw pv)))
                       (values (reindex (series_round 2 latest) (keys tw))))) ;;
     Ok (sort_values_desc rt
           (assemble (keys tw)
              (values (series_round 2 (series_mul_scalar tw (Fin 100))))
              (values (reindex (series_round 2 latest) (keys tw)))
              (values (series_round 2 (series_mul_scalar tw pv))) shares))).
  - destruct tw as [|kv tw'], latest as [|c latest']; try reflexivity.
    destruct Hcase; congruence.
  - rewrite shares_column.
    destruct (astype_int (map (share_count latest pv) tw)); simpl; [|reflexivity].
    now rewrite assemble_columns.
Qed.

(** Without a weighted ticker the columns of weights are empty, the frame
    takes its index from the latest prices, and the cast of the share
    counts fails on the missing values of a column of objects. *)
Lemma calculate_allocation_empty rt pd pv latest :
  iloc_last pd = Ok latest -> latest <> [] ->
  calculate_allocation rt [] pd pv = Raise ValueError.
Proof.
  intros Hlast Hne. unfold calculate_allocation. rewrite Hlast. cbn [bind].
  destruct latest; [congruence | reflexivity].
Qed.

Lemma calculate_allocation_Ok rt tw pd pv rows :
  calculate_allocation rt tw pd pv = Ok rows ->
  exists latest shares,
    iloc_last pd = Ok latest /\
    Forall2 cast_of (map (share_count latest pv) tw) shares /\
    rows = sort_values_desc rt (zip_with (draft_row latest pv) tw shares).
Proof.
  intros H. destruct (iloc_last pd) as [latest|e] eqn:Hlast.
  - assert (Hcase : tw <> [] \/ latest = []).
    { destruct tw as [|kv tw']; [|left; discriminate].
      destruct latest as [|c latest']; [now right|].
      rewrite (calculate_allocation_empty _ _ _ _ Hlast) in H; discriminate. }
    rewrite (calculate_allocation_spec _ _ _ _ _ Hlast Hcase) in H.
    apply bind_ok in H as (shares & Hcast & [= <-]).
    exists latest, shares. split; [reflexivity|]. split; [|reflexivity].
    now apply astype_int_Ok.
  - unfold calculate_allocation in H. rewrite Hlast in H. discriminate.
Qed.

Lemma draft_rows_In {rt : Runtime} latest pv tw shares r :
  Forall2 cast_of (map (share_count latest pv) tw) shares ->
  In r (zip_with (draft_row latest pv) tw shares) ->
  exists kv q,
    In kv tw /\ share_count latest pv kv = Fin q /\
    r = draft_row latest pv kv (int64_cast q).
Proof.
  revert shares. induction tw as [|kv tw IH]; intros shares Hcast Hin; simpl in *.
  - contradiction.
  - inversion Hcast as [|? z ? zs (q & Eq & ->) Hrest]; subst. simpl in Hin.
    destruct Hin as [<- | Hin].
    + exists kv, q. auto.
    + destruct (IH _ Hrest Hin) as (kv' & q' & Hkv & Hq & Hr).
      exists kv', q'. auto.
Qed.

(** ** Sorting by weight *)

Ltac order_cases :=
  simpl in *; intros; try reflexivity; try discriminate;
  repeat match goal with
         | H : negb _ = false |- _ => apply negb_false_iff, Qle_bool_iff in H
         | H : negb _ = true |- _ => apply negb_true_iff in H
         | |- negb _ = false => apply negb_false_iff, Qle_bool_iff
         end.

Lemma stands_before_asym x y : stands_before x y = true -> stands_before y x = false.
Proof.
  unfold stands_before, notna. destruct x as [a| | |], y as [b| | |]; order_cases.
  destruct (Qlt_le_dec b a) as [Hlt|Hle].
  - now apply Qlt_le_weak.
  - apply Qle_bool_iff in Hle. congruence.
Qed.

Lemma stands_before_trans x y z :
  stands_before y x = false -> stands_before z y = false -> stands_before z x = false.
Proof.
  unfold stands_before, notna. destruct x, y, z; order_cases.
  eapply Qle_trans; eauto.
Qed.

(** *** Rows taken by position *)

Section Take.

Context {A : Type}.
Implicit Types (l : list A) (indexer : list nat).

Lemma take_In l indexer x :
  In x (take l indexer) -> exists i, In i indexer /\ nth_error l i = Some x.
Proof.
  unfold take. rewrite in_flat_map. intros (i & Hi & Hx).
  exists i. split; [assumption|].
  destruct (nth_error l i) as [y|]; [|contradiction].
  destruct Hx as [->|[]]. reflexivity.
Qed.

Lemma take_member l indexer x : In x (take l indexer) -> In x l.
Proof.
  intros H. apply take_In in H as (i & _ & Hi). eapply nth_error_In; eauto.
Qed.

Lemma take_nil indexer : take (@nil A) indexer = [].
Proof.
  induction indexer as [|i indexer IH]; [reflexivity|].
  unfold take in *. simpl. rewrite IH. now destruct i.
Qed.

Lemma take_suffix pre l :
  take (pre ++ l) (seq (List.length pre) (List.length l)) = l.
Proof.
  revert pre. induction l as [|x l IH]; intros pre; [reflexivity|].
  cbn [List.length seq]. unfold take in *. cbn [flat_map].
  rewrite nth_error_app2, Nat.sub_diag by lia. simpl. f_equal.
  specialize (IH (pre ++ [x])). rewrite <- app_assoc, length_app in IH.
  simpl in IH. now rewrite Nat.add_1_r in IH.
Qed.

Lemma take_all l : take l (seq 0 (List.length l)) = l.
Proof. exact (take_suffix [] l). Qed.

Lemma take_perm l indexer :
  Permutation indexer (seq 0 (List.length l)) -> Permutation (take l indexer) l.
Proof.
  intros H. rewrite <- (take_all l) at 2. unfold take.
  now apply Permutation_flat_map.
Qed.

Lemma take_sorted (P : nat -> nat -> Prop) (R : A -> A -> Prop) l indexer :
  (forall i j x y, P i j -> nth_error l i = Some x -> nth_error l j = Some y -> R x y) ->
  StronglySorted P indexer -> StronglySorted R (take l indexer).
Proof.
  intros HPR. induction 1 as [|i indexer Hs IH Hall].
  - constructor.
  - unfold take in *. cbn [flat_map].
    destruct (nth_error l i) as [x|] eqn:Ei; [|exact IH].
    simpl. constructor; [exact IH|].
    apply Forall_forall. intros y Hy.
    apply take_In in Hy as (j & Hj & Ej).
    rewrite Forall_forall in Hall. eapply HPR; eauto.
Qed.

End Take.

Lemma take_map {A B} (f : A -> B) (l : list A) indexer :
  map f (take l indexer) = take (map f l) indexer.
Proof.
  unfold take. induction indexer as [|i indexer IH]; [reflexivity|].
  cbn [flat_map]. rewrite map_app, IH, nth_error_map.
  now destruct (nth_error l i).
Qed.

(** *** The stable order sorts *)

Lemma insert_index_perm key i l : Permutation (insert_index key i l) (i :: l).
Proof.
  induction l as [|j l IH]; simpl; [reflexivity|].
  destruct (stands_before (nth j key NaN) (nth i key NaN)); [|reflexivity].
  rewrite IH. apply perm_swap.
Qed.

Lemma insertion_perm key l : Permutation (fold_right (insert_index key) [] l) l.
Proof.
  induction l as [|i l IH]; simpl; [reflexivity|].
  rewrite insert_index_perm. now constructor.
Qed.

Lemma insert_index_sorted key i l :
  StronglySorted (key_order key) l -> StronglySorted (key_order key) (insert_index key i l).
Proof.
  induction 1 as [|j l Hsorted IH Hall]; simpl.
  - constructor; constructor.
  - destruct (stands_before (nth j key NaN) (nth i key NaN)) eqn:E.
    + constructor; [assumption|].
      apply Forall_forall. intros x Hx.
      apply (Permutation_in _ (insert_index_perm key i l)) in Hx as [<- | Hx].
      * now apply stands_before_asym.
      * rewrite Forall_forall in Hall. now apply Hall.
    + constructor; [now constructor|].
      constructor; [exact E|].
      apply Forall_forall. intros x Hx. rewrite Forall_forall in Hall.
      unfold key_order. apply (stands_before_trans _ (nth j key NaN)); [exact E|].
      now apply Hall.
Qed.

Lemma stable_order_sorts : sorts_descending stable_order.
Proof.
  intros key. split; [apply insertion_perm|].
  unfold stable_order. induction (seq 0 (List.length key)) as [|i l IH]; simpl.
  - constructor.
  - now apply insert_index_sorted.
Qed.

Lemma equal_keys_not_before a b x :
  fl_eqb a x = true -> fl_eqb b x = true -> stands_before b a = false.
Proof.
  unfold stands_before, notna.
  destruct a as [a| | |], b as [b| | |], x as [x| | |]; order_cases.
  match goal with
  | Ha : Qeq_bool a x = true, Hb : Qeq_bool b x = true |- _ =>
      apply Qeq_bool_iff in Ha, Hb; rewrite Ha, Hb; apply Qle_refl
  end.
Qed.

(** Positions with the same key are never moved past each other. *)
Lemma insert_index_filter key x i l :
  let same := fun i => fl_eqb (nth i key NaN) x in
  filter same (insert_index key i l)
  = if same i then i :: filter same l else filter same l.
Proof.
  intros same. induction l as [|j l IH]; simpl.
  - reflexivity.
  - destruct (stands_before (nth j key NaN) (nth i key NaN)) eqn:E; simpl.
    + rewrite IH. destruct (same i) eqn:Ei; [|reflexivity].
      destruct (same j) eqn:Ej; [|reflexivity].
      unfold same in *.
      rewrite (equal_keys_not_before _ _ _ Ei Ej) in E. discriminate.
    + reflexivity.
Qed.

Lemma stable_order_keeps_ties key x :
  filter (fun i => fl_eqb (nth i key NaN) x) (stable_order key)
  = filter (fun i => fl_eqb (nth i key NaN) x) (seq 0 (List.length key)).
Proof.
  unfold stable_order. induction (seq 0 (List.length key)) as [|i l IH]; simpl.
  - reflexivity.
  - rewrite (insert_index_filter key x i). cbv zeta. now rewrite IH.
Qed.

(** ** Share counts (C4) *)

Lemma Qtrunc_integer z : Qtrunc (inject_Z z) = z.
Proof. unfold Qtrunc. simpl. apply Z.quot_1_r. Qed.

(** A whole number within the range of 64-bit integers is cast to
    itself. *)
Lemma int64_cast_integer z :
  (min_int64 <= z < 2 ^ 63)%Z -> int64_cast (inject_Z z) = z.
Proof.
  intros [Hl Hu]. unfold int64_cast. rewrite Qtrunc_integer.
  apply Z.leb_le in Hl. apply Z.ltb_lt in Hu. now rewrite Hl, Hu.
Qed.

(** Rounding to no decimals is [rint]: half to even. *)
Lemma fl_round_zero {rt : Runtime} x :
  fl_round 0 (Fin x) = Fin (inject_Z (round_half_even x)).
Proof. reflexivity. Qed.

Lemma inf_times_nonfinite b q : is_finite (inf_times b q) = false.
Proof. unfold inf_times. destruct (Qcompare q 0), b; reflexivity. Qed.

Lemma pow10_positive decimals : 0 < pow10 decimals.
Proof.
  unfold pow10. change 0 with (inject_Z 0). rewrite <- Zlt_Qlt.
  apply Z.pow_pos_nonneg; lia.
Qed.

(** The value of a finite number rounded to some decimals: the product
    and the quotient are rounded to the runtime's precision. *)
Lemma fl_round_decimals {rt : Runtime} n x :
  fl_round (S n) (Fin x)
  = fin (inject_Z (round_half_even (Qred (round_to (precision rt) (x * pow10 (S n)))))
         / pow10 (S n)).
Proof.
  cbn [fl_round fl_mul]. unfold fin at 1. cbn [rint].
  apply fl_div_finite. pose proof (pow10_positive (S n)). lra.
Qed.

(** Rounding keeps what is finite finite and what is not as it is. *)
Lemma fl_round_is_finite {rt : Runtime} decimals x :
  is_finite (fl_round decimals x) = is_finite x.
Proof.
  destruct decimals as [|n]; [now destruct x|].
  destruct x as [q| | |]; [now rewrite fl_round_decimals | | | reflexivity].
  - cbn [fl_round fl_mul]. pose proof (inf_times_nonfinite true (pow10 (S n))) as H.
    destruct (inf_times true (pow10 (S n))); try discriminate; cbn [rint fl_div];
      try reflexivity; destruct (Qle_bool 0 (pow10 (S n))); reflexivity.
  - cbn [fl_round fl_mul]. pose proof (inf_times_nonfinite false (pow10 (S n))) as H.
    destruct (inf_times false (pow10 (S n))); try discriminate; cbn [rint fl_div];
      try reflexivity; destruct (Qle_bool 0 (pow10 (S n))); reflexivity.
Qed.

Lemma fl_round_nonfinite {rt : Runtime} n x :
  is_finite x = false -> is_finite (fl_round n x) = false.
Proof. intros H. now rewrite fl_round_is_finite. Qed.

(** A finite share count comes from a finite dollar amount over a finite
    non-zero price (the quotient of the two doubles, rounded half to even)
    or over an infinite price (0). *)
Lemma share_count_finite {rt : Runtime} dollars price q :
  fl_round 0 (fl_div dollars price) = Fin q ->
  exists qd, dollars = Fin qd /\
    ((exists qp x, price = Fin qp /\ ~ qp == 0 /\
                   fl_div (Fin qd) (Fin qp) = Fin x /\
                   x == round_to (precision rt) (qd / qp) /\
                   q = inject_Z (round_half_even x)) \/
     ((price = PInf \/ price = NInf) /\ q = 0)).
Proof.
  intros H.
  destruct dollars as [qd| | |], price as [qp| | |];
    try (exfalso; cbn in H; try destruct (Qle_bool 0 qp); discriminate).
  - exists qd. split; [reflexivity|]. left.
    destruct (Qeq_bool qp 0) eqn:Ez.
    + exfalso. cbn [fl_div] in H. rewrite Ez in H.
      pose proof (fl_round_nonfinite 0 _ (inf_times_nonfinite true qd)) as Hn.
      rewrite H in Hn. discriminate.
    + apply Qeq_bool_neq in Ez. rewrite (fl_div_finite qd qp Ez) in H.
      exists qp, (Qred (round_to (precision rt) (qd / qp))).
      repeat split;
        [assumption | now apply fl_div_finite | apply Qred_correct |].
      unfold fin in H. rewrite fl_round_zero in H. now injection H as <-.
  - exists qd. split; [reflexivity|]. right. split; [auto|].
    cbn in H. now injection H as <-.
  - exists qd. split; [reflexivity|]. right. split; [auto|].
    cbn in H. now injection H as <-.
Qed.

(** C4, as the code has it.  In every row of the table that
    [calculate_allocation] returns, the dollar allocation is the ticker's
    weight times the portfolio value rounded to 2 decimals, the latest
    price is the price of the last row rounded to 2 decimals, and the share
    count is the quotient of these two doubles, itself a double (the exact
    quotient rounded to the runtime's precision, unless it is so small that
    it underflows), rounded half to even, the rule of [numpy.round]: an
    exact half of the double goes to the even neighbour, not up.  The count
    is that whole number when it is in the range of the 64-bit integers.
    (A quotient over an infinite price is 0.) *)
Theorem shares_round_half_to_even
    (rt : Runtime) (ticker_weights : Series) (price_data : DataFrame)
    (portfolio_value : fl) (allocation : list AllocationRow) (r : AllocationRow) :
  calculate_allocation rt ticker_weights price_data portfolio_value = Ok allocation ->
  In r allocation ->
  exists latest_prices w qd,
    iloc_last price_data = Ok latest_prices /\
    In (ticker r, w) ticker_weights /\
    latest_price r = price_of latest_prices (ticker r) /\
    dollar_allocation r = fl_round 2 (fl_mul w portfolio_value) /\
    dollar_allocation r = Fin qd /\
    ((exists qp x,
         latest_price r = Fin qp /\ ~ qp == 0 /\
         fl_div (dollar_allocation r) (latest_price r) = Fin x /\
         (2 ^ (-1000) <= Qabs (qd / qp) -> x == round_to (precision rt) (qd / qp)) /\
         shares_to_buy r = int64_cast (inject_Z (round_half_even x)) /\
         ((min_int64 <= round_half_even x < 2 ^ 63)%Z ->
          shares_to_buy r = round_half_even x)) \/
     ((latest_price r = PInf \/ latest_price r = NInf) /\ shares_to_buy r = 0%Z)).
Proof.
  intros Hcalc Hin.
  apply calculate_allocation_Ok in Hcalc as (latest & shares & Hlast & Hcast & ->).
  apply take_member in Hin.
  destruct (draft_rows_In _ _ _ _ _ Hcast Hin) as ([t w] & q & Hkv & Hq & ->).
  unfold share_count in Hq. simpl in Hq.
  destruct (share_count_finite _ _ _ Hq) as (qd & Hd & Hprice).
  exists latest, w, qd. cbn [ticker latest_price dollar_allocation shares_to_buy draft_row fst snd].
  repeat split; try assumption.
  destruct Hprice as [(qp & x & Hp & Hnz & Hx & Ex & ->) | (Hp & ->)].
  - left. exists qp, x. unfold dollars_of in *. rewrite Hd, Hp.
    split; [reflexivity|]. split; [assumption|]. split; [assumption|].
    split; [intros _; exact Ex|]. split; [reflexivity|].
    now apply int64_cast_integer.
  - right. split; [assumption | reflexivity].
Qed.

(** ** A ticker without a latest price (C8) *)

Lemma share_count_without_price {rt : Runtime} latest pv t w :
  price_of latest t = NaN -> is_finite (share_count latest pv (t, w)) = false.
Proof.
  intros H. unfold share_count. simpl. rewrite H, fl_div_nan_r. reflexivity.
Qed.

Lemma price_of_missing {rt : Runtime} latest t :
  dict_find latest t = None \/ dict_find latest t = Some NaN ->
  price_of latest t = NaN.
Proof.
  unfold price_of, series_round. rewrite dict_find_series_map.
  now intros [-> | ->].
Qed.

(** C8, as the code has it.  A ticker that has a weight but no price in the
    last row of the table (no column, or a missing cell) gets the latest
    price [NaN] and the share count [NaN], on which the cast to integers
    raises [IntCastingNaNError]; on a table without rows [iloc[-1]] raises
    [IndexError] before that.  Either way no table is returned; the error
    is the library's and is not specific to a missing price. *)
Theorem missing_latest_price_fails_at_the_cast
    (rt : Runtime) (ticker_weights : Series) (price_data : DataFrame)
    (portfolio_value : fl) (t : string) (w : fl) :
  In (t, w) ticker_weights ->
  (forall latest_prices,
      iloc_last price_data = Ok latest_prices ->
      dict_find latest_prices t = None \/ dict_find latest_prices t = Some NaN) ->
  calculate_allocation rt ticker_weights price_data portfolio_value
  = match rows price_data with
    | [] => Raise IndexError
    | _ :: _ => Raise IntCastingNaNError
    end.
Proof.
  intros Hin Hmissing.
  destruct (iloc_last price_data) as [latest|e] eqn:Hlast.
  - rewrite (calculate_allocation_spec _ _ _ _ _ Hlast)
      by (left; intros E; rewrite E in Hin; contradiction).
    rewrite astype_int_raises.
    + unfold iloc_last in Hlast.
      destruct (rows price_data) as [|r rs]; [discriminate | reflexivity].
    + apply Exists_exists. exists (share_count latest portfolio_value (t, w)).
      split; [now apply in_map|].
      apply share_count_without_price, price_of_missing. now apply Hmissing.
  - unfold calculate_allocation. rewrite Hlast. simpl.
    unfold iloc_last in Hlast.
    destruct (rows price_data) as [|r rs]; [now injection Hlast as <-|].
    simpl in Hlast. destruct (rev rs ++ [r]) eqn:E; [|discriminate].
    now apply app_eq_nil in E as [_ [=]].
Qed.

(** ** The order of the table (C9) *)

Lemma draft_rows_tickers {rt : Runtime} latest pv tw shares :
  List.length shares = List.length tw ->
  map ticker (zip_with (draft_row latest pv) tw shares) = keys tw.
Proof.
  revert shares. induction tw as [|kv tw IH]; intros [|z zs] Hlen;
    simpl in *; try discriminate; [reflexivity|].
  f_equal. apply IH. congruence.
Qed.

Lemma draft_rows_weights {rt : Runtime} latest pv tw shares :
  List.length shares = List.length tw ->
  map weight_pct (zip_with (draft_row latest pv) tw shares)
  = map (fun kv => fl_round 2 (fl_mul (snd kv) (Fin 100))) tw.
Proof.
  revert shares. induction tw as [|kv tw IH]; intros [|z zs] Hlen;
    simpl in *; try discriminate; [reflexivity|].
  f_equal. apply IH. congruence.
Qed.

Lemma fl_mul_finite {rt : Runtime} x y q : fl_mul x y = Fin q -> exists a b, x = Fin a /\ y = Fin b.
Proof.
  destruct x as [a| | |], y as [b| | |]; simpl; try discriminate; eauto;
    unfold inf_times; destruct (Qcompare _ 0); discriminate.
Qed.

(** In a table that is returned every weight percent is finite. *)
Lemma weight_pct_finite {rt : Runtime} latest pv kv q :
  share_count latest pv kv = Fin q ->
  exists a, fl_round 2 (fl_mul (snd kv) (Fin 100)) = Fin a.
Proof.
  destruct kv as [t w]. intros H. unfold share_count in H. cbn [fst snd] in *.
  destruct (share_count_finite _ _ _ H) as (qd & Hd & _).
  unfold dollars_of in Hd.
  assert (Hfin : is_finite (fl_mul w pv) = true).
  { rewrite <- (fl_round_is_finite 2), Hd. reflexivity. }
  destruct (fl_mul w pv) as [p| | |] eqn:E; try discriminate.
  destruct (fl_mul_finite _ _ _ E) as (a & b & -> & _).
  cbn [fl_mul]. unfold fin at 1. rewrite fl_round_decimals. unfold fin. eauto.
Qed.

(** The tickers of the table are those of [ticker_weights], taken in the
    order the library gives to the weight column. *)
Lemma allocation_tickers rt tw pd pv allocation :
  calculate_allocation rt tw pd pv = Ok allocation ->
  map ticker allocation
  = take (keys tw)
      (sort_order rt (map (fun kv => fl_round 2 (fl_mul (snd kv) (Fin 100))) tw)).
Proof.
  intros Hcalc.
  apply calculate_allocation_Ok in Hcalc as (latest & shares & Hlast & Hcast & ->).
  assert (Hlen : List.length shares = List.length tw).
  { apply Forall2_length in Hcast. now rewrite length_map in Hcast. }
  unfold sort_values_desc. rewrite take_map.
  now rewrite draft_rows_tickers, draft_rows_weights.
Qed.

(** C9, as the code has it.  The table returned holds the tickers of
    [ticker_weights], sorted by weight percent in descending order.  The
    order of the tickers is the one the library's sort of the weight column
    gives to the positions of [ticker_weights]: it is a function of the
    weights alone, and the ticker symbols are never compared, so rows with
    equal weight percent are not ordered by symbol. *)
Theorem allocation_sorted_by_weight_only
    (rt : Runtime) (ticker_weights : Series) (price_data : DataFrame)
    (portfolio_value : fl) (allocation : list AllocationRow) :
  sorts_descending (sort_order rt) ->
  calculate_allocation rt ticker_weights price_data portfolio_value = Ok allocation ->
  StronglySorted
    (fun r1 r2 => exists a b,
         weight_pct r1 = Fin a /\ weight_pct r2 = Fin b /\ b <= a)
    allocation /\
  Permutation (map ticker allocation) (keys ticker_weights) /\
  map ticker allocation
  = take (keys ticker_weights)
      (sort_order rt
         (map (fun kv => fl_round 2 (fl_mul (snd kv) (Fin 100))) ticker_weights)).
Proof.
  intros Hsort Hcalc.
  pose proof (allocation_tickers _ _ _ _ _ Hcalc) as Htickers.
  apply calculate_allocation_Ok in Hcalc as (latest & shares & Hlast & Hcast & ->).
  assert (Hlen : List.length shares = List.length ticker_weights).
  { apply Forall2_length in Hcast. now rewrite length_map in Hcast. }
  set (drafts := zip_with (draft_row latest portfolio_value) ticker_weights shares).
  assert (Hfinite : forall r, In r drafts -> exists a, weight_pct r = Fin a).
  { intros r Hr.
    destruct (draft_rows_In _ _ _ _ _ Hcast Hr) as (kv & q & _ & Hq & ->).
    simpl. eapply weight_pct_finite; eauto. }
  destruct (Hsort (map weight_pct drafts)) as [Hperm Hsorted].
  rewrite length_map in Hperm.
  unfold sort_values_desc. split; [|split].
  - refine (take_sorted _ _ _ _ _ Hsorted).
    intros i j r1 r2 Hij H1 H2. cbv beta in Hij.
    destruct (Hfinite r1) as (a & Ha); [eapply nth_error_In; eauto|].
    destruct (Hfinite r2) as (b & Hb); [eapply nth_error_In; eauto|].
    exists a, b. repeat split; [assumption..|].
    rewrite (nth_error_nth _ _ _ (map_nth_error weight_pct _ _ H1)) in Hij.
    rewrite (nth_error_nth _ _ _ (map_nth_error weight_pct _ _ H2)) in Hij.
    unfold stands_before in Hij. rewrite Ha, Hb in Hij. simpl in Hij.
    now apply negb_false_iff, Qle_bool_iff in Hij.
  - rewrite (Permutation_map ticker (take_perm _ _ Hperm)).
    unfold drafts. now rewrite draft_rows_tickers.
  - exact Htickers.
Qed.

(** ** Fewer than two rows of prices (C7) *)

Lemma std_short rt xs : (List.length xs <= 1)%nat -> std rt xs = NaN.
Proof.
  intros Hlen. unfold std, nanvar.
  assert (Hc : (count xs <= 1)%nat).
  { unfold count. pose proof (filter_length_le notna xs). lia. }
  apply Nat.leb_le in Hc. now rewrite Hc.
Qed.

Lemma short_returns rt pd :
  (List.length (rows pd) < 2)%nat ->
  (List.length (rows (dropna (pct_change rt pd))) <= 1)%nat.
Proof.
  intros Hlen. unfold dropna. cbn [rows].
  pose proof (filter_length_le (fun r => forallb notna (snd r)) (rows (pct_change rt pd))) as H.
  pose proof (f_equal (@List.length Z) (pct_change_dates rt pd)) as E.
  rewrite !length_map in E. lia.
Qed.

Lemma dict_setitem_In {V} (d : dict V) k v k' v' :
  In (k', v') (dict_setitem d k v) -> (k', v') = (k, v) \/ In (k', v') d.
Proof.
  induction d as [|[k0 v0] d IH]; simpl.
  - intros [E|[]]. now left.
  - destruct (String.eqb k k0); simpl; intros [E|H]; auto.
    destruct (IH H); auto.
Qed.

Lemma theme_volatility_step_short rt returns d item :
  (List.length (rows returns) <= 1)%nat ->
  all_nan d ->
  exists d', theme_volatility_step rt returns d item = Ok d' /\ all_nan d'.
Proof.
  intros Hlen Hd. destruct item as [theme tickers]. unfold theme_volatility_step.
  destruct (getitem_valid_columns returns tickers) as [ps Hsel].
  destruct (filter (has_column returns) tickers) as [|t valid] eqn:E.
  - eauto.
  - rewrite Hsel. simpl. eexists. split; [reflexivity|].
    intros k v Hin. apply dict_setitem_In in Hin as [[= -> ->] | Hin];
      [|now apply (Hd k)].
    rewrite std_short; [reflexivity|].
    unfold mean_axis1. cbn [rows]. now rewrite !length_map.
Qed.

Lemma normalized_all_nan {rt : Runtime} cmo tv : all_nan tv -> all_nan (normalized cmo tv).
Proof.
  intros Htv k v Hin.
  unfold normalized, series_div_scalar, series_map, adjusted_inverse in Hin.
  rewrite map_map in Hin. apply in_map_iff in Hin as ([k0 v0] & [= <- <-] & Hin).
  simpl. rewrite (Htv _ _ Hin). unfold adjusted. simpl.
  now destruct (entry cmo k0).
Qed.

Lemma spread_all_nan tickers d : all_nan d -> all_nan (spread NaN tickers d).
Proof.
  unfold spread. revert d. induction tickers as [|t tickers IH]; intros d Hd; simpl.
  - assumption.
  - apply IH. intros k v Hin.
    apply dict_setitem_In in Hin as [[= _ ->] | Hin]; [reflexivity | now apply (Hd k)].
Qed.

Lemma split_all_nan {rt : Runtime} thw tg d :
  all_nan thw -> all_nan d -> all_nan (fold_left (split_theme thw) tg d).
Proof.
  intros Hthw. revert d. induction tg as [|item tg IH]; intros d Hd; simpl.
  - assumption.
  - apply IH. unfold split_theme.
    destruct (dict_find thw (fst item)) as [w|] eqn:E; [|assumption].
    apply dict_find_In, Hthw in E. subst w. now apply spread_all_nan.
Qed.

(** C7, as the code has it.  On a price table with fewer than two rows
    nothing raises in the returns or the volatilities: the table of returns
    has no row (given a column), every theme with a priced ticker gets the
    volatility [NaN], and [calculate_weights] returns [NaN] for every theme
    and every ticker.  The run stops only in [calculate_allocation]: with
    [IndexError] on a table without rows, with [IntCastingNaNError] at the
    cast of the share counts when some ticker has a weight; when no ticker
    has one, with [ValueError] at the same cast if the last row has a
    price, and with an empty table returned if the table has no column. *)
Theorem short_price_table_gives_nan_volatility
    (rt : Runtime) (theme_groups : dict (list string)) (price_data : DataFrame)
    (conviction_multipliers : option (dict fl)) (portfolio_value : fl) :
  (List.length (rows price_data) < 2)%nat ->
  (well_formed price_data -> columns price_data <> [] ->
   rows (dropna (pct_change rt price_data)) = []) /\
  exists theme_volatility,
    calculate_theme_volatility rt price_data theme_groups = Ok theme_volatility /\
    all_nan theme_volatility /\
    exists ticker_weights theme_weights,
      calculate_weights rt theme_groups price_data conviction_multipliers
      = Ok (ticker_weights, theme_weights, theme_volatility) /\
      all_nan theme_weights /\
      all_nan ticker_weights /\
      calculate_allocation rt ticker_weights price_data portfolio_value
      = match rows price_data, ticker_weights with
        | [], _ => Raise IndexError
        | _ :: _, [] =>
            match iloc_last price_data with
            | Ok (_ :: _) => Raise ValueError
            | _ => Ok []
            end
        | _ :: _, _ :: _ => Raise IntCastingNaNError
        end.
Proof.
  intros Hlen. split.
  - intros Hwf Hcols. unfold dropna. cbn [rows]. rewrite rows_pct_change.
    assert (Hpad : rows (padded rt price_data) = rows price_data).
    { unfold padded, ffill. destruct (pct_change_pads rt); [|reflexivity].
      cbn [rows]. destruct (rows price_data) as [|[d c] [|r rs]];
        [reflexivity | reflexivity | simpl in Hlen; lia]. }
    rewrite Hpad. unfold well_formed in Hwf.
    destruct (rows price_data) as [|[d c] [|r rs]]; [reflexivity | | simpl in Hlen; lia].
    inversion Hwf as [|? ? Hc _]; subst. simpl in Hc.
    destruct c as [|x c]; [destruct (columns price_data); [congruence | discriminate]|].
    cbn. now rewrite fl_div_nan_r.
  - assert (Hvol : exists tv,
               calculate_theme_volatility rt price_data theme_groups = Ok tv /\ all_nan tv).
    { unfold calculate_theme_volatility. apply for_each_invariant.
      - intros s x Hs. apply theme_volatility_step_short; [|assumption].
        now apply short_returns.
      - intros k v []. }
    destruct Hvol as (tv & Htv & Hnan). exists tv. split; [assumption|].
    split; [assumption|].
    set (thw := normalized conviction_multipliers tv).
    assert (Hthw : all_nan thw) by now apply normalized_all_nan.
    exists (fold_left (split_theme thw) theme_groups []), thw.
    split; [now apply calculate_weights_spec|]. split; [assumption|].
    assert (Htw : all_nan (fold_left (split_theme thw) theme_groups [])).
    { apply split_all_nan; [assumption | intros k v []]. }
    split; [assumption|].
    destruct (rows price_data) as [|r rs] eqn:Erows.
    + unfold calculate_allocation, iloc_last. now rewrite Erows.
    + assert (Hlast : exists latest, iloc_last price_data = Ok latest).
      { unfold iloc_last. rewrite Erows. simpl.
        destruct (rev rs ++ [r]) as [|r' l] eqn:E; [|eauto].
        now apply app_eq_nil in E as [_ [=]]. }
      destruct Hlast as [latest Hlast].
      destruct (fold_left (split_theme thw) theme_groups []) as [|[t w] tw].
      { rewrite Hlast. destruct latest as [|c latest'].
        - rewrite (calculate_allocation_spec _ _ _ _ _ Hlast) by now right.
          simpl. unfold sort_values_desc. now rewrite take_nil.
        - now apply (calculate_allocation_empty _ _ _ _ Hlast). }
      rewrite (calculate_allocation_spec _ _ _ _ _ Hlast) by (left; discriminate).
      rewrite (Htw t w) by now left. reflexivity.
Qed.

(** ** When the cast of the share counts succeeds *)

Lemma share_count_is_finite {rt : Runtime} latest pv t w :
  is_finite (share_count latest pv (t, w))
  = is_finite (dollars_of pv w) && quotable (price_of latest t).
Proof.
  unfold share_count. cbn [fst snd]. rewrite fl_round_is_finite.
  destruct (dollars_of pv w) as [d| | |], (price_of latest t) as [p| | |];
    try reflexivity; cbn [fl_div is_finite quotable andb].
  - destruct (Qeq_bool p 0); [apply inf_times_nonfinite | reflexivity].
  - now destruct (Qle_bool 0 p).
  - now destruct (Qle_bool 0 p).
Qed.

Lemma astype_int_cases xs :
  (forallb is_finite xs = true /\ exists zs, astype_int xs = Ok zs) \/
  (forallb is_finite xs = false /\ astype_int xs = Raise IntCastingNaNError).
Proof.
  induction xs as [|x xs IH]; cbn [forallb astype_int].
  - left. eauto.
  - destruct x as [q| | |]; cbn [is_finite andb]; try (right; now split).
    destruct IH as [[-> [zs ->]] | [-> ->]]; [left | right]; cbn; eauto.
Qed.

Lemma astype_int_finite xs :
  (forall x, In x xs -> is_finite x = true) -> exists zs, astype_int xs = Ok zs.
Proof.
  intros H. destruct (astype_int_cases xs) as [[_ Hok] | [Hnot _]]; [exact Hok|].
  apply forallb_forall in H. congruence.
Qed.

(** A number of at least 1 is still positive after rounding to decimals,
    at every precision. *)
Lemma fl_round_positive {rt : Runtime} decimals q :
  1 <= q -> positive (fl_round decimals (Fin q)).
Proof.
  intros Hq.
  assert (Hone : forall x, 1 <= x -> (1 <= round_half_even x)%Z).
  { intros x Hx. rewrite <- (round_half_even_integer 1).
    now apply round_half_even_monotone. }
  assert (Hrnd : forall x, 1 <= x -> 1 <= round_to (precision rt) x).
  { intros x Hx. rewrite <- (round_to_power (precision rt) 1 0) by discriminate.
    apply round_to_monotone. exact Hx. }
  destruct decimals as [|n].
  - rewrite fl_round_zero. eexists. split; [reflexivity|].
    specialize (Hone q Hq). change 0 with (inject_Z 0). rewrite <- Zlt_Qlt. lia.
  - rewrite fl_round_decimals. pose proof (pow10_positive (S n)) as HP.
    assert (H1 : 1 <= pow10 (S n)).
    { unfold pow10. change 1 with (inject_Z 1). rewrite <- Zle_Qle.
      assert (0 < 10 ^ Z.of_nat (S n))%Z by (apply Z.pow_pos_nonneg; lia). lia. }
    assert (H2 : 1 <= q * pow10 (S n)).
    { assert (1 * 1 <= q * pow10 (S n)) by (apply Qmult_le_compat_nonneg; split; lra).
      lra. }
    assert (H3 : 1 <= Qred (round_to (precision rt) (q * pow10 (S n)))).
    { rewrite Qred_correct. now apply Hrnd. }
    apply Hone in H3.
    destruct (fin_positive (rt := rt)
                (inject_Z (round_half_even
                             (Qred (round_to (precision rt) (q * pow10 (S n)))))
                 / pow10 (S n))) as (r & Hr & Hpos & _).
    + apply Qlt_shift_div_l; [assumption|]. rewrite Qmult_0_l.
      change 0 with (inject_Z 0). rewrite <- Zlt_Qlt. lia.
    + exists r. split; assumption.
Qed.

Lemma positive_quotable x : positive x -> quotable x = true.
Proof.
  intros (q & -> & Hq). cbn [quotable].
  destruct (Qeq_bool q 0) eqn:E; [|reflexivity].
  apply Qeq_bool_eq in E. lra.
Qed.
(** ** Worked examples *)

Local Open Scope string_scope.

(** The scenario of the specification, in exact arithmetic: volatilities
    0.20 and 0.10 give the theme weights 1/3 and 2/3 and the ticker weights
    1/6, 1/6 and 2/3. *)
Example scenario_two_themes :
  normalized (rt := plain_runtime) None [("A", Fin (1 # 5)); ("B", Fin (1 # 10))]
  = [("A", Fin (1 # 3)); ("B", Fin (2 # 3))] /\
  fold_left (split_theme (rt := plain_runtime) [("A", Fin (1 # 3)); ("B", Fin (2 # 3))])
    [("A", ["X"; "Y"]); ("B", ["Z"])] []
  = [("X", Fin (1 # 6)); ("Y", Fin (1 # 6)); ("Z", Fin (2 # 3))].
Proof. split; reflexivity. Qed.

(** The same scenario in doubles: the weights are the doubles next to 1/3
    and 2/3, and their exact sum is [2^-54] short of 1. *)
Example scenario_two_themes_in_doubles :
  normalized (rt := double_runtime) None [("A", double (1 # 5)); ("B", double (1 # 10))]
  = [("A", double (1 # 3)); ("B", double (2 # 3))] /\
  Qsum (map Qval [double (1 # 3); double (2 # 3)]) == 1 - 2 ^ (-54).
Proof. split; vm_compute; reflexivity. Qed.

(** The scenario of the specification: 10000 dollars, weight 0.25, price
    50.00 give 2500.00 dollars and 50 shares. *)
Example scenario_shares :
  calculate_allocation double_runtime [("X", Fin (1 # 4))]
    {| columns := ["X"]; rows := [(1%Z, [Fin 50])] |} (Fin 10000)
  = Ok [{| ticker := "X"; weight_pct := Fin 25; latest_price := Fin 50;
           dollar_allocation := Fin 2500; shares_to_buy := 50 |}].
Proof. vm_compute; reflexivity. Qed.

(** A quotient that is an exact half in decimals need not be one in
    doubles: 165.33 dollars at a price of 10.02 are 16.5 shares on paper
    and 16.500000000000004 in doubles, so the table says 17 shares. *)
Example decimal_half_is_no_half_in_doubles :
  calculate_allocation double_runtime [("X", Fin (1 # 2))]
    {| columns := ["X"]; rows := [(1%Z, [double (1002 # 100)])] |}
    (double (33066 # 100))
  = Ok [{| ticker := "X"; weight_pct := Fin 50;
           latest_price := double (1002 # 100);
           dollar_allocation := double (16533 # 100); shares_to_buy := 17 |}] /\
  (16533 # 100) / (1002 # 100) == 33 # 2.
Proof. split; vm_compute; reflexivity. Qed.

(** Rounding to cents is [rint(x * 100) / 100] on doubles: the double of
    0.005 goes to 0.00 and the double of 2.675 to 2.68. *)
Example cents_are_rounded_in_doubles :
  fl_round (rt := double_runtime) 2 (double (5 # 1000)) = Fin 0 /\
  fl_round (rt := double_runtime) 2 (double (2675 # 1000)) = double (268 # 100).
Proof. split; vm_compute; reflexivity. Qed.

(** A negative multiplier and the entry of an unknown theme are taken as
    they come: the weights are -1/2 and 3/2. *)
Example negative_multiplier_flows_through :
  normalized (rt := plain_runtime) (Some [("A", Fin (-1)); ("Ghost", Fin 7)])
    [("A", Fin (1 # 5)); ("B", Fin (1 # 15))]
  = [("A", Fin (-1 # 2)); ("B", Fin (3 # 2))].
Proof. reflexivity. Qed.

(** *** Counterexamples to the claims as they are stated *)

(** C1: with the multiplier 0.0 for both surviving themes the adjusted
    inverses and their sum are 0, and both theme weights are [NaN], though
    both volatilities are positive. *)
Lemma zero_multipliers_give_nan_weights :
  (forall theme v, In (theme, v) double_volatility -> positive v) /\
  exists ticker_weights,
    calculate_weights double_runtime example_groups example_prices zero_multipliers
    = Ok (ticker_weights, [("A", NaN); ("B", NaN)], double_volatility).
Proof.
  split.
  - intros theme v [E|[E|[]]]; injection E as _ <-;
      eexists; (split; [reflexivity|]); reflexivity.
  - eexists. vm_compute. reflexivity.
Qed.


(** C4: 25.00 dollars at a price of 10.00 are 2.5 shares, an exact half;
    the table says 2 shares, rounding half up says 3. *)
Lemma half_quotient_rounds_to_even :
  calculate_allocation plain_runtime [("X", Fin (1 # 4))]
    {| columns := ["X"]; rows := [(1%Z, [Fin 10])] |} (Fin 100)
  = Ok [{| ticker := "X"; weight_pct := Fin 25; latest_price := Fin 10;
           dollar_allocation := Fin 25; shares_to_buy := 2 |}] /\
  round_half_up (25 / 10) = 3%Z.
Proof. split; reflexivity. Qed.

(** C5: with a volatility of exactly 0 for theme A, [calculate_weights]
    returns (it raises nothing): A has the weight [NaN], B the weight 0. *)
Lemma zero_volatility_does_not_raise :
  dict_find flat_volatility "A" = Some (Fin 0) /\
  calculate_weights padding_runtime flat_groups flat_prices None
  = Ok ([("X", NaN); ("Z", Fin 0)], [("A", NaN); ("B", Fin 0)], flat_volatility) /\
  calculate_weights plain_runtime flat_groups flat_prices None
  = Ok ([("X", NaN); ("Z", Fin 0)], [("A", NaN); ("B", Fin 0)], flat_volatility).
Proof. repeat split; vm_compute; reflexivity. Qed.

(** C6: on the second and third day the return of A is present and only
    that of B is missing, and both rows are dropped, padding or not. *)
Lemma partly_missing_row_is_dropped :
  rows (pct_change plain_runtime late_listing)
  = [(1%Z, [NaN; NaN]); (2%Z, [Fin (1 # 10); NaN]); (3%Z, [Fin (1 # 10); NaN])] /\
  rows (dropna (pct_change plain_runtime late_listing)) = [] /\
  rows (pct_change padding_runtime late_listing)
  = [(1%Z, [NaN; NaN]); (2%Z, [Fin (1 # 10); NaN]); (3%Z, [Fin (1 # 10); NaN])] /\
  rows (dropna (pct_change padding_runtime late_listing)) = [].
Proof. repeat split; vm_compute; reflexivity. Qed.

(** C7: on a single row of prices the volatilities are returned, as [NaN];
    nothing raises before [calculate_allocation], and what raises there is
    the cast to integers. *)
Lemma single_row_gives_nan_volatility :
  calculate_theme_volatility plain_runtime single_row flat_groups
  = Ok [("A", NaN); ("B", NaN)] /\
  calculate_theme_volatility padding_runtime single_row flat_groups
  = Ok [("A", NaN); ("B", NaN)] /\
  calculate_weights plain_runtime flat_groups single_row None
  = Ok ([("X", NaN); ("Z", NaN)], [("A", NaN); ("B", NaN)], [("A", NaN); ("B", NaN)]) /\
  calculate_allocation plain_runtime [("X", NaN); ("Z", NaN)] single_row (Fin 1000)
  = Raise IntCastingNaNError.
Proof. repeat split; vm_compute; reflexivity. Qed.

(** C8: Q has a weight and no column of prices; what is raised is the
    error of the integer cast. *)
Lemma missing_price_raises_cast_error :
  calculate_allocation plain_runtime [("X", Fin (1 # 4)); ("Y", Fin (1 # 4)); ("Q", Fin (1 # 2))]
    example_prices (Fin 100)
  = Raise IntCastingNaNError.
Proof. reflexivity. Qed.

(** C9: B and A both weigh 50 percent; B was entered first and stays
    first, though A is the smaller symbol. *)
Lemma tied_rows_keep_input_order :
  calculate_allocation plain_runtime [("B", Fin (1 # 2)); ("A", Fin (1 # 2))]
    {| columns := ["A"; "B"]; rows := [(1%Z, [Fin 10; Fin 25])] |} (Fin 100)
  = Ok [{| ticker := "B"; weight_pct := Fin 50; latest_price := Fin 25;
           dollar_allocation := Fin 50; shares_to_buy := 2 |};
        {| ticker := "A"; weight_pct := Fin 50; latest_price := Fin 10;
           dollar_allocation := Fin 50; shares_to_buy := 5 |}] /\
  String.ltb "A" "B" = true.
Proof. split; reflexivity. Qed.

(** Whatever the library's sort does with equal keys, the positions depend on
    the weights alone: of two tied tickers entered in either order, one of
    the two tables has them against the order of their symbols. *)
Lemma tie_order_is_blind_to_symbols (rt : Runtime) :
  sorts_descending (sort_order rt) ->
  exists allocation1 allocation2,
    calculate_allocation rt [("A", Fin (1 # 2)); ("B", Fin (1 # 2))]
      {| columns := ["A"; "B"]; rows := [(1%Z, [Fin 10; Fin 25])] |} (Fin 100)
    = Ok allocation1 /\
    calculate_allocation rt [("B", Fin (1 # 2)); ("A", Fin (1 # 2))]
      {| columns := ["A"; "B"]; rows := [(1%Z, [Fin 10; Fin 25])] |} (Fin 100)
    = Ok allocation2 /\
    (map ticker allocation1 = ["B"; "A"] \/ map ticker allocation2 = ["B"; "A"]).
Proof.
  intros Hsort.
  set (pd := {| columns := ["A"; "B"]; rows := [(1%Z, [Fin 10; Fin 25])] |}).
  set (w := fl_round 2 (fl_mul (Fin (1 # 2)) (Fin 100))).
  destruct (Hsort [w; w]) as [Hperm _].
  apply Permutation_sym, Permutation_length_2_inv in Hperm.
  assert (Hlast : iloc_last pd = Ok [("A", Fin 10); ("B", Fin 25)]) by reflexivity.
  assert (Hret : forall tw,
             (forall t x, In (t, x) tw -> x = Fin (1 # 2) /\ (t = "A" \/ t = "B")) ->
             tw <> [] -> exists a, calculate_allocation rt tw pd (Fin 100) = Ok a).
  { intros tw Htw Hne.
    rewrite (calculate_allocation_spec _ _ _ _ _ Hlast) by now left.
    destruct (astype_int_finite
                (map (share_count [("A", Fin 10); ("B", Fin 25)] (Fin 100)) tw))
      as [zs ->]; [|cbn [bind]; eauto].
    intros x Hx. apply in_map_iff in Hx as ([t y] & <- & Hin).
    destruct (Htw t y Hin) as [-> Ht].
    rewrite share_count_is_finite. apply andb_true_iff. split.
    - unfold dollars_of. now rewrite fl_round_is_finite.
    - apply positive_quotable.
      destruct Ht as [-> | ->]; apply fl_round_positive; discriminate. }
  destruct (Hret [("A", Fin (1 # 2)); ("B", Fin (1 # 2))]) as [a1 E1];
    [intros t x [[= <- <-]|[[= <- <-]|[]]]; auto | discriminate |].
  destruct (Hret [("B", Fin (1 # 2)); ("A", Fin (1 # 2))]) as [a2 E2];
    [intros t x [[= <- <-]|[[= <- <-]|[]]]; auto | discriminate |].
  exists a1, a2. split; [exact E1|]. split; [exact E2|].
  rewrite (allocation_tickers _ _ _ _ _ E1), (allocation_tickers _ _ _ _ _ E2).
  cbn [map snd]. fold w.
  destruct Hperm as [-> | ->]; [right | left]; reflexivity.
Qed.

(** *** The theorems at concrete inputs *)

Section InDoubles.

#[local] Existing Instance double_runtime.

Lemma double_volatility_moderate :
  forall theme v, In (theme, v) double_volatility -> moderate v.
Proof.
  intros theme v [E|[E|[]]]; injection E as _ <-;
    eexists; (split; [reflexivity|]);
    split; apply Qle_bool_imp_le; vm_compute; reflexivity.
Defined.

Lemma unit_moderate : moderate (Fin 1).
Proof.
  exists 1. split; [reflexivity|].
  split; apply Qle_bool_imp_le; vm_compute; reflexivity.
Defined.

Lemma ticker_weight_is_share_of_last_theme_example :
  exists ticker_weights theme_weights theme_volatility w,
    calculate_weights double_runtime overlapping_groups example_prices None
    = Ok (ticker_weights, theme_weights, theme_volatility) /\
    dict_find theme_weights "B" = Some w /\
    dict_find ticker_weights "Y"
    = Some (fl_div w (fl_of_nat 2)) /\
    dict_contains theme_weights "C" = false /\
    dict_find ticker_weights "Q" = None.
Proof.
  destruct (ticker_weight_is_share_of_last_theme double_runtime overlapping_groups
              example_prices None)
    as (tw & thw & tv & Hrun & Hkeys & Hlast & Hnone).
  assert (HB : dict_contains thw "B" = true).
  { apply Hkeys. exists ["Y"; "Z"], "Y". cbn. auto. }
  assert (HC : dict_contains thw "C" = false).
  { destruct (dict_contains thw "C") eqn:E; [|reflexivity].
    apply Hkeys in E as (tickers & t & Hin & Ht & Hcol). exfalso.
    destruct Hin as [[= _ <-]|[[= _ <-]|[[= <-]|[]]]]; try discriminate.
    destruct Ht as [<-|[]]. cbn in Hcol.
    destruct Hcol as [|[|[|[]]]]; discriminate. }
  unfold dict_contains in HB. destruct (dict_find thw "B") as [w|] eqn:Ew; [|discriminate].
  exists tw, thw, tv, w. split; [exact Hrun|]. split; [exact Ew|].
  split; [|split; [exact HC|]].
  - apply (Hlast [("A", ["X"; "Y"])] "B" ["Y"; "Z"] [("C", ["Q"])] w "Y");
      [reflexivity | exact Ew | cbn; auto |].
    intros theme' tickers' [[= <- <-]|[]] _ [|[]]. discriminate.
  - apply Hnone. intros theme tickers [[= <- <-]|[[= <- <-]|[[= <- <-]|[]]]] Hw.
    + intros [|[|[]]]; discriminate.
    + intros [|[|[]]]; discriminate.
    + congruence.
Defined.

Lemma theme_weights_sum_to_one_example :
  exists ticker_weights theme_weights,
    calculate_weights double_runtime example_groups example_prices None
    = Ok (ticker_weights, theme_weights, double_volatility) /\
    (forall theme,
        In theme (keys theme_weights) <->
        exists tickers t,
          In (theme, tickers) example_groups /\ In t tickers /\
          In t (columns example_prices)) /\
    (forall w, In w (values theme_weights) -> exists q, w = Fin q /\ 0 < q /\ q <= 1) /\
    Qabs (Qsum (map Qval (values theme_weights)) - 1)
    <= tolerance (List.length double_volatility).
Proof.
  apply theme_weights_sum_to_one.
  - vm_compute; reflexivity.
  - discriminate.
  - exact double_volatility_moderate.
  - intros theme _. exact unit_moderate.
  - apply Qle_bool_imp_le. vm_compute. reflexivity.
Defined.


Lemma shares_round_half_to_even_example :
  exists latest_prices w qd,
    iloc_last {| columns := ["X"]; rows := [(1%Z, [Fin 10])] |} = Ok latest_prices /\
    In (ticker half_share_row, w) [("X", Fin (1 # 4))] /\
    latest_price half_share_row = price_of latest_prices (ticker half_share_row) /\
    dollar_allocation half_share_row = fl_round 2 (fl_mul w (Fin 100)) /\
    dollar_allocation half_share_row = Fin qd /\
    ((exists qp x,
         latest_price half_share_row = Fin qp /\ ~ qp == 0 /\
         fl_div (dollar_allocation half_share_row)
           (latest_price half_share_row) = Fin x /\
         (2 ^ (-1000) <= Qabs (qd / qp) ->
          x == round_to (precision double_runtime) (qd / qp)) /\
         shares_to_buy half_share_row = int64_cast (inject_Z (round_half_even x)) /\
         ((min_int64 <= round_half_even x < 2 ^ 63)%Z ->
          shares_to_buy half_share_row = round_half_even x)) \/
     ((latest_price half_share_row = PInf \/ latest_price half_share_row = NInf) /\
      shares_to_buy half_share_row = 0%Z)).
Proof.
  apply (shares_round_half_to_even double_runtime [("X", Fin (1 # 4))]
           {| columns := ["X"]; rows := [(1%Z, [Fin 10])] |} (Fin 100)
           [half_share_row] half_share_row).
  - vm_compute; reflexivity.
  - simpl; auto.
Defined.

End InDoubles.

Lemma zero_volatility_example :
  fl_div (rt := padding_runtime) (Fin 1) (Fin 0) = PInf /\
  is_finite (adjusted (rt := padding_runtime) None "A" (Fin 0)) = false /\
  exists ticker_weights theme_weights,
    calculate_weights padding_runtime flat_groups flat_prices None
    = Ok (ticker_weights, theme_weights, flat_volatility) /\
    dict_find theme_weights "A" = Some NaN.
Proof.
  apply (zero_volatility_gives_nan_weight padding_runtime flat_groups flat_prices
           None flat_volatility "A" 0).
  - vm_compute; reflexivity.
  - simpl; auto.
  - reflexivity.
Defined.

Lemma short_price_table_example :
  (well_formed single_row -> columns single_row <> [] ->
   rows (dropna (pct_change plain_runtime single_row)) = []) /\
  exists theme_volatility,
    calculate_theme_volatility plain_runtime single_row flat_groups
    = Ok theme_volatility /\
    all_nan theme_volatility /\
    exists ticker_weights theme_weights,
      calculate_weights plain_runtime flat_groups single_row None
      = Ok (ticker_weights, theme_weights, theme_volatility) /\
      all_nan theme_weights /\
      all_nan ticker_weights /\
      calculate_allocation plain_runtime ticker_weights single_row (Fin 1000)
      = match rows single_row, ticker_weights with
        | [], _ => Raise IndexError
        | _ :: _, [] =>
            match iloc_last single_row with
            | Ok (_ :: _) => Raise ValueError
            | _ => Ok []
            end
        | _ :: _, _ :: _ => Raise IntCastingNaNError
        end.
Proof.
  apply (short_price_table_gives_nan_volatility plain_runtime flat_groups single_row
           None (Fin 1000)).
  simpl; lia.
Defined.

Lemma missing_latest_price_example :
  calculate_allocation plain_runtime [("X", Fin (1 # 4)); ("Y", Fin (1 # 4)); ("Q", Fin (1 # 2))]
    example_prices (Fin 100)
  = match rows example_prices with
    | [] => Raise IndexError
    | _ :: _ => Raise IntCastingNaNError
    end.
Proof.
  apply (missing_latest_price_fails_at_the_cast plain_runtime
           [("X", Fin (1 # 4)); ("Y", Fin (1 # 4)); ("Q", Fin (1 # 2))]
           example_prices (Fin 100) "Q" (Fin (1 # 2))).
  - simpl; auto.
  - intros latest [= <-]. left. reflexivity.
Defined.

Lemma allocation_order_example :
  StronglySorted
    (fun r1 r2 => exists a b,
         weight_pct r1 = Fin a /\ weight_pct r2 = Fin b /\ b <= a)
    tied_rows /\
  Permutation (map ticker tied_rows) (keys [("B", Fin (1 # 2)); ("A", Fin (1 # 2))]) /\
  map ticker tied_rows
  = take (keys [("B", Fin (1 # 2)); ("A", Fin (1 # 2))])
      (sort_order plain_runtime
         (map (fun kv => fl_round (rt := plain_runtime) 2
                           (fl_mul (rt := plain_runtime) (snd kv) (Fin 100)))
            [("B", Fin (1 # 2)); ("A", Fin (1 # 2))])).
Proof.
  apply (allocation_sorted_by_weight_only plain_runtime
           [("B", Fin (1 # 2)); ("A", Fin (1 # 2))]
           {| columns := ["A"; "B"]; rows := [(1%Z, [Fin 10; Fin 25])] |} (Fin 100)).
  - exact stable_order_sorts.
  - reflexivity.
Defined.

(** * Further properties of the code *)

Local Close Scope string_scope.

(** ** The volatilities: order, range, what they depend on *)

Lemma dict_setitem_fresh {V} (d : dict V) k v :
  ~ In k (keys d) -> dict_setitem d k v = d ++ [(k, v)].
Proof.
  intros H. rewrite <- (app_nil_r d) at 1.
  now rewrite dict_setitem_app_fresh.
Qed.

Lemma theme_volatility_step_keys rt returns d theme tickers d' :
  theme_volatility_step rt returns d (theme, tickers) = Ok d' ->
  ~ In theme (keys d) ->
  keys d' = keys d ++ (if survives returns (theme, tickers) then [theme] else []).
Proof.
  unfold theme_volatility_step, survives, priced. cbn [snd]. intros Hstep Hfresh.
  destruct (getitem_valid_columns returns tickers) as [ps Hsel].
  destruct (filter (has_column returns) tickers) as [|t valid] eqn:E.
  - injection Hstep as <-. now rewrite app_nil_r.
  - rewrite Hsel in Hstep. simpl in Hstep. injection Hstep as <-.
    rewrite dict_setitem_fresh by assumption.
    unfold keys. now rewrite map_app.
Qed.

Lemma theme_volatility_loop_keys rt returns tg :
  forall d tv,
    for_each (theme_volatility_step rt returns) tg d = Ok tv ->
    NoDup (keys d ++ keys tg) ->
    keys tv = keys d ++ keys (filter (survives returns) tg).
Proof.
  induction tg as [|[theme tickers] tg IH]; intros d tv; cbn [for_each].
  - intros [= <-] _. cbn. now rewrite app_nil_r.
  - intros H Hnd. apply bind_ok in H as (d' & Hstep & Hrest).
    assert (Hfresh : ~ In theme (keys d)).
    { cbn in Hnd. apply NoDup_remove_2 in Hnd. intros Hin. apply Hnd.
      apply in_or_app. now left. }
    pose proof (theme_volatility_step_keys _ _ _ _ _ _ Hstep Hfresh) as Hk.
    rewrite (IH _ _ Hrest).
    + rewrite Hk, <- app_assoc. f_equal. cbn [filter].
      destruct (survives returns (theme, tickers)); reflexivity.
    + rewrite Hk. cbn in Hnd.
      destruct (survives returns (theme, tickers)).
      * rewrite <- app_assoc. cbn.
        apply NoDup_Add with (a := theme) (l := keys d ++ keys tg).
        -- apply Add_app.
        -- split.
           ++ now apply NoDup_remove_1 in Hnd.
           ++ now apply NoDup_remove_2 in Hnd.
      * rewrite app_nil_r. now apply NoDup_remove_1 in Hnd.
Qed.

Lemma survives_returns rt price_data item :
  survives (dropna (pct_change rt price_data)) item = survives price_data item.
Proof.
  unfold survives. fold (priced (dropna (pct_change rt price_data)) (snd item)).
  unfold priced at 1. now rewrite priced_returns.
Qed.

(** X1.  The volatilities come in the order of [theme_groups], one for each
    theme that lists a ticker with a column of prices, whatever the prices
    are. *)
Theorem volatilities_keep_theme_order
    (rt : Runtime) (price_data : DataFrame) (theme_groups : dict (list string))
    (theme_volatility : Series) :
  NoDup (keys theme_groups) ->
  calculate_theme_volatility rt price_data theme_groups = Ok theme_volatility ->
  keys theme_volatility = keys (filter (survives price_data) theme_groups).
Proof.
  intros Hnd H. unfold calculate_theme_volatility in H.
  rewrite (theme_volatility_loop_keys _ _ _ _ _ H) by exact Hnd.
  cbn. f_equal. apply filter_ext. intros item. apply survives_returns.
Qed.

Lemma for_each_map {A B S} (body : S -> B -> outcome S) (g : A -> B) xs s :
  for_each body (map g xs) s = for_each (fun s x => body s (g x)) xs s.
Proof.
  revert s. induction xs as [|x xs IH]; intros s; cbn; [reflexivity|].
  destruct (body s (g x)); cbn; [apply IH | reflexivity].
Qed.

Lemma for_each_ext {A S} (body body' : S -> A -> outcome S) xs s :
  (forall s x, body s x = body' s x) ->
  for_each body xs s = for_each body' xs s.
Proof.
  intros H. revert s. induction xs as [|x xs IH]; intros s; cbn; [reflexivity|].
  rewrite H. destruct (body' s x); cbn; [apply IH | reflexivity].
Qed.

Lemma filter_idem {A} (f : A -> bool) l : filter f (filter f l) = filter f l.
Proof.
  induction l as [|x l IH]; cbn; [reflexivity|].
  destruct (f x) eqn:E; cbn; [rewrite E; f_equal|]; exact IH.
Qed.

(** X2.  The tickers of a theme that have no column of prices have no part in its
    volatility: the volatilities are those of the themes cut down to their
    priced tickers.  (They do have a part in the ticker weights, which divide
    by the length of the whole list.) *)
Theorem volatility_ignores_unpriced_tickers
    (rt : Runtime) (price_data : DataFrame) (theme_groups : dict (list string)) :
  calculate_theme_volatility rt price_data (priced_groups price_data theme_groups)
  = calculate_theme_volatility rt price_data theme_groups.
Proof.
  unfold calculate_theme_volatility, priced_groups.
  rewrite for_each_map. apply for_each_ext. intros d [theme tickers].
  unfold theme_volatility_step. cbn [fst snd].
  rewrite <- (priced_returns rt price_data tickers).
  now rewrite filter_idem.
Qed.

(** *** A volatility is never negative *)

Lemma fold_add_nan {rt : Runtime} ys acc : In NaN ys -> fold_left fl_add ys acc = NaN.
Proof.
  revert acc. induction ys as [|y ys IH]; intros acc Hin; cbn; [contradiction|].
  destruct Hin as [-> | Hin]; [|now apply IH].
  replace (fl_add acc NaN) with NaN by now destruct acc.
  clear IH. induction ys as [|y ys IH]; cbn; [reflexivity | exact IH].
Qed.

Lemma all_finite_values ys :
  forallb is_finite ys = true -> exists qs, ys = map Fin qs.
Proof.
  induction ys as [|y ys IH]; cbn; intros H.
  - now exists [].
  - apply andb_true_iff in H as [Hy Hys]. destruct (IH Hys) as [qs ->].
    destruct y as [q| | |]; try discriminate. now exists (q :: qs).
Qed.

Lemma fl_of_nat_nonzero n : (0 < n)%nat -> ~ inject_Z (Z.of_nat n) == 0.
Proof.
  intros Hn E. unfold Qeq in E. cbn in E. lia.
Qed.

(** A sum of numbers that are not negative is not negative. *)
Lemma fold_add_nonnegative {rt : Runtime} qs :
  forall a, 0 <= a -> Forall (fun q => 0 <= q) qs ->
  exists s, fold_left fl_add (map Fin qs) (Fin a) = Fin s /\ 0 <= s.
Proof.
  induction qs as [|q qs IH]; intros a Ha Hqs; cbn [map fold_left fl_add].
  - eauto.
  - inversion Hqs; subst. unfold fin. apply IH; [|assumption].
    rewrite Qred_correct. apply round_to_sign. lra.
Qed.

(** The variance of finite numbers is a finite number, not negative. *)
Lemma nanvar_of_finite {rt : Runtime} ddof qs :
  (ddof < List.length qs)%nat ->
  exists v, nanvar ddof (map Fin qs) = Fin v /\ 0 <= v.
Proof.
  intros Hlt. unfold nanvar, count, nansum.
  rewrite filter_notna_finite, length_map.
  destruct (Nat.leb_spec (List.length qs) ddof) as [Hle|_]; [lia|].
  cbv zeta.
  destruct (fold_add_finite qs 0) as [s ->].
  unfold fl_of_nat. rewrite fl_div_finite by (apply fl_of_nat_nonzero; lia).
  unfold fin.
  set (avg := Qred (round_to (precision rt) (s / inject_Z (Z.of_nat (List.length qs))))).
  clearbody avg. rewrite map_map.
  assert (Hsq : exists rs,
             map (fun q => let d := fl_sub (Fin avg) (Fin q) in fl_mul d d) qs
             = map Fin rs /\ Forall (fun r => 0 <= r) rs).
  { clear. induction qs as [|q qs' (rs & IH & Hrs)]; cbn [map].
    - exists []. split; [reflexivity | constructor].
    - cbv zeta in IH |- *. rewrite IH. cbn [fl_sub fl_opp fl_add]. unfold fin at 1 2. cbn [fl_mul].
      eexists (_ :: rs). split; [reflexivity|]. constructor; [|assumption].
      rewrite Qred_correct. apply round_to_sign.
      set (d := Qred _). destruct (Qlt_le_dec d 0).
      + setoid_replace (d * d) with ((- d) * (- d)) by ring.
        apply Qmult_le_0_compat; lra.
      + now apply Qmult_le_0_compat. }
  cbv beta zeta in Hsq |- *. destruct Hsq as (rs & -> & Hrs).
  destruct (fold_add_nonnegative rs 0) as (t & -> & Ht); [lra | assumption |].
  rewrite fl_div_finite by (apply fl_of_nat_nonzero; lia).
  eexists. split; [reflexivity|]. rewrite Qred_correct. apply round_to_sign.
  apply Qle_shift_div_l; [|lra].
  change 0 with (inject_Z 0). rewrite <- Zlt_Qlt. lia.
Qed.

Lemma infinity_over_count {rt : Runtime} b n :
  fl_div (infinity b) (fl_of_nat n) = infinity b.
Proof.
  assert (H : Qle_bool 0 (inject_Z (Z.of_nat n)) = true).
  { apply Qle_bool_iff. unfold Qle. cbn. lia. }
  unfold fl_of_nat. destruct b; cbn [infinity fl_div]; now rewrite H.
Qed.

Lemma nanvar_with_infinity {rt : Runtime} ddof b xs :
  In (infinity b) xs -> nanvar ddof xs = NaN.
Proof.
  intros Hin. unfold nanvar.
  destruct (count xs <=? ddof)%nat; [reflexivity|].
  assert (Hys : In (infinity b) (filter notna xs)).
  { apply filter_In. split; [assumption | now destruct b]. }
  rewrite fold_add_nan; [now destruct (fl_of_nat _)|].
  apply in_map_iff. exists (infinity b). split; [|exact Hys].
  unfold nansum.
  destruct (fold_add_meets_infinity b (filter notna xs) (Fin 0) Hys) as [-> | ->].
  - rewrite infinity_over_count. now destruct b.
  - reflexivity.
Qed.

Lemma nanvar_filter {rt : Runtime} ddof xs :
  nanvar ddof (filter notna xs) = nanvar ddof xs.
Proof.
  unfold nanvar, count, nansum. now rewrite !filter_idem.
Qed.

(** The variance is missing or a finite number that is not negative. *)
Lemma nanvar_not_negative {rt : Runtime} ddof xs :
  nanvar ddof xs = NaN \/ exists v, nanvar ddof xs = Fin v /\ 0 <= v.
Proof.
  rewrite <- nanvar_filter.
  destruct (forallb is_finite (filter notna xs)) eqn:Hfin.
  - destruct (all_finite_values _ Hfin) as [qs ->].
    destruct (Nat.ltb_spec ddof (List.length qs)) as [Hlt|Hge].
    + right. now apply nanvar_of_finite.
    + left. unfold nanvar, count.
      rewrite filter_notna_finite, length_map.
      apply Nat.leb_le in Hge. now rewrite Hge.
  - left.
    assert (Hbad : exists b, In (infinity b) (filter notna xs)).
    { clear -Hfin. induction xs as [|x xs IH]; cbn in *; [discriminate|].
      destruct x as [q| | |]; cbn in *.
      - destruct (IH Hfin) as [b Hb]. exists b. now right.
      - exists true. now left.
      - exists false. now left.
      - apply IH, Hfin. }
    destruct Hbad as [b Hb]. now apply (nanvar_with_infinity ddof b).
Qed.

(** Every volatility is what [std() * sqrt(252)] gives on some series. *)
Lemma theme_volatility_values rt price_data tg tv (P : fl -> Prop) :
  (forall xs, P (fl_mul (std rt xs) (annualization rt))) ->
  calculate_theme_volatility rt price_data tg = Ok tv ->
  forall theme v, In (theme, v) tv -> P v.
Proof.
  intros HP Htv. unfold calculate_theme_volatility in Htv.
  destruct (for_each_invariant
              (theme_volatility_step rt (dropna (pct_change rt price_data)))
              (fun d => forall k v, In (k, v) d -> P v)) with (xs := tg) (s := @nil (string * fl))
    as (tv' & E & Hinv).
  - intros d [theme tickers] Hd. unfold theme_volatility_step.
    destruct (getitem_valid_columns (dropna (pct_change rt price_data)) tickers)
      as [ps Hsel].
    destruct (filter (has_column (dropna (pct_change rt price_data))) tickers)
      as [|t valid] eqn:E.
    + eauto.
    + rewrite Hsel. cbn. eexists. split; [reflexivity|].
      intros k v Hin. apply dict_setitem_In in Hin as [[= -> ->] | Hin];
        [apply HP | now apply (Hd k)].
  - intros k v [].
  - rewrite E in Htv. injection Htv as <-. exact Hinv.
Qed.

(** X3.  With a square root that is not negative, no volatility is: it is
    missing, or a finite number that is zero or more, or (in doubles, when
    the returns are so large that their squares overflow) plus infinity;
    it is never negative and never minus infinity. *)
Theorem volatility_is_never_negative
    (rt : Runtime) (price_data : DataFrame) (theme_groups : dict (list string))
    (theme_volatility : Series) (theme : string) (v : fl) :
  nonnegative_root rt ->
  calculate_theme_volatility rt price_data theme_groups = Ok theme_volatility ->
  In (theme, v) theme_volatility ->
  not_negative v.
Proof.
  intros Hroot Htv Hin.
  apply (theme_volatility_values rt price_data theme_groups theme_volatility
           not_negative) with (theme := theme); [|assumption..].
  intros xs. unfold std, annualization.
  assert (Ha : exists a, fl_sqrt rt (Fin 252) = Fin a /\ 0 <= a).
  { cbn. eexists. split; [reflexivity|]. rewrite Qred_correct.
    apply round_to_sign, Hroot. discriminate. }
  destruct Ha as (a & -> & Ha).
  destruct (nanvar_not_negative 1 xs) as [-> | (q & -> & Hq)]; [now left|].
  cbn [fl_sqrt]. apply Qle_bool_iff in Hq as Hb. rewrite Hb.
  unfold fin at 1. cbn [fl_mul]. right. right. eexists. split; [reflexivity|].
  rewrite Qred_correct. apply round_to_sign.
  apply Qmult_le_0_compat; [|assumption].
  rewrite Qred_correct. apply round_to_sign. now apply Hroot.
Qed.

(** ** The allocation: when it is returned, and how far rounding goes *)

Lemma iloc_last_Ok df latest : iloc_last df = Ok latest -> rows df <> [].
Proof.
  unfold iloc_last. intros H E. rewrite E in H. discriminate.
Qed.

Lemma iloc_last_Raise df e : iloc_last df = Raise e -> e = IndexError /\ rows df = [].
Proof.
  unfold iloc_last. destruct (rows df) as [|r rs]; cbn [rev].
  - intros [= <-]. now split.
  - destruct (rev rs ++ [r]) eqn:E; [|discriminate].
    now apply app_eq_nil in E as [_ E].
Qed.

(** X11.  When [calculate_allocation] returns a table, the price table has
    a row and every ticker with a weight has a finite dollar amount and a
    price that is present and not 0.00 (and, when no ticker has a weight,
    the last row has no cell).  Without a row it raises [IndexError]; with
    a weighted ticker whose dollar amount over its price is not a finite
    number, [IntCastingNaNError]; with a last row of prices and no weighted
    ticker, [ValueError]; and never [KeyError]. *)
Theorem allocation_outcome
    (rt : Runtime) (ticker_weights : Series) (price_data : DataFrame)
    (portfolio_value : fl) :
  match calculate_allocation rt ticker_weights price_data portfolio_value with
  | Ok _ =>
      exists latest_prices,
        iloc_last price_data = Ok latest_prices /\
        (ticker_weights = [] -> latest_prices = []) /\
        forall t w, In (t, w) ticker_weights ->
          is_finite (dollars_of portfolio_value w) = true /\
          quotable (price_of latest_prices t) = true
  | Raise IndexError => rows price_data = []
  | Raise IntCastingNaNError =>
      exists latest_prices t w,
        iloc_last price_data = Ok latest_prices /\
        In (t, w) ticker_weights /\
        is_finite (fl_div (dollars_of portfolio_value w) (price_of latest_prices t))
        = false
  | Raise ValueError =>
      ticker_weights = [] /\
      exists latest_prices,
        iloc_last price_data = Ok latest_prices /\ latest_prices <> []
  | Raise (KeyError _) => False
  end.
Proof.
  destruct (iloc_last price_data) as [latest|e] eqn:Hlast.
  - destruct ticker_weights as [|kv tw] eqn:Etw.
    { destruct latest as [|c latest'].
      - rewrite (calculate_allocation_spec _ _ _ _ _ Hlast) by now right.
        cbn. exists []. split; [reflexivity|]. split; [reflexivity|].
        intros t w [].
      - rewrite (calculate_allocation_empty _ _ _ _ Hlast) by discriminate.
        split; [reflexivity|]. exists (c :: latest'). split; [reflexivity | discriminate]. }
    rewrite <- Etw.
    assert (Hne : ticker_weights <> []) by (rewrite Etw; discriminate).
    clear Etw.
    rewrite (calculate_allocation_spec _ _ _ _ _ Hlast) by now left.
    destruct (astype_int_cases (map (share_count latest portfolio_value) ticker_weights))
      as [[Hall [zs ->]] | [Hsome ->]]; cbn [bind].
    + exists latest. split; [reflexivity|]. split; [intros E; contradiction|].
      intros t w Hin.
      rewrite forallb_forall in Hall.
      specialize (Hall _ (in_map (share_count latest portfolio_value) _ _ Hin)).
      rewrite share_count_is_finite in Hall. now apply andb_true_iff in Hall.
    + assert (Hex : existsb (fun x => negb (is_finite x))
                      (map (share_count latest portfolio_value) ticker_weights) = true).
      { clear -Hsome.
        induction (map (share_count latest portfolio_value) ticker_weights)
          as [|x xs IH]; cbn in *; [discriminate|].
        destruct (is_finite x); cbn in *; [now apply IH | reflexivity]. }
      apply existsb_exists in Hex as (x & Hx & Hnot).
      apply in_map_iff in Hx as ([t w] & <- & Hin).
      unfold share_count in Hnot. cbn [fst snd] in Hnot.
      rewrite fl_round_is_finite in Hnot.
      exists latest, t, w. split; [reflexivity|]. split; [assumption|].
      now apply negb_true_iff in Hnot.
  - unfold calculate_allocation. rewrite Hlast. cbn [bind].
    now apply iloc_last_Raise in Hlast as [-> Hrows].
Qed.

(** What is within a half of zero rounds to zero. *)
Lemma round_half_even_small x : Qabs x <= 1 # 2 -> round_half_even x = 0%Z.
Proof.
  intros H. apply Qabs_Qle_condition in H as [Hlo Hhi].
  destruct (Qfloor_bounds x) as [Hl Hu]. unfold round_half_even. cbv zeta.
  assert (Hf : Qfloor x = 0%Z \/ Qfloor x = (-1)%Z).
  { assert (H1 : inject_Z (Qfloor x) < inject_Z 1)
      by (change (inject_Z 1) with 1; lra).
    assert (H2 : inject_Z (-2) < inject_Z (Qfloor x))
      by (change (inject_Z (-2)) with (-2 # 1); lra).
    rewrite <- Zlt_Qlt in H1, H2. lia. }
  destruct Hf as [Hf|Hf]; rewrite Hf in *.
  - change (inject_Z 0) with 0 in *.
    destruct (Qcompare_spec (x - 0) (1 # 2)) as [E|E|E]; [reflexivity.. | lra].
  - change (inject_Z (-1)) with (-1 # 1) in *.
    destruct (Qcompare_spec (x - (-1 # 1)) (1 # 2)) as [E|E|E];
      [reflexivity | lra | reflexivity].
Qed.

(** A price under half a cent is 0.00 in the table, at every precision. *)
Lemma fl_round_cents_small {rt : Runtime} p :
  Qabs p <= 1 # 200 -> fl_round 2 (Fin p) = Fin 0.
Proof.
  intros H. rewrite fl_round_decimals.
  apply Qabs_Qle_condition in H as [Hlo Hhi].
  change (pow10 2) with (100 # 1).
  assert (Hup : round_to (precision rt) (p * (100 # 1)) <= 1 # 2).
  { rewrite <- (round_to_power (precision rt) 1 (-1)) by discriminate.
    apply round_to_monotone. change (inject_Z 1 * 2 ^ (-1)) with (1 * (1 # 2)). lra. }
  assert (Hdown : - (1 # 2) <= round_to (precision rt) (p * (100 # 1))).
  { rewrite <- (round_to_power (precision rt) (-1) (-1)) by discriminate.
    apply round_to_monotone.
    change (inject_Z (-1) * 2 ^ (-1)) with ((-1 # 1) * (1 # 2)). lra. }
  rewrite round_half_even_small.
  - unfold fin. f_equal. apply (Qred_complete _ 0). apply round_to_zero. reflexivity.
  - rewrite Qred_correct. apply Qabs_Qle_condition. split; assumption.
Qed.

(** X12.  A latest price under half a cent, for a ticker that has a weight, is
    rounded to 0.00; the share count is then infinite or [NaN] and the run
    stops in the cast. *)
Theorem price_under_half_a_cent_stops_the_run
    (rt : Runtime) (ticker_weights : Series) (price_data : DataFrame)
    (portfolio_value : fl) (latest_prices : Series) (t : string) (w : fl) (p : Q) :
  iloc_last price_data = Ok latest_prices ->
  In (t, w) ticker_weights ->
  dict_find latest_prices t = Some (Fin p) ->
  Qabs p <= 1 # 200 ->
  calculate_allocation rt ticker_weights price_data portfolio_value
  = Raise IntCastingNaNError.
Proof.
  intros Hlast Hin Hp Hsmall.
  rewrite (calculate_allocation_spec _ _ _ _ _ Hlast)
    by (left; intros E; rewrite E in Hin; contradiction).
  rewrite astype_int_raises; [reflexivity|].
  apply Exists_exists. exists (share_count latest_prices portfolio_value (t, w)).
  split; [now apply in_map|].
  rewrite share_count_is_finite.
  assert (E : price_of latest_prices t = Fin 0).
  { unfold price_of, series_round. rewrite dict_find_series_map, Hp.
    cbn [option_map]. now apply fl_round_cents_small. }
  rewrite E. cbn [quotable]. apply andb_false_r.
Qed.

(** ** The driver: what a run returns and how it stops *)

Lemma key_has_value {V} (d : dict V) k : In k (keys d) -> exists v, In (k, v) d.
Proof.
  intros Hin. apply in_map_iff in Hin as ([k' v] & E & Hin). cbn in E. subst k'.
  now exists v.
Qed.

Lemma surviving_keys rt price_data theme_groups theme_volatility :
  NoDup (keys theme_groups) ->
  calculate_theme_volatility rt price_data theme_groups = Ok theme_volatility ->
  keys theme_volatility = keys (filter (survives price_data) theme_groups).
Proof.
  intros Hnd H. unfold calculate_theme_volatility in H.
  rewrite (theme_volatility_loop_keys _ _ _ _ _ H) by exact Hnd.
  cbn. f_equal. apply filter_ext. intros item. apply survives_returns.
Qed.

(** A theme has a weight exactly when one of its tickers has prices. *)
Lemma weighted_survives rt price_data theme_groups theme_volatility cmo :
  NoDup (keys theme_groups) ->
  calculate_theme_volatility rt price_data theme_groups = Ok theme_volatility ->
  forall item, In item theme_groups ->
    (dict_find (normalized cmo theme_volatility) (fst item) <> None <->
     survives price_data item = true).
Proof.
  intros Hnd Htv [k tickers] Hin. cbn [fst].
  rewrite dict_find_None, keys_normalized, (surviving_keys _ _ _ _ Hnd Htv).
  split.
  - intros Hk.
    destruct (in_dec string_dec k (keys (filter (survives price_data) theme_groups)))
      as [Hk'|Hk']; [|contradiction].
    apply in_map_iff in Hk' as ([k' tickers'] & E & Hf). cbn in E. subst k'.
    apply filter_In in Hf as [Hin' Hs].
    pose proof (dict_find_NoDup _ _ _ Hnd Hin) as E1.
    pose proof (dict_find_NoDup _ _ _ Hnd Hin') as E2.
    rewrite E1 in E2. injection E2 as <-. exact Hs.
  - intros Hs Hk. apply Hk. apply in_map_iff. exists (k, tickers).
    split; [reflexivity|]. apply filter_In. now split.
Qed.

Lemma spread_keys x tickers d t :
  In t (keys (spread x tickers d)) <-> In t tickers \/ In t (keys d).
Proof.
  unfold spread. revert d.
  induction tickers as [|t' tickers IH]; intros d; cbn [fold_left In].
  - tauto.
  - rewrite IH, keys_setitem_In. intuition congruence.
Qed.

Lemma spread_NoDup x tickers d : NoDup (keys d) -> NoDup (keys (spread x tickers d)).
Proof.
  unfold spread. revert d.
  induction tickers as [|t tickers IH]; intros d Hnd; cbn [fold_left];
    [assumption|].
  apply IH. now apply NoDup_keys_setitem.
Qed.

(** The tickers with a weight are those listed by a theme with a weight,
    each once. *)
Lemma split_themes_keys {rt : Runtime} tw tg :
  forall d t,
    In t (keys (fold_left (split_theme tw) tg d)) <->
    In t (keys d) \/
    exists item, In item tg /\ dict_find tw (fst item) <> None /\ In t (snd item).
Proof.
  induction tg as [|item tg IH]; intros d t; cbn [fold_left].
  - split; [auto | intros [H|(? & [] & _)]; exact H].
  - rewrite IH. unfold split_theme at 1.
    destruct (dict_find tw (fst item)) as [w|] eqn:E.
    + rewrite spread_keys. split.
      * intros [[H|H]|(item' & Hin & Hw & Ht)]; [right|now left|right].
        -- exists item. rewrite E. repeat split; [now left | discriminate | assumption].
        -- exists item'. repeat split; [now right | assumption..].
      * intros [H|(item' & [<-|Hin] & Hw & Ht)]; [now left; right| |].
        -- now left; left.
        -- right. now exists item'.
    + split.
      * intros [H|(item' & Hin & Hw & Ht)]; [now left|right].
        exists item'. repeat split; [now right | assumption..].
      * intros [H|(item' & [<-|Hin] & Hw & Ht)]; [now left | congruence |].
        right. now exists item'.
Qed.

Lemma split_themes_NoDup {rt : Runtime} tw tg :
  forall d, NoDup (keys d) -> NoDup (keys (fold_left (split_theme tw) tg d)).
Proof.
  induction tg as [|item tg IH]; intros d Hnd; cbn [fold_left]; [assumption|].
  apply IH. unfold split_theme.
  destruct (dict_find tw (fst item)); [now apply spread_NoDup | assumption].
Qed.

Lemma latest_price_column df latest t v :
  iloc_last df = Ok latest -> dict_find latest t = Some v -> In t (columns df).
Proof.
  unfold iloc_last. destruct (rev (rows df)) as [|r rs]; [discriminate|].
  intros [= <-] H. apply dict_find_In in H. now apply in_combine_l in H.
Qed.

Lemma price_without_column {rt : Runtime} df latest t :
  iloc_last df = Ok latest -> ~ In t (columns df) -> price_of latest t = NaN.
Proof.
  intros Hlast Hnot. apply price_of_missing. left.
  destruct (dict_find latest t) as [v|] eqn:E; [|reflexivity].
  elim Hnot. eapply latest_price_column; eauto.
Qed.

(** What a returned table says of the inputs. *)
Lemma allocation_returned rt tw pd pv allocation :
  calculate_allocation rt tw pd pv = Ok allocation ->
  exists latest,
    iloc_last pd = Ok latest /\
    forall t w, In (t, w) tw ->
      is_finite (dollars_of pv w) = true /\ quotable (price_of latest t) = true.
Proof.
  intros Hcalc.
  apply calculate_allocation_Ok in Hcalc as (latest & shares & Hlast & Hcast & _).
  exists latest. split; [assumption|]. intros t w Hin.
  apply (in_map (share_count latest pv)) in Hin.
  assert (Hfin : forall x, In x (map (share_count latest pv) tw) -> is_finite x = true).
  { clear -Hcast. induction Hcast as [|x z xs zs (q & -> & _) _ IH].
    - intros x [].
    - intros y [<-|Hy]; [reflexivity | now apply IH]. }
  specialize (Hfin _ Hin). rewrite share_count_is_finite in Hfin.
  now apply andb_true_iff in Hfin.
Qed.

Lemma unpriced_weight_raises rt tw pd pv t :
  rows pd <> [] -> In t (keys tw) -> ~ In t (columns pd) ->
  calculate_allocation rt tw pd pv = Raise IntCastingNaNError.
Proof.
  intros Hrows Hkey Hnot.
  destruct (iloc_last pd) as [latest|e] eqn:Hlast.
  - destruct (key_has_value _ _ Hkey) as (w & Hin).
    rewrite (calculate_allocation_spec _ _ _ _ _ Hlast)
      by (left; intros E; rewrite E in Hin; contradiction).
    rewrite astype_int_raises; [reflexivity|].
    apply Exists_exists. exists (share_count latest pv (t, w)).
    split; [now apply in_map|].
    rewrite share_count_is_finite, (price_without_column _ _ _ Hlast Hnot).
    apply andb_false_r.
  - apply iloc_last_Raise in Hlast as [_ Hlast]. contradiction.
Qed.

(** X14.  One listed ticker without prices stops the whole run, in the cast, as
    soon as its theme has another ticker with prices; a theme none of whose
    tickers has prices is dropped without a word. *)
Theorem unpriced_ticker_stops_the_run
    (rt : Runtime) (w : World) (theme_groups : dict (list string))
    (portfolio_value : fl) (conviction_multipliers : option (dict fl))
    (price_data : DataFrame) (theme : string) (tickers : list string)
    (priced_ticker unpriced_ticker : string) :
  fetch_historical_data w (all_tickers w theme_groups)
  = Ok price_data ->
  rows price_data <> [] ->
  In (theme, tickers) theme_groups ->
  In priced_ticker tickers -> In priced_ticker (columns price_data) ->
  In unpriced_ticker tickers -> ~ In unpriced_ticker (columns price_data) ->
  portfolio_allocator rt w theme_groups portfolio_value conviction_multipliers
  = Raise IntCastingNaNError.
Proof.
  intros Hfetch Hrows Hitem Hp Hcol Hu Hnot.
  unfold portfolio_allocator. rewrite Hfetch. cbn [bind].
  destruct (calculate_theme_volatility_returns rt price_data theme_groups)
    as (tv & Htv & _).
  rewrite (calculate_weights_spec _ _ _ _ _ Htv). cbn [bind].
  rewrite (unpriced_weight_raises _ _ _ _ unpriced_ticker); try assumption;
    [reflexivity|].
  apply split_themes_keys. right. exists (theme, tickers). cbn [fst snd].
  split; [assumption|]. split; [|assumption].
  rewrite dict_find_None, keys_normalized. intros H. apply H.
  apply (surviving_themes _ _ _ _ Htv). eauto.
Qed.

Lemma theme_summary_themes {rt : Runtime} tv tw : map summary_theme (theme_summary tv tw) = keys tv.
Proof.
  unfold theme_summary, keys. rewrite map_map. reflexivity.
Qed.

(** X15.  A run that returns has priced every ticker it lists in the table: the
    summary has the surviving themes in their order, and the allocation has
    each ticker of a surviving theme once, all of them with a column of
    prices. *)
Theorem returned_tables_cover_the_surviving_themes
    (rt : Runtime) (w : World) (theme_groups : dict (list string))
    (portfolio_value : fl) (conviction_multipliers : option (dict fl))
    (allocation : list AllocationRow) (summary : list SummaryRow) :
  sorts_descending (sort_order rt) ->
  NoDup (keys theme_groups) ->
  portfolio_allocator rt w theme_groups portfolio_value conviction_multipliers
  = Ok (allocation, summary) ->
  exists price_data,
    fetch_historical_data w (all_tickers w theme_groups)
    = Ok price_data /\
    map summary_theme summary = keys (filter (survives price_data) theme_groups) /\
    NoDup (map ticker allocation) /\
    (forall t, In t (map ticker allocation) <->
               exists item, In item theme_groups /\
                            survives price_data item = true /\ In t (snd item)) /\
    (forall t, In t (map ticker allocation) -> In t (columns price_data)).
Proof.
  intros Hsort Hnd Hrun. unfold portfolio_allocator in Hrun.
  apply bind_ok in Hrun as (price_data & Hfetch & Hrun).
  exists price_data. split; [exact Hfetch|].
  destruct (calculate_theme_volatility_returns rt price_data theme_groups)
    as (tv & Htv & _).
  rewrite (calculate_weights_spec _ _ _ _ _ Htv) in Hrun. cbn [bind] in Hrun.
  apply bind_ok in Hrun as (rows & Hcalc & [= <- <-]).
  set (tw := normalized conviction_multipliers tv) in *.
  set (tkw := fold_left (split_theme tw) theme_groups []) in *.
  assert (Hperm : Permutation (map ticker rows) (keys tkw)).
  { rewrite (allocation_tickers _ _ _ _ _ Hcalc). apply take_perm.
    destruct (Hsort (map (fun kv => fl_round 2 (fl_mul (snd kv) (Fin 100))) tkw))
      as [Hp _].
    unfold keys. now rewrite length_map in *. }
  assert (Hkeys : forall t, In t (keys tkw) <->
            exists item, In item theme_groups /\
                         survives price_data item = true /\ In t (snd item)).
  { intros t. unfold tkw. rewrite split_themes_keys. cbn [keys map In].
    split.
    - intros [[]|(item & Hin & Hw & Ht)]. exists item.
      split; [assumption|]. split; [|assumption].
      now apply (weighted_survives rt price_data theme_groups tv
                   conviction_multipliers Hnd Htv item Hin).
    - intros (item & Hin & Hs & Ht). right. exists item.
      split; [assumption|]. split; [|assumption].
      now apply (weighted_survives rt price_data theme_groups tv
                   conviction_multipliers Hnd Htv item Hin). }
  split; [|split; [|split]].
  - rewrite theme_summary_themes. now apply (surviving_keys rt).
  - apply (Permutation_NoDup (Permutation_sym Hperm)).
    apply split_themes_NoDup. constructor.
  - intros t. rewrite <- Hkeys. split; apply Permutation_in;
      [exact Hperm | exact (Permutation_sym Hperm)].
  - intros t Ht. apply (Permutation_in _ Hperm) in Ht.
    destruct (key_has_value _ _ Ht) as (x & Hx).
    destruct (allocation_returned _ _ _ _ _ Hcalc) as (latest & Hlast & Hall).
    destruct (Hall t x Hx) as [_ Hq].
    unfold price_of, series_round in Hq. rewrite dict_find_series_map in Hq.
    destruct (dict_find latest t) as [v|] eqn:E; [|discriminate].
    eapply latest_price_column; eauto.
Qed.

Lemma allocation_raises rt tw pd pv e :
  calculate_allocation rt tw pd pv = Raise e ->
  (e = IndexError /\ rows pd = []) \/
  (e = IntCastingNaNError /\ rows pd <> []) \/
  (e = ValueError /\ tw = [] /\ rows pd <> []).
Proof.
  destruct (iloc_last pd) as [latest|e'] eqn:Hlast.
  - pose proof (iloc_last_Ok _ _ Hlast) as Hrows.
    destruct tw as [|kv tw'] eqn:Etw.
    { destruct latest as [|c latest'].
      - rewrite (calculate_allocation_spec _ _ _ _ _ Hlast) by now right.
        cbn. discriminate.
      - rewrite (calculate_allocation_empty _ _ _ _ Hlast) by discriminate.
        intros [= <-]. auto. }
    rewrite (calculate_allocation_spec _ _ _ _ _ Hlast) by (left; discriminate).
    destruct (astype_int_cases (map (share_count latest pv) (kv :: tw')))
      as [[_ [zs ->]] | [_ ->]]; cbn [bind]; [discriminate|].
    intros [= <-]. auto.
  - unfold calculate_allocation. rewrite Hlast. cbn [bind]. intros [= <-].
    left. now apply iloc_last_Raise in Hlast.
Qed.

Lemma closing_prices_raises {V} listed (fields : dict V) e :
  closing_prices listed fields = Raise e ->
  (listed = true /\ e = KeyError "Adj Close"%string /\
   dict_contains fields "Adj Close"%string = false) \/
  (listed = false /\ e = KeyError "Close"%string /\
   dict_contains fields "Close"%string = false).
Proof.
  unfold closing_prices, dict_contains, dict_getitem. destruct listed.
  - destruct (dict_find fields "Adj Close"%string); [discriminate|].
    intros [= <-]. auto.
  - destruct (dict_find fields "Close"%string); [discriminate|].
    intros [= <-]. auto.
Qed.

Lemma fetch_raises w tickers e :
  fetch_historical_data w tickers = Raise e ->
  (e = KeyError "Adj Close"%string /\
   lists_adjusted (download w tickers) = true /\
   has_field (download w tickers) "Adj Close"%string = false) \/
  (e = KeyError "Close"%string /\
   lists_adjusted (download w tickers) = false /\
   has_field (download w tickers) "Close"%string = false) \/
  (e = IndexError /\ tickers = [] /\
   exists fields, download w tickers = OneLevel fields).
Proof.
  unfold fetch_historical_data.
  destruct (download w tickers) as [first_level fields|fields];
    cbn [has_field lists_adjusted].
  - intros H. apply closing_prices_raises in H as [(-> & -> & H) | (-> & -> & H)]; auto.
  - destruct (closing_prices _ fields) as [prices|e'] eqn:E; cbn [bind].
    + destruct tickers; cbn [bind]; [|discriminate].
      intros [= <-]. right. right. eauto.
    + intros [= <-].
      apply closing_prices_raises in E as [(-> & -> & H) | (-> & -> & H)]; auto.
Qed.

(** X16.  How a run can stop.  With [KeyError] in the download only: for
    the field [Adj Close] when the first level of the columns lists it and
    no column has it, for the field [Close] when [Adj Close] is not listed
    and there is no [Close] either.  With [IndexError] only on a one-level
    download for no ticker or on a table without rows.  Otherwise in the
    cast of the share counts, on a table that has rows: with
    [IntCastingNaNError], or with [ValueError] when no ticker has a weight.
    The weights themselves never stop it. *)
Theorem errors_of_a_run
    (rt : Runtime) (w : World) (theme_groups : dict (list string))
    (portfolio_value : fl) (conviction_multipliers : option (dict fl)) :
  match portfolio_allocator rt w theme_groups portfolio_value
          conviction_multipliers with
  | Ok _ =>
      exists price_data,
        fetch_historical_data w (all_tickers w theme_groups) = Ok price_data /\
        rows price_data <> []
  | Raise (KeyError key) =>
      (key = "Adj Close"%string /\
       lists_adjusted (download w (all_tickers w theme_groups)) = true /\
       has_field (download w (all_tickers w theme_groups)) "Adj Close"%string = false) \/
      (key = "Close"%string /\
       lists_adjusted (download w (all_tickers w theme_groups)) = false /\
       has_field (download w (all_tickers w theme_groups)) "Close"%string = false)
  | Raise IndexError =>
      (all_tickers w theme_groups = [] /\
       exists fields, download w (all_tickers w theme_groups) = OneLevel fields) \/
      (exists price_data,
          fetch_historical_data w (all_tickers w theme_groups) = Ok price_data /\
          rows price_data = [])
  | Raise IntCastingNaNError =>
      exists price_data,
        fetch_historical_data w (all_tickers w theme_groups) = Ok price_data /\
        rows price_data <> []
  | Raise ValueError =>
      exists price_data theme_weights theme_volatility,
        fetch_historical_data w (all_tickers w theme_groups) = Ok price_data /\
        calculate_weights rt theme_groups price_data conviction_multipliers
        = Ok ([], theme_weights, theme_volatility) /\
        rows price_data <> []
  end.
Proof.
  unfold portfolio_allocator.
  destruct (fetch_historical_data w (all_tickers w theme_groups))
    as [price_data|e] eqn:Hfetch; cbn [bind].
  - destruct (calculate_theme_volatility_returns rt price_data theme_groups)
      as (tv & Htv & _).
    rewrite (calculate_weights_spec _ _ _ _ _ Htv). cbn [bind].
    destruct (calculate_allocation rt _ price_data portfolio_value)
      as [allocation|e] eqn:Hcalc; cbn [bind].
    + exists price_data. split; [reflexivity|].
      apply calculate_allocation_Ok in Hcalc as (latest & _ & Hlast & _).
      eapply iloc_last_Ok; eauto.
    + apply allocation_raises in Hcalc
        as [[-> Hrows] | [[-> Hrows] | (-> & Htw & Hrows)]]; eauto.
      exists price_data, (normalized conviction_multipliers tv), tv.
      split; [reflexivity|]. split; [|assumption].
      rewrite (calculate_weights_spec _ _ _ _ _ Htv). now rewrite Htw.
  - apply fetch_raises in Hfetch
      as [(-> & Hadj & Hno) | [(-> & Hadj & Hclose) | (-> & Hnone & Hone)]]; auto.
Qed.

(** ** How many rows of prices the volatilities need *)

Lemma first_return_missing {rt : Runtime} c :
  c <> [] ->
  forallb notna
    (map (fun x => fl_sub x (Fin 1)) (zip_with fl_div c (map (fun _ => NaN) c)))
  = false.
Proof.
  destruct c as [|x c]; [congruence|]. intros _.
  cbn [map zip_with forallb]. now rewrite fl_div_nan_r.
Qed.

Lemma padded_first_row rt pd :
  match rows (padded rt pd), rows pd with
  | r :: _, r' :: _ => r = r'
  | [], [] => True
  | _, _ => False
  end.
Proof.
  unfold padded, ffill. destruct (pct_change_pads rt); cbn [rows];
    destruct (rows pd) as [|[d c] rs]; auto.
Qed.

(** The first date has no return: its row is dropped. *)
Lemma returns_lose_the_first_row rt pd :
  well_formed pd -> columns pd <> [] ->
  (List.length (rows (dropna (pct_change rt pd))) <= List.length (rows pd) - 1)%nat.
Proof.
  intros Hwf Hcols. unfold dropna. cbn [rows]. rewrite rows_pct_change.
  pose proof (f_equal (@List.length Z) (padded_dates rt pd)) as Elen.
  rewrite !length_map in Elen.
  pose proof (padded_first_row rt pd) as Hfirst.
  unfold well_formed in Hwf.
  destruct (rows (padded rt pd)) as [|[d c] rs], (rows pd) as [|r' rs'];
    try contradiction; cbn [List.length] in *; [cbn; lia|]. subst r'.
  inversion Hwf as [|? ? Hc _]; subst. cbn [snd] in Hc.
  cbn [returns_from filter snd]. rewrite first_return_missing.
  - pose proof (filter_length_le (fun r => forallb notna (snd r))
                  (returns_from c rs)) as Hf.
    pose proof (f_equal (@List.length Z) (returns_from_dates c rs)) as Er.
    rewrite !length_map in Er. lia.
  - intros ->. destruct (columns pd); [congruence | discriminate].
Qed.

(** X5.  The returns have a row less than the prices, and a volatility needs two
    rows of returns that are complete: with fewer, so on fewer than three
    rows of prices, every volatility and every weight is [NaN], and nothing
    is raised. *)
Theorem two_complete_returns_are_needed
    (rt : Runtime) (theme_groups : dict (list string)) (price_data : DataFrame)
    (conviction_multipliers : option (dict fl)) :
  well_formed price_data -> columns price_data <> [] ->
  (List.length (rows (dropna (pct_change rt price_data)))
   <= List.length (rows price_data) - 1)%nat /\
  ((List.length (rows (dropna (pct_change rt price_data))) <= 1)%nat ->
   exists theme_volatility ticker_weights theme_weights,
     calculate_theme_volatility rt price_data theme_groups = Ok theme_volatility /\
     calculate_weights rt theme_groups price_data conviction_multipliers
     = Ok (ticker_weights, theme_weights, theme_volatility) /\
     all_nan theme_volatility /\ all_nan theme_weights /\ all_nan ticker_weights).
Proof.
  intros Hwf Hcols. split; [now apply returns_lose_the_first_row|].
  intros Hshort.
  assert (Hvol : exists tv,
             calculate_theme_volatility rt price_data theme_groups = Ok tv /\
             all_nan tv).
  { unfold calculate_theme_volatility. apply for_each_invariant.
    - intros s x Hs. now apply theme_volatility_step_short.
    - intros k v []. }
  destruct Hvol as (tv & Htv & Hnan).
  set (thw := normalized conviction_multipliers tv).
  assert (Hthw : all_nan thw) by now apply normalized_all_nan.
  exists tv, (fold_left (split_theme thw) theme_groups []), thw.
  split; [assumption|]. split; [now apply calculate_weights_spec|].
  split; [assumption|]. split; [assumption|].
  apply split_all_nan; [assumption | intros k v []].
Qed.

(** ** The multiplier 1.0 *)

Lemma unit_multiplier_is_neutral {rt : Runtime} v : fl_mul (fl_div (Fin 1) v) (Fin 1) = fl_div (Fin 1) v.
Proof.
  assert (Hzero : fl_mul (Fin 0) (Fin 1) = Fin 0).
  { cbn [fl_mul]. unfold fin. f_equal. apply (Qred_complete _ 0).
    apply round_to_zero. ring. }
  destruct v as [q| | |]; cbn [fl_div]; try exact Hzero; try reflexivity.
  destruct (Qeq_bool q 0).
  - reflexivity.
  - unfold fin. cbn [fl_mul]. unfold fin. f_equal. apply Qred_complete.
    rewrite (round_to_compat _ _ (round_to (precision rt) (1 / q))).
    + apply round_to_idempotent.
    + rewrite Qred_correct. ring.
Qed.

(** X9.  A multiplier of 1.0 for every surviving theme, the default the prompt
    of [main] fills in, gives the weights of a run without multipliers,
    whatever the volatilities are. *)
Theorem unit_multipliers_change_nothing
    (rt : Runtime) (theme_groups : dict (list string)) (price_data : DataFrame)
    (conviction_multipliers : option (dict fl)) (theme_volatility : Series) :
  calculate_theme_volatility rt price_data theme_groups = Ok theme_volatility ->
  (forall theme, In theme (keys theme_volatility) ->
                 multiplier conviction_multipliers theme = Fin 1) ->
  calculate_weights rt theme_groups price_data conviction_multipliers
  = calculate_weights rt theme_groups price_data None.
Proof.
  intros Htv Hone.
  assert (E : adjusted_inverse conviction_multipliers theme_volatility
              = adjusted_inverse None theme_volatility).
  { unfold adjusted_inverse. apply map_ext_in. intros [k v] Hin. cbn [fst snd].
    f_equal. specialize (Hone k (in_map fst _ _ Hin)). cbn [fst] in Hone.
    unfold multiplier in Hone. unfold adjusted.
    destruct (entry conviction_multipliers k) as [m|]; [|reflexivity].
    subst m. cbn [entry]. apply unit_multiplier_is_neutral. }
  rewrite !(calculate_weights_spec _ _ _ _ _ Htv).
  unfold normalized. now rewrite E.
Qed.

(** ** Volatility and weight *)

(** X7.  Of two surviving themes with the same multiplier, the one whose
    volatility is not larger gets a weight that is not smaller (the
    volatilities and multipliers being finite numbers between [2^-200] and
    [2^200]): the weights follow the inverse volatilities through every
    rounding. *)
Theorem lower_volatility_gets_no_smaller_weight
    (rt : Runtime) (theme_groups : dict (list string)) (price_data : DataFrame)
    (conviction_multipliers : option (dict fl)) (theme_volatility : Series)
    (calm lively : string) (low high : Q) :
  calculate_theme_volatility rt price_data theme_groups = Ok theme_volatility ->
  (forall theme v, In (theme, v) theme_volatility -> moderate v) ->
  (forall theme, In theme (keys theme_volatility) ->
                 moderate (multiplier conviction_multipliers theme)) ->
  tolerance (List.length theme_volatility) <= 1 ->
  In (calm, Fin low) theme_volatility ->
  In (lively, Fin high) theme_volatility ->
  low <= high ->
  multiplier conviction_multipliers calm = multiplier conviction_multipliers lively ->
  exists ticker_weights theme_weights w w',
    calculate_weights rt theme_groups price_data conviction_multipliers
    = Ok (ticker_weights, theme_weights, theme_volatility) /\
    dict_find theme_weights calm = Some (Fin w) /\
    dict_find theme_weights lively = Some (Fin w') /\
    w' <= w.
Proof.
  intros Htv Hvol Hmul Htol Hcalm Hlively Hle Hsame.
  pose proof (calculate_theme_volatility_NoDup _ _ _ _ Htv) as Hnd.
  set (tv := theme_volatility) in *. set (cm := conviction_multipliers) in *.
  assert (Hvol' : forall k v, In (k, v) tv -> positive v).
  { intros k v Hk. eapply moderate_positive, Hvol, Hk. }
  assert (Hpm : forall k, In k (keys tv) -> positive (multiplier cm k)).
  { intros k Hk. now apply moderate_positive, Hmul. }
  assert (Hne : tv <> []) by (intros E; rewrite E in Hcalm; contradiction).
  destruct (tolerance_covers _ Htol) as (Hn0 & Hx & _ & _).
  destruct (unit_roundoff_range (rt := rt)) as [U0 U1].
  destruct (adjusted_list cm tv Hvol' Hpm) as [qs Hqs].
  destruct (series_sum_adjusted cm tv qs Hqs Hne) as (S & HS & Hpos & _); [lra|].
  destruct (Hvol' _ _ Hcalm) as (q & [= <-] & Hlow).
  destruct (Hpm calm) as (m & Hm & Hmpos); [apply (in_map fst tv (calm, Fin low)), Hcalm|].
  destruct (adjusted_value cm calm low m Hlow Hm) as (a & Ha & Ea).
  destruct (adjusted_value cm lively high m) as (b & Hb & Eb); [lra | congruence |].
  assert (Hab : b <= a).
  { rewrite Ea, Eb. apply round_to_monotone, Qmult_le_compat_r; [|lra].
    apply round_to_monotone. apply Qdiv_le_cross; lra. }
  assert (Hbpos : 0 < b).
  { destruct (adjusted_positive cm lively (Fin high)) as (b' & Hb' & Hpos' & _).
    - eapply Hvol', Hlively.
    - apply Hpm. apply (in_map fst tv (lively, Fin high)), Hlively.
    - congruence. }
  eexists _, _, _, _. split; [now apply calculate_weights_spec|].
  split; [now apply (theme_weight_value cm tv calm (Fin low) a S)|].
  split; [now apply (theme_weight_value cm tv lively (Fin high) b S)|].
  rewrite !Qred_correct. apply round_to_monotone.
  apply Qdiv_le_cross; [assumption..|].
  apply Qmult_le_compat_r; lra.
Qed.

(** ** The further properties at concrete inputs *)

Local Open Scope string_scope.

Ltac distinct_strings :=
  vm_compute;
  repeat (constructor; [cbn [In]; intuition discriminate|]); constructor.

Lemma volatilities_keep_theme_order_example :
  keys example_volatility = keys (filter (survives example_prices) example_groups).
Proof.
  apply (volatilities_keep_theme_order padding_runtime example_prices example_groups
           example_volatility).
  - distinct_strings.
  - vm_compute; reflexivity.
Defined.

Lemma sqrt_fine_nonnegative : nonnegative_root double_runtime.
Proof.
  intros q _. cbn [sqrt_finite double_runtime]. unfold sqrt_fine.
  destruct (Qle_bool q 0); [discriminate|]. cbv zeta.
  set (k := Z.max 0 (66 - binade q / 2)).
  set (r := Z.sqrt (Qfloor (q * inject_Z (4 ^ k)))).
  assert (Hr : (0 <= r)%Z) by apply Z.sqrt_nonneg.
  assert (Hk : (0 <= k)%Z) by apply Z.le_max_l.
  assert (Hp : forall e, (0 <= e)%Z -> 0 < inject_Z (2 ^ e)).
  { intros e He. change 0 with (inject_Z 0). rewrite <- Zlt_Qlt.
    apply Z.pow_pos_nonneg; lia. }
  destruct (Qeq_bool (inject_Z (r * r)) (q * inject_Z (4 ^ k)));
    (apply Qle_shift_div_l; [apply Hp; lia|]); rewrite Qmult_0_l;
    change 0 with (inject_Z 0); rewrite <- Zle_Qle; lia.
Qed.

Lemma volatility_is_never_negative_example :
  not_negative (nth 0 (values double_volatility) NaN).
Proof.
  apply (volatility_is_never_negative double_runtime example_prices
           example_groups double_volatility "A").
  - exact sqrt_fine_nonnegative.
  - vm_compute; reflexivity.
  - left. reflexivity.
Defined.

Lemma lower_volatility_example :
  exists ticker_weights theme_weights w w',
    calculate_weights double_runtime example_groups example_prices None
    = Ok (ticker_weights, theme_weights, double_volatility) /\
    dict_find theme_weights "A" = Some (Fin w) /\
    dict_find theme_weights "B" = Some (Fin w') /\
    w' <= w.
Proof.
  apply (lower_volatility_gets_no_smaller_weight double_runtime example_groups
           example_prices None double_volatility "A" "B"
           (5055278043846955 # 9007199254740992)
           (5055278043846961 # 4503599627370496)).
  - vm_compute; reflexivity.
  - exact double_volatility_moderate.
  - intros theme _. exact unit_moderate.
  - apply Qle_bool_imp_le. vm_compute. reflexivity.
  - left. reflexivity.
  - right. left. reflexivity.
  - apply Qle_bool_imp_le. vm_compute. reflexivity.
  - reflexivity.
Defined.

Lemma price_under_half_a_cent_example :
  calculate_allocation plain_runtime [("X", Fin 1)] penny_prices (Fin 100)
  = Raise IntCastingNaNError.
Proof.
  apply (price_under_half_a_cent_stops_the_run plain_runtime [("X", Fin 1)]
           penny_prices (Fin 100) [("X", Fin (1 # 250))] "X" (Fin 1) (1 # 250)).
  - reflexivity.
  - left. reflexivity.
  - reflexivity.
  - unfold Qle. cbn. lia.
Defined.

Lemma unpriced_ticker_stops_the_run_example :
  portfolio_allocator padding_runtime example_world mixed_groups (Fin 1000) None
  = Raise IntCastingNaNError.
Proof.
  apply (unpriced_ticker_stops_the_run padding_runtime example_world mixed_groups
           (Fin 1000) None example_prices "A" ["X"; "Q"] "X" "Q").
  - reflexivity.
  - discriminate.
  - left. reflexivity.
  - left. reflexivity.
  - left. reflexivity.
  - right. left. reflexivity.
  - cbn [columns example_prices In]. intuition discriminate.
Defined.

Lemma returned_tables_example :
  exists price_data,
    fetch_historical_data example_world (all_tickers example_world example_groups)
    = Ok price_data /\
    map summary_theme (snd example_run)
    = keys (filter (survives price_data) example_groups) /\
    NoDup (map ticker (fst example_run)) /\
    (forall t, In t (map ticker (fst example_run)) <->
               exists item, In item example_groups /\
                            survives price_data item = true /\ In t (snd item)) /\
    (forall t, In t (map ticker (fst example_run)) -> In t (columns price_data)).
Proof.
  apply (returned_tables_cover_the_surviving_themes padding_runtime example_world
           example_groups (Fin 1000) None (fst example_run) (snd example_run)).
  - exact stable_order_sorts.
  - distinct_strings.
  - vm_compute; reflexivity.
Defined.

Lemma two_complete_returns_are_needed_example :
  (List.length (rows (dropna (pct_change padding_runtime two_days)))
   <= List.length (rows two_days) - 1)%nat /\
  exists theme_volatility ticker_weights theme_weights,
    calculate_theme_volatility padding_runtime two_days flat_groups
    = Ok theme_volatility /\
    calculate_weights padding_runtime flat_groups two_days None
    = Ok (ticker_weights, theme_weights, theme_volatility) /\
    all_nan theme_volatility /\ all_nan theme_weights /\ all_nan ticker_weights.
Proof.
  destruct (two_complete_returns_are_needed padding_runtime flat_groups two_days
              None) as [Hrows Hnan].
  - repeat constructor.
  - discriminate.
  - split; [exact Hrows|]. apply Hnan. vm_compute. lia.
Defined.

Lemma unit_multipliers_change_nothing_example :
  calculate_weights padding_runtime example_groups example_prices unit_multipliers
  = calculate_weights padding_runtime example_groups example_prices None.
Proof.
  apply (unit_multipliers_change_nothing padding_runtime example_groups
           example_prices unit_multipliers example_volatility).
  - vm_compute; reflexivity.
  - intros theme [<-|[<-|[]]]; reflexivity.
Defined.
